(** * tlang: the lexer of [parse/lex.go] and the lazy value of [lazy.go]

    A shallow embedding of the scanner of the tlang template language
    (package [parse], file [lex.go]) and of the one-shot memoizer
    [LazyValue] (file [lazy.go]), with the properties of their
    specification stated and proved over the embedding.

    Conventions.
    - A Go [string] is a byte sequence: [list ascii].  A [rune], a [Pos] and
      an [int] are integers of [Z]; every position and counter of the lexer
      is bounded by the length of the input, so the 64-bit wrap-around of
      Go's [int] is never reached and is not written out.
    - [for i, r = range s] decodes UTF-8 as Go does: [range_str] lists the
      pairs [(i, r)] the loop body sees, and each loop of the source is a
      recursive function over that list which threads the variables the
      loop assigns.
    - A state function of the source takes the lexer by pointer, mutates it
      and returns an item and the next state; here it maps a lexer to the
      item, the next state and the lexer after the call.
    - [fmt.Sprintf] is kept symbolic: an error token holds the format
      string and the arguments given to [errorf]. *)

From Stdlib Require Import ZArith List Ascii String Bool Lia Zbitwise.
Import ListNotations.
Local Open Scope Z_scope.

(* ================================================================= *)
(** ** Go strings *)

Definition b2z (b : ascii) : Z := Z.of_N (N_of_ascii b).

(** [len(s)] *)
Definition len (s : list ascii) : Z := Z.of_nat (List.length s).

(** [s[i:]] *)
Definition slice_from (s : list ascii) (i : Z) : list ascii :=
  skipn (Z.to_nat i) s.

(** [s[:j]] *)
Definition slice_to (s : list ascii) (j : Z) : list ascii :=
  firstn (Z.to_nat j) s.

(** [s[i:j]] *)
Definition slice (s : list ascii) (i j : Z) : list ascii :=
  firstn (Z.to_nat (j - i)) (skipn (Z.to_nat i) s).

(** [s[i]], as an integer.  The source indexes a string only below its
    length; outside of it the model reads 0. *)
Definition byte_at (s : list ascii) (i : Z) : Z :=
  b2z (nth (Z.to_nat i) s zero).

(** A string literal of the source, as bytes. *)
Definition lit (s : string) : list ascii := list_ascii_of_string s.

(** The rune of an ASCII character literal. *)
Definition rune (c : ascii) : Z := b2z c.

Definition LF : Z := 10.   (* '\n' *)
Definition TAB : Z := 9.   (* '\t' *)
Definition CR : Z := 13.   (* '\r' *)
Definition SP : Z := 32.   (* ' '  *)
Definition BACKSLASH : Z := 92.
Definition SQUOTE : Z := 39.
Definition DQUOTE : Z := 34.
Definition BQUOTE : Z := 96.

(** [strings.IndexByte(s, c)] *)
Fixpoint IndexByte (s : list ascii) (c : Z) : Z :=
  match s with
  | [] => -1
  | b :: s' =>
      if b2z b =? c then 0
      else let k := IndexByte s' c in if k <? 0 then -1 else k + 1
  end.

(** [strings.ContainsRune(valid, r)] for the sets of the source, which are
    ASCII: the rune is in the set when it is one of its bytes. *)
Definition ContainsRune (valid : string) (r : Z) : bool :=
  existsb (fun c => b2z c =? r) (lit valid).

(* ================================================================= *)
(** ** UTF-8 (Go's [unicode/utf8]) *)

Module utf8.

Definition RuneError : Z := 0xFFFD.
Definition RuneSelf : Z := 0x80.
Definition MaxRune : Z := 0x10FFFF.
Definition UTFMax : Z := 4.

(** The table [first] with [acceptRanges]: for a leading byte, the size of
    the sequence and the range accepted for its second byte; [None] for
    the bytes that start no sequence of two bytes or more. *)
Definition first (b0 : Z) : option (Z * Z * Z) :=
  if b0 <? 0xC2 then None
  else if b0 <=? 0xDF then Some (2, 0x80, 0xBF)
  else if b0 =? 0xE0 then Some (3, 0xA0, 0xBF)
  else if b0 <=? 0xEC then Some (3, 0x80, 0xBF)
  else if b0 =? 0xED then Some (3, 0x80, 0x9F)
  else if b0 <=? 0xEF then Some (3, 0x80, 0xBF)
  else if b0 =? 0xF0 then Some (4, 0x90, 0xBF)
  else if b0 <=? 0xF3 then Some (4, 0x80, 0xBF)
  else if b0 =? 0xF4 then Some (4, 0x80, 0x8F)
  else None.

Definition cont (b : Z) : bool := (0x80 <=? b) && (b <=? 0xBF).

(** [utf8.DecodeRuneInString]: the rune at the head of [s] and its width. *)
Definition DecodeRuneInString (s : list ascii) : Z * Z :=
  match s with
  | [] => (RuneError, 0)
  | c0 :: s1 =>
      let s0 := b2z c0 in
      if s0 <? RuneSelf then (s0, 1)
      else
        match first s0 with
        | None => (RuneError, 1)
        | Some (sz, lo, hi) =>
            match s1 with
            | [] => (RuneError, 1)
            | c1 :: s2 =>
                let b1 := b2z c1 in
                if (b1 <? lo) || (hi <? b1) then (RuneError, 1)
                else if sz <=? 2 then
                  (Z.lor (Z.shiftl (Z.land s0 0x1F) 6) (Z.land b1 0x3F), 2)
                else
                  match s2 with
                  | [] => (RuneError, 1)
                  | c2 :: s3 =>
                      let b2 := b2z c2 in
                      if negb (cont b2) then (RuneError, 1)
                      else if sz <=? 3 then
                        (Z.lor (Z.lor (Z.shiftl (Z.land s0 0x0F) 12)
                                      (Z.shiftl (Z.land b1 0x3F) 6))
                               (Z.land b2 0x3F), 3)
                      else
                        match s3 with
                        | [] => (RuneError, 1)
                        | c3 :: _ =>
                            let b3 := b2z c3 in
                            if negb (cont b3) then (RuneError, 1)
                            else
                              (Z.lor (Z.lor (Z.lor
                                 (Z.shiftl (Z.land s0 0x07) 18)
                                 (Z.shiftl (Z.land b1 0x3F) 12))
                                 (Z.shiftl (Z.land b2 0x3F) 6))
                                 (Z.land b3 0x3F), 4)
                        end
                  end
            end
        end
  end.

(** [utf8.RuneStart] *)
Definition RuneStart (b : Z) : bool := negb (Z.land b 0xC0 =? 0x80).

(** The backwards search of [DecodeLastRuneInString]:
    [for start--; start >= lim; start-- { if RuneStart(s[start]) { break } }],
    entered with [start] already decremented; [n] bounds the iterations. *)
Fixpoint last_rune_start (n : nat) (s : list ascii) (start lim : Z) : Z :=
  match n with
  | O => start
  | S n' =>
      if start <? lim then start
      else if RuneStart (byte_at s start) then start
      else last_rune_start n' s (start - 1) lim
  end.

(** [utf8.DecodeLastRuneInString] *)
Definition DecodeLastRuneInString (s : list ascii) : Z * Z :=
  let e := len s in
  if e =? 0 then (RuneError, 0)
  else
    let start := e - 1 in
    let r := byte_at s start in
    if r <? RuneSelf then (r, 1)
    else
      let lim := Z.max 0 (e - UTFMax) in
      let start := last_rune_start 4 s (start - 1) lim in
      let start := Z.max 0 start in
      let '(r, size) := DecodeRuneInString (slice s start e) in
      if negb (start + size =? e) then (RuneError, 1) else (r, size).

(** [utf8.RuneLen] *)
Definition RuneLen (r : Z) : Z :=
  if r <? 0 then -1
  else if r <=? 0x7F then 1
  else if r <=? 0x7FF then 2
  else if (0xD800 <=? r) && (r <=? 0xDFFF) then -1
  else if r <=? 0xFFFF then 3
  else if r <=? MaxRune then 4
  else -1.

End utf8.

(** [for i, r = range s]: the pairs (byte index, rune) in order.  [skip]
    counts the bytes of the current rune still to pass. *)
Fixpoint range_from (skip : nat) (i : Z) (s : list ascii) : list (Z * Z) :=
  match s with
  | [] => []
  | _ :: s' =>
      match skip with
      | S k => range_from k (i + 1) s'
      | O =>
          let '(r, w) := utf8.DecodeRuneInString s in
          (i, r) :: range_from (Z.to_nat w - 1) (i + 1) s'
      end
  end.

Definition range_str (s : list ascii) : list (Z * Z) := range_from 0 0 s.

(* ================================================================= *)
(** ** Unicode classes (Go's [unicode]) *)

(** The range tables of Go's [unicode] package above Latin-1 are not part
    of this repository: they are a parameter of the lexer.  Below
    [MaxLatin1] the classes are written out as Go's [properties] table
    has them. *)
Record Tables : Type := mkTables {
  wideLetter : Z -> bool;   (* unicode.Letter above Latin-1 *)
  wideDigit : Z -> bool;    (* unicode.Digit above Latin-1 *)
  widePrint : Z -> bool     (* unicode.PrintRanges above Latin-1 *)
}.

Module unicode.

Definition MaxASCII : Z := 0x7F.
Definition MaxLatin1 : Z := 0xFF.

Definition between (lo hi r : Z) : bool := (lo <=? r) && (r <=? hi).

Definition latin1Letter (r : Z) : bool :=
  between 0x41 0x5A r || between 0x61 0x7A r
  || (r =? 0xAA) || (r =? 0xB5) || (r =? 0xBA)
  || between 0xC0 0xD6 r || between 0xD8 0xF6 r || between 0xF8 0xFF r.

Definition latin1Print (r : Z) : bool :=
  between 0x20 0x7E r || between 0xA1 0xAC r || between 0xAE 0xFF r.

Definition wide (r : Z) : bool := between 0x100 utf8.MaxRune r.

Definition IsLetter (T : Tables) (r : Z) : bool :=
  if between 0 MaxLatin1 r then latin1Letter r
  else wide r && wideLetter T r.

Definition IsDigit (T : Tables) (r : Z) : bool :=
  if r <=? MaxLatin1 then between 0x30 0x39 r
  else wide r && wideDigit T r.

Definition IsPrint (T : Tables) (r : Z) : bool :=
  if between 0 MaxLatin1 r then latin1Print r
  else wide r && widePrint T r.

End unicode.

(** Tables with no entry above Latin-1, for the examples on ASCII inputs
    (which no table above Latin-1 can tell apart). *)
Definition latin1Tables : Tables :=
  mkTables (fun _ => false) (fun _ => false) (fun _ => false).

(* ================================================================= *)
(** ** Items and the lexer ([lex.go]) *)

(** [itemType], in the order of the [const] block. *)
Inductive itemType : Set :=
| itemError | itemBool | itemChar | itemCharConstant | itemComment
| itemComplex | itemAssign | itemDeclare | itemEOF | itemField
| itemIdentifier | itemLeftDelim | itemLeftParen | itemNumber | itemPipe
| itemRawString | itemRightDelim | itemRightParen | itemSpace | itemString
| itemVariable
| itemKeyword | itemBlock | itemBreak | itemContinue | itemDot | itemDefine
| itemElse | itemEnd | itemIf | itemNil | itemRange | itemTemplate | itemWith.

Definition itemType_eq_dec (a b : itemType) : {a = b} + {a <> b}.
Proof. decide equality. Defined.

Definition is_typ (a b : itemType) : bool :=
  if itemType_eq_dec a b then true else false.

(** An argument of [errorf], and the value of an item: a slice of the
    input, or the call of [fmt.Sprintf] an error token was built with. *)
Inductive fmtArg : Set :=
| ArgRune (r : Z)
| ArgString (s : list ascii).

Inductive text : Set :=
| Text (s : list ascii)
| Sprintf (format : string) (args : list fmtArg).

Module Item.

Record t : Set := mk {
  typ : itemType;
  pos : Z;
  val : text;
  line : Z;
  notEmpty : bool
}.

(** [item{}], the zero value: its type is [itemError], the first
    constant. *)
Definition zero : t := mk itemError 0 (Text []) 0 false.

End Item.
Definition item : Set := Item.t.

Definition eof : Z := -1.

(** The three state functions [nextItem] can be left in. *)
Inductive stateFn : Set :=
| StWhitespace      (* lexWhitespace *)
| StInsideAction    (* lexInsideAction *)
| StInActionSpace.  (* lexInActionSpace *)

Record lexer : Set := mkLexer {
  name : string;
  input : list ascii;
  emitComment : bool;
  pos : Z;
  start : Z;
  width : Z;
  parenDepth : Z;
  line : Z;
  startLine : Z;
  nextState : option stateFn
}.

Definition set_pos (l : lexer) (v : Z) : lexer :=
  mkLexer (name l) (input l) (emitComment l) v (start l) (width l)
          (parenDepth l) (line l) (startLine l) (nextState l).
Definition set_start (l : lexer) (v : Z) : lexer :=
  mkLexer (name l) (input l) (emitComment l) (pos l) v (width l)
          (parenDepth l) (line l) (startLine l) (nextState l).
Definition set_width (l : lexer) (v : Z) : lexer :=
  mkLexer (name l) (input l) (emitComment l) (pos l) (start l) v
          (parenDepth l) (line l) (startLine l) (nextState l).
Definition set_parenDepth (l : lexer) (v : Z) : lexer :=
  mkLexer (name l) (input l) (emitComment l) (pos l) (start l) (width l)
          v (line l) (startLine l) (nextState l).
Definition set_line (l : lexer) (v : Z) : lexer :=
  mkLexer (name l) (input l) (emitComment l) (pos l) (start l) (width l)
          (parenDepth l) v (startLine l) (nextState l).
Definition set_startLine (l : lexer) (v : Z) : lexer :=
  mkLexer (name l) (input l) (emitComment l) (pos l) (start l) (width l)
          (parenDepth l) (line l) v (nextState l).
Definition set_nextState (l : lexer) (v : option stateFn) : lexer :=
  mkLexer (name l) (input l) (emitComment l) (pos l) (start l) (width l)
          (parenDepth l) (line l) (startLine l) v.

(** What a state function returns, with the lexer it leaves. *)
Definition result : Set := (item * option stateFn * lexer)%type.

(** [l.input[l.pos:]] *)
Definition data_of (l : lexer) : list ascii := slice_from (input l) (pos l).

(** [next] *)
Definition next (l : lexer) : Z * lexer :=
  if len (input l) <=? pos l then (eof, set_width l 0)
  else
    let '(r, w) := utf8.DecodeRuneInString (data_of l) in
    let l := set_width l w in
    let l := set_pos l (pos l + width l) in
    let l := if r =? LF then set_line l (line l + 1) else l in
    (r, l).

(** [peek] *)
Definition peek (l : lexer) : Z :=
  match range_str (data_of l) with
  | (_, r) :: _ => r
  | [] => eof
  end.

(** [backup] *)
Definition backup (l : lexer) : lexer :=
  let l := set_pos l (pos l - width l) in
  if (width l =? 1) && (byte_at (input l) (pos l) =? LF)
  then set_line l (line l - 1)
  else l.

(** [emit] *)
Definition emit (t : itemType) (l : lexer) : item * lexer :=
  let ret :=
    Item.mk t (start l) (Text (slice (input l) (start l) (pos l)))
            (startLine l) true in
  let l := set_start l (pos l) in
  let l := set_startLine l (line l) in
  (ret, l).

(** [accept] *)
Definition accept (valid : string) (l : lexer) : bool * lexer :=
  let '(r, l) := next l in
  if ContainsRune valid r then (true, l) else (false, backup l).

(** The loop of [acceptRun], [for strings.ContainsRune(valid, l.next()) {}].
    [fuel] is the number of bytes left, which bounds the iterations: see
    [acceptRun_unfold]. *)
Fixpoint acceptRun_loop (fuel : nat) (valid : string) (l : lexer) : lexer :=
  let '(r, l1) := next l in
  if ContainsRune valid r then
    match fuel with
    | O => l1
    | S fuel' => acceptRun_loop fuel' valid l1
    end
  else l1.

Definition remaining (l : lexer) : nat := Z.to_nat (len (input l) - pos l).

(** [acceptRun] *)
Definition acceptRun (valid : string) (l : lexer) : lexer :=
  backup (acceptRun_loop (remaining l) valid l).

(** [errorf] *)
Definition errorf (l : lexer) (format : string) (args : list fmtArg) : item :=
  Item.mk itemError (start l) (Sprintf format args) (startLine l) true.

(** [atTerminator] *)
Definition atTerminator (l : lexer) : bool :=
  if len (input l) <=? pos l then true
  else
    let c := byte_at (input l) (pos l) in
    (c =? rune ".") || (c =? rune ",") || (c =? rune "|") || (c =? rune ":")
    || (c =? rune ")") || (c =? rune "(") || (c =? SP) || (c =? TAB)
    || (c =? CR) || (c =? LF) || (c =? rune ";").

(** [lex] *)
Definition lex (name : string) (input : list ascii) (emitComment : bool)
  : lexer :=
  mkLexer name input emitComment 0 0 0 0 1 1 (Some StWhitespace).

(** The methods of the lexer that return a value and mutate the lexer, as
    state passing: [bind] runs one after the other on the lexer the first
    leaves. *)
Definition M (A : Type) : Type := lexer -> A * lexer.

Definition ret {A : Type} (a : A) : M A := fun l => (a, l).

Definition bind {A B : Type} (m : M A) (f : A -> M B) : M B :=
  fun l => let '(a, l') := m l in f a l'.

(** A method that returns nothing. *)
Definition call (f : lexer -> lexer) : M unit := fun l => (tt, f l).

(** A method that only reads the lexer. *)
Definition get {A : Type} (f : lexer -> A) : M A := fun l => (f l, l).

Notation "x <- m ;; k" := (bind m (fun x => k))
  (at level 61, m at next level, right associativity).
Notation "' pat <- m ;; k" := (bind m (fun x => let 'pat := x in k))
  (at level 61, pat pattern, m at next level, right associativity).

(** A word of the source compared with a string literal. *)
Definition eqs (w : list ascii) (s : string) : bool :=
  String.eqb (string_of_list_ascii w) s.

Definition isSpaceTabCR (r : Z) : bool := (r =? SP) || (r =? TAB) || (r =? CR).

(** How the loops of [lexChar] and [lexQuote] end: at [goto ERR], at
    [break Loop] with [hasEnd] set and the index [i], or at the end of the
    data. *)
Inductive quoteScan : Set :=
| ScanErr
| ScanEnd (i : Z)
| ScanNoEnd.

Section Lexer.

Variable T : Tables.

(** [isAlphaNumeric] *)
Definition isAlphaNumeric (r : Z) : bool :=
  (r =? rune "_") || unicode.IsLetter T r || unicode.IsDigit T r.

(** [scanNumber] *)
Definition scanNumber : M bool :=
  (* Optional leading sign. *)
  _ <- accept "+-" ;;
  (* Is it hex? *)
  let digits := "0123456789_"%string in
  zero <- accept "0" ;;
  digits <- (if zero then
               (* Note: Leading 0 does not mean octal in floats. *)
               x <- accept "xX" ;;
               if x then ret "0123456789abcdefABCDEF_"%string
               else
                 o <- accept "oO" ;;
                 if o then ret "01234567_"%string
                 else
                   b <- accept "bB" ;;
                   if b then ret "01_"%string else ret digits
             else ret digits) ;;
  _ <- call (acceptRun digits) ;;
  dot <- accept "." ;;
  _ <- (if dot then call (acceptRun digits) else ret tt) ;;
  _ <- (if (String.length digits =? 10 + 1)%nat then
          e <- accept "eE" ;;
          if e then
            _ <- accept "+-" ;;
            call (acceptRun "0123456789_")
          else ret tt
        else ret tt) ;;
  _ <- (if (String.length digits =? 16 + 6 + 1)%nat then
          p <- accept "pP" ;;
          if p then
            _ <- accept "+-" ;;
            call (acceptRun "0123456789_")
          else ret tt
        else ret tt) ;;
  (* Is it imaginary? *)
  _ <- accept "i" ;;
  (* Next thing mustn't be alphanumeric. *)
  r <- get peek ;;
  if isAlphaNumeric r then
    _ <- next ;;
    ret false
  else ret true.

Definition badNumber (l : lexer) : result :=
  (errorf l "bad number syntax: %q"
          [ArgString (slice (input l) (start l) (pos l))], None, l).

(** [lexNumber] *)
Definition lexNumber (l : lexer) : result :=
  let '(ok, l) := scanNumber l in
  if negb ok then badNumber l
  else
    let sign := peek l in
    if (sign =? rune "+") || (sign =? rune "-") then
      (* Complex: 1+2i. No spaces, must end in 'i'. *)
      let '(ok, l) := scanNumber l in
      if negb ok || negb (byte_at (input l) (pos l - 1) =? rune "i")
      then badNumber l
      else let '(ret, l) := emit itemComplex l in (ret, Some StInsideAction, l)
    else let '(ret, l) := emit itemNumber l in (ret, Some StInsideAction, l).

(** The loop of [lexIdentifier] and of [lexFieldOrVariable]:
    [for i, r = range data { if !isAlphaNumeric(r) { break } }]. *)
Fixpoint alnum_loop (rs : list (Z * Z)) (i r : Z) : Z * Z :=
  match rs with
  | [] => (i, r)
  | (i', r') :: rs' =>
      if negb (isAlphaNumeric r') then (i', r') else alnum_loop rs' i' r'
  end.

(** The loop with the adjustment of [i] and the width that follows it in
    both functions; returns [i], [r] and the new width. *)
Definition scanAlphaNumeric (data : list ascii) : Z * Z * Z :=
  let '(i, r) := alnum_loop (range_str data) 0 0 in
  if isAlphaNumeric r then (len data, r, utf8.RuneLen r)
  else (i, r, snd (utf8.DecodeLastRuneInString (slice_to data i))).

(** [lexIdentifier] *)
Definition lexIdentifier (l : lexer) : result :=
  let data := data_of l in
  let '(i, r, w) := scanAlphaNumeric data in
  let l := set_width l w in
  let l := set_pos l (pos l + i) in
  if negb (atTerminator l) then
    (errorf l "bad character %#U" [ArgRune r], None, l)
  else
    let word := slice_to data i in
    let typ :=
      if eqs word "." then itemDot
      else if eqs word "block" then itemBlock
      else if eqs word "break" then itemBreak
      else if eqs word "continue" then itemContinue
      else if eqs word "define" then itemDefine
      else if eqs word "else" then itemElse
      else if eqs word "end" then itemEnd
      else if eqs word "if" then itemIf
      else if eqs word "range" then itemRange
      else if eqs word "nil" then itemNil
      else if eqs word "template" then itemTemplate
      else if eqs word "with" then itemWith
      else if eqs word "true" || eqs word "false" then itemBool
      else if byte_at data 0 =? rune "." then itemField
      else itemIdentifier in
    let '(ret, l) := emit typ l in (ret, Some StInsideAction, l).

(** [lexFieldOrVariable] *)
Definition lexFieldOrVariable (l : lexer) (typ : itemType) : result :=
  if atTerminator l then
    if is_typ typ itemVariable then
      let '(ret, l) := emit itemVariable l in (ret, Some StInsideAction, l)
    else
      let '(ret, l) := emit itemDot l in (ret, Some StInsideAction, l)
  else
    let data := data_of l in
    let '(i, r, w) := scanAlphaNumeric data in
    let l := set_width l w in
    let l := set_pos l (pos l + i) in
    if negb (atTerminator l) then
      (errorf l "bad character %#U" [ArgRune r], None, l)
    else let '(ret, l) := emit typ l in (ret, Some StInsideAction, l).

(** [lexField] *)
Definition lexField (l : lexer) : result := lexFieldOrVariable l itemField.

(** [lexVariable] *)
Definition lexVariable (l : lexer) : result :=
  if atTerminator l then
    let '(ret, l) := emit itemVariable l in (ret, Some StInsideAction, l)
  else lexFieldOrVariable l itemVariable.

(** The loop of [lexChar]. *)
Fixpoint lexChar_loop (data : list ascii) (rs : list (Z * Z)) : quoteScan :=
  match rs with
  | [] => ScanNoEnd
  | (i, r) :: rs' =>
      if r =? BACKSLASH then
        if negb (i =? len data - 1) && negb (byte_at data (i + 1) =? LF)
        then lexChar_loop data rs'
        else ScanErr
      else if (r =? eof) || (r =? LF) then ScanErr
      else if r =? SQUOTE then
        if (i =? 1) && (byte_at data 0 =? BACKSLASH)
        then lexChar_loop data rs'
        else ScanEnd i
      else lexChar_loop data rs'
  end.

(** [lexChar] *)
Definition lexChar (l : lexer) : result :=
  let data := data_of l in
  match lexChar_loop data (range_str data) with
  | ScanEnd i =>
      let l := set_width l 1 in
      let l := set_pos l (pos l + (i + 1)) in
      let '(ret, l) := emit itemCharConstant l in
      (ret, Some StInsideAction, l)
  | _ => (errorf l "unterminated character constant" [], None, l)
  end.

(** The loop of [lexQuote]. *)
Fixpoint lexQuote_loop (data : list ascii) (rs : list (Z * Z)) : quoteScan :=
  match rs with
  | [] => ScanNoEnd
  | (i, r) :: rs' =>
      if r =? BACKSLASH then
        if negb (i =? len data - 1) && negb (byte_at data (i + 1) =? LF)
        then lexQuote_loop data rs'
        else ScanErr
      else if (r =? eof) || (r =? LF) then ScanErr
      else if r =? DQUOTE then
        if negb (i =? 0) && (byte_at data (i - 1) =? BACKSLASH)
        then lexQuote_loop data rs'
        else ScanEnd i
      else lexQuote_loop data rs'
  end.

(** [lexQuote] *)
Definition lexQuote (l : lexer) : result :=
  let data := data_of l in
  match lexQuote_loop data (range_str data) with
  | ScanEnd i =>
      let l := set_width l 1 in
      let l := set_pos l (pos l + (i + 1)) in
      let '(ret, l) := emit itemString l in
      (ret, Some StInsideAction, l)
  | _ => (errorf l "unterminated quoted string" [], None, l)
  end.

(** The loop of [lexRawQuote]; returns [hasEnd], [i] and [l.line]. *)
Fixpoint lexRawQuote_loop (rs : list (Z * Z)) (i line : Z) : bool * Z * Z :=
  match rs with
  | [] => (false, i, line)
  | (i', r') :: rs' =>
      if r' =? LF then lexRawQuote_loop rs' i' (line + 1)
      else if r' =? BQUOTE then (true, i', line)
      else lexRawQuote_loop rs' i' line
  end.

(** [lexRawQuote] *)
Definition lexRawQuote (l : lexer) : result :=
  let '(hasEnd, i, ln) := lexRawQuote_loop (range_str (data_of l)) 0 (line l) in
  let l := set_line l ln in
  if negb hasEnd then
    (errorf l "unterminated raw quoted string" [], None, l)
  else
    let l := set_width l 1 in
    let l := set_pos l (pos l + (i + 1)) in
    let '(ret, l) := emit itemRawString l in
    (ret, Some StInsideAction, l).

(** [lexComment] *)
Definition lexComment (l : lexer) : result :=
  let i := IndexByte (data_of l) LF in
  let l :=
    if i <? 0 then set_pos l (len (input l))
    else
      let l := set_width l 1 in
      let l := set_pos l (pos l + (i + 1)) in
      set_line l (line l + 1) in
  if emitComment l then
    let '(ret, l) := emit itemComment l in
    let ret :=
      Item.mk (Item.typ ret) (Item.pos ret + 1)
              (match Item.val ret with
               | Text s => Text (slice_from s 1)   (* trim '#' *)
               | v => v
               end)
              (Item.line ret) (Item.notEmpty ret) in
    (ret, Some StWhitespace, l)
  else
    let l := set_start l (pos l) in
    let l := set_startLine l (line l) in
    (Item.zero, Some StWhitespace, l).

(** The loop of [lexWhitespace]; returns [i], [r] and [l.line]. *)
Fixpoint lexWhitespace_loop (rs : list (Z * Z)) (i r line : Z) : Z * Z * Z :=
  match rs with
  | [] => (i, r, line)
  | (i', r') :: rs' =>
      if isSpaceTabCR r' then lexWhitespace_loop rs' i' r' line
      else if r' =? LF then lexWhitespace_loop rs' i' r' (line + 1)
      else (i', r', line)
  end.

(** [lexWhitespace] *)
Definition lexWhitespace (l : lexer) : result :=
  let '(i, r, ln) := lexWhitespace_loop (range_str (data_of l)) 0 eof (line l) in
  let l := set_line l ln in
  let l :=
    if r =? eof then set_width l 0
    else if negb (i =? 0) then set_width (set_pos l (pos l + i)) 1
    else l in
  let l := set_start l (pos l) in
  let l := set_startLine l (line l) in
  if isSpaceTabCR r || (r =? LF) || (r =? eof) then
    (* when r end up being whitespace, we MUST have reached EOF *)
    let '(ret, l) := emit itemEOF l in (ret, None, l)
  else if r =? rune "#" then lexComment l
  else let '(ret, l) := emit itemLeftDelim l in (ret, Some StInsideAction, l).

(** The body of [lexInsideAction]; [space] stands for its call of
    [lexInActionSpace]. *)
Definition lexInsideAction_body (space : lexer -> result) (l : lexer)
  : result :=
  let data := data_of l in
  if len data =? 0 then
    if 0 <? parenDepth l then
      (errorf l "unclosed left paren" [], None, l)
    else
      (* schedule lexWhitespace as next to emit EOF *)
      let '(ret, l) := emit itemRightDelim l in (ret, Some StWhitespace, l)
  else
    let '(i, r) := match range_str data with p :: _ => p | [] => (0, 0) end in
    (* fast path for identifiers and constants (template funcs) *)
    if (rune "0" <=? r) && (r <=? rune "9") then lexNumber l
    else if isAlphaNumeric r then lexIdentifier l
    else if (r =? SP) || (r =? LF) || (r =? TAB) || (r =? CR) then space l
    else if r =? rune "." then
      if i =? len data - 1 then
        (* at the end of the input *)
        let l := set_width l 1 in
        let l := set_pos l (pos l + 1) in
        let '(ret, l) := emit itemDot l in (ret, Some StInsideAction, l)
      else if (byte_at data (i + 1) <? rune "0")
              || (rune "9" <? byte_at data (i + 1)) then
        let l := set_width l 1 in
        let l := set_pos l (pos l + 1) in
        lexField l
      else
        (* .[0-9] *)
        lexNumber l
    else if r =? rune "|" then
      let l := set_width l 1 in
      let l := set_pos l (pos l + 1) in
      let '(ret, l) := emit itemPipe l in (ret, Some StInsideAction, l)
    else if r =? rune "=" then
      let l := set_width l 1 in
      let l := set_pos l (pos l + 1) in
      let '(ret, l) := emit itemAssign l in (ret, Some StInsideAction, l)
    else if r =? rune ":" then
      if (i =? len data - 1) || negb (byte_at data (i + 1) =? rune "=") then
        (errorf l "expected :=" [], None, l)
      else
        let l := set_width l 1 in
        let l := set_pos l (pos l + 2) in
        let '(ret, l) := emit itemDeclare l in (ret, Some StInsideAction, l)
    else if r =? DQUOTE then
      let l := set_width l 1 in
      let l := set_pos l (pos l + 1) in
      lexQuote l
    else if r =? BQUOTE then
      let l := set_width l 1 in
      let l := set_pos l (pos l + 1) in
      lexRawQuote l
    else if r =? rune "$" then
      let l := set_width l 1 in
      let l := set_pos l (pos l + 1) in
      lexVariable l
    else if r =? SQUOTE then
      let l := set_width l 1 in
      let l := set_pos l (pos l + 1) in
      lexChar l
    else if r =? rune "(" then
      let l := set_width l 1 in
      let l := set_pos l (pos l + 1) in
      let '(ret, l) := emit itemLeftParen l in
      let l := set_parenDepth l (parenDepth l + 1) in
      (ret, Some StInsideAction, l)
    else if r =? rune ")" then
      let l := set_width l 1 in
      let l := set_pos l (pos l + 1) in
      let '(ret, l) := emit itemRightParen l in
      let l := set_parenDepth l (parenDepth l - 1) in
      if parenDepth l <? 0 then
        (errorf l "unexpected right paren %#U" [ArgRune r], None, l)
      else (ret, Some StInsideAction, l)
    else if (r =? rune "+") || (r =? rune "-") then lexNumber l
    else if r =? rune ";" then
      let l := set_width l 1 in
      let l := set_pos l (pos l + 1) in
      let l := set_start l (pos l) in
      let '(ret, l) := emit itemRightDelim l in (ret, Some StWhitespace, l)
    else if (r <=? unicode.MaxASCII) && unicode.IsPrint T r then
      (* punctuations *)
      let l := set_width l 1 in  (* ascii *)
      let l := set_pos l (pos l + 1) in
      let '(ret, l) := emit itemChar l in (ret, Some StInActionSpace, l)
    else
      (errorf l "unrecognized character in action: %#U" [ArgRune r], None, l).

(** The variables the loop of [lexInActionSpace] assigns. *)
Record spaceScan : Set := mkSpaceScan {
  sc_i : Z;
  sc_r : Z;
  sc_line : Z;
  sc_hasInlineBackslash : bool;
  sc_emitRightDelim : bool
}.

(** The loop of [lexInActionSpace]. *)
Fixpoint lexInActionSpace_loop (rs : list (Z * Z)) (s : spaceScan)
  : spaceScan :=
  match rs with
  | [] => s
  | (i, r) :: rs' =>
      if isSpaceTabCR r then
        lexInActionSpace_loop rs'
          (mkSpaceScan i r (sc_line s) (sc_hasInlineBackslash s)
                       (sc_emitRightDelim s))
      else if r =? LF then
        if sc_hasInlineBackslash s then
          (* when we have backslash as last non-whitespace char in this
             line the action continues *)
          lexInActionSpace_loop rs'
            (mkSpaceScan i r (sc_line s + 1) false (sc_emitRightDelim s))
        else
          (* consume this newline *)
          mkSpaceScan (i + 1) r (sc_line s + 1) false true
      else if r =? BACKSLASH then
        lexInActionSpace_loop rs'
          (mkSpaceScan i r (sc_line s) true (sc_emitRightDelim s))
      else
        mkSpaceScan i r (sc_line s) (sc_hasInlineBackslash s)
                    (sc_emitRightDelim s)
  end.

(** The body of [lexInActionSpace]; [inside] stands for its call of
    [lexInsideAction]. *)
Definition lexInActionSpace_body (inside : lexer -> result) (l : lexer)
  : result :=
  let s := lexInActionSpace_loop (range_str (data_of l))
             (mkSpaceScan 0 eof (line l) false false) in
  let i := sc_i s in
  let r := sc_r s in
  let l := set_line l (sc_line s) in
  let l := set_width l 1 in  (* all whitespaces are 1 byte in width *)
  let l := set_pos l (pos l + i) in
  let rightDelim (l : lexer) : result :=
    let l := set_start l (pos l) in
    let l := set_startLine l (line l) in
    let '(ret, l) := emit itemRightDelim l in (ret, Some StWhitespace, l) in
  let finish (l : lexer) (emitRightDelim : bool) : result :=
    if emitRightDelim then rightDelim l
    else if i =? 0 then inside l
    else let '(ret, l) := emit itemSpace l in (ret, Some StInsideAction, l) in
  if isSpaceTabCR r then
    let l := set_pos l (pos l + 1) in
    (* fallthrough *)
    finish l (sc_emitRightDelim s || (len (input l) <=? pos l))
  else if r =? LF then
    finish l (sc_emitRightDelim s || (len (input l) <=? pos l))
  else if r =? rune ";" then
    let l := set_pos l (pos l + 1) in  (* include this one *)
    finish l true
  else if r =? rune "#" then
    finish l true
  else if r =? eof then
    let l := set_width l 0 in
    let l := set_start l (pos l) in
    let l := set_startLine l (line l) in
    let '(ret, l) := emit itemEOF l in (ret, None, l)
  else finish l (sc_emitRightDelim s).

(** The two functions call each other.  [lexInsideAction] calls
    [lexInActionSpace] only on a space, tab, CR or LF, where
    [lexInActionSpace] does not call back: the recursion is two calls deep,
    and is tied here by unfolding it twice.  [lexInsideAction_unfold] and
    [lexInActionSpace_unfold] below state that the definitions satisfy the
    equations of the source. *)
Definition lexInsideAction (l : lexer) : result :=
  lexInsideAction_body
    (lexInActionSpace_body
       (fun l => (errorf l "lexInsideAction re-entered" [], None, l)))
    l.

Definition lexInActionSpace (l : lexer) : result :=
  lexInActionSpace_body lexInsideAction l.

(** The call [l.nextState(l)]. *)
Definition run_state (st : stateFn) (l : lexer) : result :=
  match st with
  | StWhitespace => lexWhitespace l
  | StInsideAction => lexInsideAction l
  | StInActionSpace => lexInActionSpace l
  end.

(** The loop of [nextItem].  It goes round again only after a comment that
    is not emitted, which consumes input: [fuel] bounds the iterations by
    the bytes left (see [nextItem_unfold]). *)
Fixpoint nextItem_loop (fuel : nat) (l : lexer) : item * lexer :=
  match nextState l with
  | None =>
      (* fake EOF *)
      emit itemEOF l
  | Some st =>
      let '(ret, nxt, l) := run_state st l in
      let l := set_nextState l nxt in
      match nxt with
      | None =>
          (* is the last state, return unconditionally *)
          (ret, l)
      | Some _ =>
          if Item.notEmpty ret then (ret, l)   (* got a meaningful item *)
          else
            (* empty item, scan next *)
            match fuel with
            | O => (ret, l)
            | S fuel' => nextItem_loop fuel' l
            end
      end
  end.

(** [nextItem] *)
Definition nextItem (l : lexer) : item * lexer :=
  nextItem_loop (remaining l) l.

(** The first [n] items of the lexer: [n] calls of [nextItem]. *)
Fixpoint items (n : nat) (l : lexer) : list item :=
  match n with
  | O => []
  | S n' => let '(it, l') := nextItem l in it :: items n' l'
  end.

(** The lexer after [n] calls of [nextItem]. *)
Fixpoint after (n : nat) (l : lexer) : lexer :=
  match n with
  | O => l
  | S n' => after n' (snd (nextItem l))
  end.

End Lexer.

(** The items of an input as the test of the source collects them
    ([collect] of [lex_test.go]): up to and including the first [itemEOF]
    or [itemError], within [n] calls. *)
Fixpoint collect_from (T : Tables) (n : nat) (l : lexer) : list item :=
  match n with
  | O => []
  | S n' =>
      let '(it, l') := nextItem T l in
      if is_typ (Item.typ it) itemEOF || is_typ (Item.typ it) itemError
      then [it]
      else it :: collect_from T n' l'
  end.

(** What the tests of the source compare: the type and the value. *)
Definition tv (it : item) : itemType * text := (Item.typ it, Item.val it).

Definition lex_tv (T : Tables) (input : list ascii) : list (itemType * text) :=
  map tv (collect_from T (3 * List.length input + 4) (lex "t" input true)).

Definition tx (s : string) : text := Text (lit s).

(* ================================================================= *)
(** ** The lazy value ([lazy.go]) *)

(** [GetLazyValue] is run by any number of goroutines.  Its accesses to
    [initialized] and [writing] are calls of [sync/atomic], which Go orders
    in one sequence consistent with each goroutine's program order; the
    accesses to [value] are ordered by them.  The model is the interleaving
    of the goroutines' steps, one step per access to the shared value, under
    an arbitrary schedule. *)
Module Lazy.

(** [int32] arithmetic of [atomic.AddInt32]. *)
Definition wrap32 (x : Z) : Z := (x + 2 ^ 31) mod 2 ^ 32 - 2 ^ 31.

Section LazyValue.

Variable V : Type.

(** [LazyValue[T]].  [Create] may return a different value each time it is
    called: [Create k] is what its call number [k] returns. *)
Record LazyValue : Type := mkLazyValue {
  initialized : Z;
  writing : Z;
  Create : nat -> V;
  value : V
}.

(** Where a call of [GetLazyValue] stands. *)
Inductive pc : Type :=
| pcEnter               (* before atomic.AddInt32(&v.writing, 1) *)
| pcCAS                 (* before atomic.CompareAndSwapInt32(&v.initialized, 0, 1) *)
| pcCallCreate          (* writer: before the call v.Create() *)
| pcInCreate (k : nat)  (* writer: inside call number k of v.Create() *)
| pcStore (x : V)       (* writer: Create returned x, before v.value = x *)
| pcWriterDec           (* writer: before atomic.AddInt32(&v.writing, -1) *)
| pcReaderDec           (* reader: before atomic.AddInt32(&v.writing, -1) *)
| pcSpin                (* reader: before atomic.LoadInt32(&v.writing) *)
| pcReturn              (* before the read of v.value in return v.value *)
| pcDone (x : V).       (* returned x *)

(** The shared value, the number of calls of [Create] begun and completed
    so far, and the callers. *)
Record world : Type := mkWorld {
  lv : LazyValue;
  called : nat;
  completed : nat;
  callers : list pc
}.

Definition set_initialized (v : LazyValue) (x : Z) : LazyValue :=
  mkLazyValue x (writing v) (Create v) (value v).
Definition set_writing (v : LazyValue) (x : Z) : LazyValue :=
  mkLazyValue (initialized v) x (Create v) (value v).
Definition set_value (v : LazyValue) (x : V) : LazyValue :=
  mkLazyValue (initialized v) (writing v) (Create v) x.

(** One step of a caller at [p]: the shared value and the two counters
    after it, and where the caller stands then. *)
Definition caller_step (v : LazyValue) (nc nr : nat) (p : pc)
  : LazyValue * nat * nat * pc :=
  match p with
  | pcEnter => (set_writing v (wrap32 (writing v + 1)), nc, nr, pcCAS)
  | pcCAS =>
      if initialized v =? 0
      then (set_initialized v 1, nc, nr, pcCallCreate)   (* I'm a writer *)
      else (v, nc, nr, pcReaderDec)
  | pcCallCreate => (v, S nc, nr, pcInCreate nc)
  | pcInCreate k => (v, nc, S nr, pcStore (Create v k))
  | pcStore x => (set_value v x, nc, nr, pcWriterDec)
  | pcWriterDec => (set_writing v (wrap32 (writing v - 1)), nc, nr, pcReturn)
  | pcReaderDec => (set_writing v (wrap32 (writing v - 1)), nc, nr, pcSpin)
  | pcSpin =>
      (* I'm just a reader, wait until there is no writer *)
      if writing v =? 0 then (v, nc, nr, pcReturn)
      else (v, nc, nr, pcSpin)                            (* runtime.Gosched() *)
  | pcReturn => (v, nc, nr, pcDone (value v))
  | pcDone x => (v, nc, nr, pcDone x)
  end.

Fixpoint update (i : nat) (p : pc) (ps : list pc) : list pc :=
  match ps, i with
  | [], _ => []
  | _ :: ps', O => p :: ps'
  | q :: ps', S i' => q :: update i' p ps'
  end.

(** Caller number [i] takes its next step (nothing happens when there is
    no such caller). *)
Definition step (w : world) (i : nat) : world :=
  match nth_error (callers w) i with
  | None => w
  | Some p =>
      let '(v, nc, nr, p') := caller_step (lv w) (called w) (completed w) p in
      mkWorld v nc nr (update i p' (callers w))
  end.

(** A schedule is the list of the callers that step, in order. *)
Definition run (schedule : list nat) (w : world) : world :=
  fold_left step schedule w.

(** [n] callers about to call [GetLazyValue] on [&LazyValue{Create: create}]. *)
Definition init (create : nat -> V) (zero : V) (n : nat) : world :=
  mkWorld (mkLazyValue 0 0 create zero) 0 0 (repeat pcEnter n).

End LazyValue.

Arguments pcEnter {V}.
Arguments pcCAS {V}.
Arguments pcCallCreate {V}.
Arguments pcInCreate {V} k.
Arguments pcStore {V} x.
Arguments pcWriterDec {V}.
Arguments pcReaderDec {V}.
Arguments pcSpin {V}.
Arguments pcReturn {V}.
Arguments pcDone {V} x.
Arguments mkLazyValue {V}.
Arguments initialized {V}.
Arguments writing {V}.
Arguments Create {V}.
Arguments value {V}.
Arguments mkWorld {V}.
Arguments lv {V}.
Arguments called {V}.
Arguments completed {V}.
Arguments callers {V}.
Arguments set_initialized {V}.
Arguments set_writing {V}.
Arguments set_value {V}.
Arguments caller_step {V}.
Arguments update {V}.
Arguments step {V}.
Arguments run {V}.
Arguments init {V}.

End Lazy.

(* ================================================================= *)
(** * The vocabulary of the properties *)

(** The predicates the properties are stated with, the lexers the state
    functions leave, written out, and the inputs of the examples. *)

(* ================================================================= *)
(** ** Items and results *)

(** A byte that is not ASCII. *)
Definition high (b : ascii) : Prop := 0x80 <= b2z b.

(** The types of the items that delimit actions, end the stream or carry
    a comment; the others are the tokens of an action. *)
Definition is_token (t : itemType) : bool :=
  match t with
  | itemError | itemEOF | itemLeftDelim | itemRightDelim | itemComment => false
  | _ => true
  end.

(** A result of a function that scans one token: the token and
    [lexInsideAction], or an error and [nil]. *)
Definition token_result (res : result) : Prop :=
  let '(it, nxt, _) := res in
  Item.notEmpty it = true /\
  ((Item.typ it = itemError /\ nxt = None) \/
   (is_token (Item.typ it) = true /\ nxt = Some StInsideAction)).

(** A result of [lexInsideAction] or [lexInActionSpace]. *)
Definition action_result (res : result) : Prop :=
  let '(it, nxt, _) := res in
  Item.notEmpty it = true /\
  match nxt with
  | None => Item.typ it = itemError \/ Item.typ it = itemEOF
  | Some StWhitespace => Item.typ it = itemRightDelim
  | Some _ => is_token (Item.typ it) = true
  end.

(** A result of [lexWhitespace]. *)
Definition whitespace_result (res : result) : Prop :=
  let '(it, nxt, _) := res in
  match nxt with
  | None => Item.typ it = itemEOF /\ Item.notEmpty it = true
  | Some StInsideAction => Item.typ it = itemLeftDelim /\ Item.notEmpty it = true
  | Some StWhitespace =>
      (Item.typ it = itemComment /\ Item.notEmpty it = true) \/ it = Item.zero
  | Some StInActionSpace => False
  end.

(** What [nextItem] returns from the state [st], with the state [st'] it
    leaves: the type of the item fixes the next state. *)
Definition step_ok (st : option stateFn) (it : item) (st' : option stateFn)
  : Prop :=
  Item.notEmpty it = true /\
  match st with
  | None => Item.typ it = itemEOF /\ st' = None
  | Some StWhitespace =>
      (Item.typ it = itemEOF /\ st' = None) \/
      (Item.typ it = itemLeftDelim /\ st' = Some StInsideAction) \/
      (Item.typ it = itemComment /\ st' = Some StWhitespace)
  | Some _ =>
      ((Item.typ it = itemError \/ Item.typ it = itemEOF) /\ st' = None) \/
      (Item.typ it = itemRightDelim /\ st' = Some StWhitespace) \/
      (is_token (Item.typ it) = true /\
       (st' = Some StInsideAction \/ st' = Some StInActionSpace))
  end.

(** The line feed and the backslash. *)
Definition nl : ascii := "010"%char.
Definition bslash : ascii := "092"%char.

(** [m] keeps [P]. *)
Definition preserves {A : Type} (P : lexer -> Prop) (m : M A) : Prop :=
  forall l, P l -> P (snd (m l)).

(** The position of the lexer is not negative. *)
Definition pos_nonneg (l : lexer) : Prop := 0 <= pos l.

(** The lexer a state function leaves has a position that is not
    negative. *)
Definition result_pos (res : result) : Prop := pos_nonneg (snd res).

(** [itemLeftDelim] and [itemRightDelim] alternate in [ts]; the next one
    expected is a left delimiter when [expectLeft] is set. *)
Fixpoint alternates (expectLeft : bool) (ts : list itemType) : bool :=
  match ts with
  | [] => true
  | t :: ts' =>
      if is_typ t itemLeftDelim then expectLeft && alternates false ts'
      else if is_typ t itemRightDelim then
        negb expectLeft && alternates true ts'
      else alternates expectLeft ts'
  end.

(** The types of identifiers, of keywords (with the constants [true] and
    [false], which are scanned as keywords), of fields and of variables. *)
Definition is_name (t : itemType) : bool :=
  match t with
  | itemIdentifier | itemField | itemVariable | itemBool
  | itemBlock | itemBreak | itemContinue | itemDot | itemDefine | itemElse
  | itemEnd | itemIf | itemNil | itemRange | itemTemplate | itemWith => true
  | _ => false
  end.

(** The item is the input from its position to the position of the
    lexer. *)
Definition spans (it : item) (l : lexer) : Prop :=
  Item.val it = Text (slice (input l) (Item.pos it) (pos l)).

(** A name in a result is followed by a terminator or the end of the
    input. *)
Definition name_ok (res : result) : Prop :=
  let '(it, _, l') := res in
  is_name (Item.typ it) = true -> atTerminator l' = true /\ spans it l'.

(** [Q] holds of what [m] returns and of the lexer it leaves. *)
Definition ensures {A : Type} (m : M A) (Q : A -> lexer -> Prop) : Prop :=
  forall l, Q (fst (m l)) (snd (m l)).

(** [k] bytes are left to pass of a rune above ASCII. *)
Definition skip_ok (k : nat) (s : list ascii) : Prop :=
  (k <= List.length s)%nat /\ Forall high (firstn k s).

(* ================================================================= *)
(** ** Raw strings, newlines and comments *)

Definition bquote : ascii := "`"%char.

(** A space, a tab or a CR. *)
Definition is_blank (c : ascii) : Prop := isSpaceTabCR (b2z c) = true.

(** The lexer after the right delimiter that ends an action at [p], on the
    line [ln]. *)
Definition right_delim_at (l : lexer) (p ln : Z) : lexer :=
  mkLexer (name l) (input l) (emitComment l) p p 1 (parenDepth l) ln ln
          (nextState l).



(** The number of LF bytes of [s]. *)
Definition count_lf (s : list ascii) : Z :=
  len (filter (fun c => b2z c =? LF) s).



(* ================================================================= *)
(** ** The items and the inputs of [lex_test.go] *)

Definition dquote : ascii := "034"%char.
Definition tab : ascii := "009"%char.

Definition tEOF : itemType * text := (itemEOF, tx "").
Definition tLeft : itemType * text := (itemLeftDelim, tx "").
Definition tRight : itemType * text := (itemRightDelim, tx "").
Definition tSpace : itemType * text := (itemSpace, tx " ").
Definition tLpar : itemType * text := (itemLeftParen, tx "(").
Definition tRpar : itemType * text := (itemRightParen, tx ")").
Definition tPipe : itemType * text := (itemPipe, tx "|").

Definition tError (format : string) (args : list fmtArg) : itemType * text :=
  (itemError, Sprintf format args).

(** The Go literal of the test holds the two characters backslash and [n],
    not a line feed. *)
Definition quoted : list ascii :=
  dquote :: lit "abc " ++ bslash :: lit "n" ++ bslash :: lit "t" ++
  bslash :: dquote :: lit " " ++ [dquote].

Definition raw : list ascii :=
  lit "`abc" ++ bslash :: lit "n" ++ bslash :: lit "t" ++
  bslash :: dquote :: lit " `".

Definition rawNL : list ascii := lit "`now is{{" ++ nl :: lit "}}the time`".

(** The type, the position and the line of an item. *)
Definition tpl (it : item) : itemType * Z * Z :=
  (Item.typ it, Item.pos it, Item.line it).

(* ================================================================= *)
(** ** The lazy value *)

(** Three callers; the second wins the compare-and-swap, the first spins
    once while the constructor runs; all three return call 0's value. *)
Definition three_callers : list nat :=
  [0; 1; 2; 1; 0; 0; 0; 1; 1; 2; 1; 2; 0; 1; 2; 0; 1; 2; 0; 2]%nat.

(** The invariant of the lazy value: [create] is the constructor the value
    was made with. *)
Section LazyValueInvariant.

Import Lazy.

Variable V : Type.
Variable create : nat -> V.

(** The callers between their two calls of [atomic.AddInt32]: each of them
    counts for one in [writing]. *)
Definition counted (p : pc V) : bool :=
  match p with
  | pcCAS | pcCallCreate | pcInCreate _ | pcStore _ | pcWriterDec
  | pcReaderDec => true
  | _ => false
  end.

(** The caller that won the compare-and-swap, until it has decremented
    [writing]. *)
Definition is_writer (p : pc V) : bool :=
  match p with
  | pcCallCreate | pcInCreate _ | pcStore _ | pcWriterDec => true
  | _ => false
  end.

(** The number of callers that stand where [f] holds. *)
Definition cnt (f : pc V -> bool) (ps : list (pc V)) : Z :=
  Z.of_nat (List.length (filter f ps)).

(** What holds of the shared value where a caller stands. *)
Definition local (v : LazyValue V) (nc nr : nat) (p : pc V) : Prop :=
  match p with
  | pcEnter | pcCAS => True
  | pcCallCreate => initialized v = 1 /\ nc = 0%nat /\ nr = 0%nat
  | pcInCreate k => initialized v = 1 /\ k = 0%nat /\ nc = 1%nat /\ nr = 0%nat
  | pcStore x =>
      initialized v = 1 /\ x = create 0%nat /\ nc = 1%nat /\ nr = 1%nat
  | pcWriterDec | pcReturn =>
      initialized v = 1 /\ value v = create 0%nat /\ nc = 1%nat /\ nr = 1%nat
  | pcReaderDec | pcSpin => initialized v = 1
  | pcDone x =>
      initialized v = 1 /\ value v = create 0%nat /\ nc = 1%nat /\ nr = 1%nat /\
      x = create 0%nat
  end.

(** [writing] counts the callers between their two additions; at most one
    caller is the writer; [Create] is not called before [initialized] is
    set, and once the writer has left, its one call has completed and the
    value is what it returned. *)
Record inv (w : world V) : Prop := mkInv {
  inv_create : Create (lv w) = create;
  inv_bound : Z.of_nat (List.length (callers w)) < 2 ^ 31;
  inv_writing : writing (lv w) = cnt counted (callers w);
  inv_init : initialized (lv w) = 0 \/ initialized (lv w) = 1;
  inv_writer : cnt is_writer (callers w) <= 1;
  inv_before :
    initialized (lv w) = 0 -> called w = 0%nat /\ completed w = 0%nat;
  inv_local : Forall (local (lv w) (called w) (completed w)) (callers w);
  inv_after :
    initialized (lv w) = 1 -> cnt is_writer (callers w) = 0 ->
    value (lv w) = create 0%nat /\ called w = 1%nat /\ completed w = 1%nat
}.

End LazyValueInvariant.

Arguments counted {V}.
Arguments is_writer {V}.
Arguments cnt {V}.
Arguments local {V}.
Arguments inv {V}.

(* ================================================================= *)
(** ** Bounds, order and the end of the lexer *)

(** The lexer stands inside its input, not before the start of the item it
    is scanning. *)
Definition in_bounds (l : lexer) : Prop :=
  0 <= start l <= pos l /\ pos l <= len (input l).

(** What every state function and every scanner of a token leaves, called
    on [l]: the same input, a position that has not moved back and is inside
    the input, the start of the next item at the position unless the state
    machine has ended, and an item whose value is the bytes of the input from
    its position to the new position of the lexer. *)
Definition scanned (l : lexer) (res : result) : Prop :=
  let '(it, nxt, l') := res in
  input l' = input l /\
  pos l <= pos l' <= len (input l) /\
  start l <= start l' <= pos l' /\
  (nxt <> None \/ Item.typ it <> itemError -> start l' = pos l') /\
  (Item.notEmpty it = true ->
   start l <= Item.pos it /\
   (Item.typ it <> itemError ->
    Item.pos it <= pos l' /\
    Item.val it = Text (slice (input l) (Item.pos it) (pos l')))).

(** The lexer has the input [inp] and the start [st], and stands between
    [lo] and the end of the input. *)
Definition frame (inp : list ascii) (st lo : Z) (l : lexer) : Prop :=
  input l = inp /\ start l = st /\ lo <= pos l <= len inp.

(** There is no byte at the position, or it is a space, a tab, a CR or a
    LF. *)
Definition blank_first (l : lexer) : bool :=
  match data_of l with
  | [] => true
  | c :: _ => isSpaceTabCR (b2z c) || (b2z c =? LF)
  end.

(** A state function has consumed input when it returns another state than
    [lexWhitespace]; when it returns [lexWhitespace], it has when [strict] is
    set. *)
Definition advances (strict : bool) (l : lexer) (res : result) : Prop :=
  let '(_, nxt, l') := res in
  match nxt with
  | None => True
  | Some StWhitespace => strict = true -> pos l < pos l'
  | Some _ => pos l < pos l'
  end.

(** The runes a number starts with where [lexInsideAction] calls
    [lexNumber]. *)
Definition starts_number (r : Z) : bool :=
  ((rune "0" <=? r) && (r <=? rune "9"))
  || (r =? rune "+") || (r =? rune "-") || (r =? rune ".").

(** A state function called on [l] leaves what [scanned] says, and has
    consumed input as [advances] says. *)
Definition stepped (strict : bool) (l : lexer) (res : result) : Prop :=
  scanned l res /\ advances strict l res.

(** A bound on the calls of [nextItem] that are left before the state
    machine ends: three for each byte left, and for the state, one inside an
    action before a token, two between actions, three where an action may
    end without a byte consumed. *)
Definition weight (st : stateFn) (l : lexer) : Z :=
  match st with
  | StWhitespace => 2
  | StInsideAction => if blank_first l then 3 else 1
  | StInActionSpace => 3
  end.

Definition potential (l : lexer) : Z :=
  match nextState l with
  | None => 0
  | Some st => 3 * (len (input l) - pos l) + weight st l
  end.

(** The items follow each other in the input [inp] from [lo] on: each one
    starts at or after the end of the one before, and each one that is no
    error has as value the bytes of the input from its position to its
    end.  An error has no end: the item after it is measured against the
    same [lo]. *)
Fixpoint in_order (inp : list ascii) (lo : Z) (its : list item) : Prop :=
  match its with
  | [] => True
  | it :: its' =>
      lo <= Item.pos it /\
      if is_typ (Item.typ it) itemError then in_order inp lo its'
      else exists e,
          Item.pos it <= e <= len inp /\
          Item.val it = Text (slice inp (Item.pos it) e) /\
          in_order inp e its'
  end.

(** The shape of the item stream.  Between actions ([inside] unset) come
    comments, the left delimiter of the next action, or the end; inside an
    action come its tokens, the right delimiter that closes it, an error, or
    the end.  After [itemEOF] or [itemError] only [itemEOF] follows. *)
Fixpoint stream_shape (inside : bool) (ts : list itemType) : bool :=
  match ts with
  | [] => true
  | t :: ts' =>
      match t with
      | itemLeftDelim => negb inside && stream_shape true ts'
      | itemRightDelim => inside && stream_shape false ts'
      | itemComment => negb inside && stream_shape false ts'
      | itemEOF => forallb (fun t' => is_typ t' itemEOF) ts'
      | itemError => inside && forallb (fun t' => is_typ t' itemEOF) ts'
      | _ => inside && stream_shape true ts'
      end
  end.

Definition semicolon : ascii := ";"%char.

(** A byte at which the loop of [lexInActionSpace] stops without more: an
    ASCII byte that is no space, tab, CR, LF, backslash, semicolon or
    [#]. *)
Definition starts_token (c : ascii) : Prop :=
  b2z c < 0x80 /\ isSpaceTabCR (b2z c) = false /\ b2z c <> LF /\
  b2z c <> BACKSLASH /\ b2z c <> rune ";" /\ b2z c <> rune "#".

(** The part of [scanNumber] that consumes the literal, before the check of
    the rune that follows: the sign, the digits of the base, the fraction,
    the exponent and the [i]. *)
Definition scanLiteral : M unit :=
  (* Optional leading sign. *)
  _ <- accept "+-" ;;
  (* Is it hex? *)
  let digits := "0123456789_"%string in
  zero <- accept "0" ;;
  digits <- (if zero then
               (* Note: Leading 0 does not mean octal in floats. *)
               x <- accept "xX" ;;
               if x then ret "0123456789abcdefABCDEF_"%string
               else
                 o <- accept "oO" ;;
                 if o then ret "01234567_"%string
                 else
                   b <- accept "bB" ;;
                   if b then ret "01_"%string else ret digits
             else ret digits) ;;
  _ <- call (acceptRun digits) ;;
  dot <- accept "." ;;
  _ <- (if dot then call (acceptRun digits) else ret tt) ;;
  _ <- (if (String.length digits =? 10 + 1)%nat then
          e <- accept "eE" ;;
          if e then
            _ <- accept "+-" ;;
            call (acceptRun "0123456789_")
          else ret tt
        else ret tt) ;;
  _ <- (if (String.length digits =? 16 + 6 + 1)%nat then
          p <- accept "pP" ;;
          if p then
            _ <- accept "+-" ;;
            call (acceptRun "0123456789_")
          else ret tt
        else ret tt) ;;
  (* Is it imaginary? *)
  _ <- accept "i" ;;
  ret tt.




(* ================================================================= *)
(** * Properties *)

(* ================================================================= *)
(** ** Bytes and runes *)

Lemma b2z_range (c : ascii) : 0 <= b2z c < 256.
Proof.
  unfold b2z. pose proof (N_ascii_bounded c) as H. lia.
Qed.

Lemma lor_lower_l (a b : Z) : 0 <= a -> 0 <= b -> a <= Z.lor a b.
Proof.
  intros Ha Hb. pose proof (Z.sub_lor_l_same_r b a) as H.
  rewrite Z.lor_comm in H.
  assert (0 <= Z.land b (Z.lnot a)) by (apply Z.land_nonneg; auto).
  lia.
Qed.

Lemma lor_lower_r (a b : Z) : 0 <= a -> 0 <= b -> b <= Z.lor a b.
Proof. intros. rewrite Z.lor_comm. apply lor_lower_l; assumption. Qed.

(** [x & (2^n - 1)], shifted left by [k], as arithmetic. *)
Lemma masked_shift (x n k : Z) :
  0 <= n -> 0 <= k ->
  Z.shiftl (Z.land x (Z.ones n)) k = (x mod 2 ^ n) * 2 ^ k.
Proof.
  intros. rewrite Z.land_ones, Z.shiftl_mul_pow2 by assumption. reflexivity.
Qed.

Lemma masked_nonneg (x n : Z) : 0 <= n -> 0 <= Z.land x (Z.ones n).
Proof.
  intros. rewrite Z.land_ones by assumption.
  apply Z.mod_pos_bound. apply Z.pow_pos_nonneg; lia.
Qed.

Ltac zbool :=
  repeat match goal with
  | H : (_ <? _) = true |- _ => apply Z.ltb_lt in H
  | H : (_ <? _) = false |- _ => apply Z.ltb_ge in H
  | H : (_ <=? _) = true |- _ => apply Z.leb_le in H
  | H : (_ <=? _) = false |- _ => apply Z.leb_gt in H
  | H : (_ =? _) = true |- _ => apply Z.eqb_eq in H
  | H : (_ =? _) = false |- _ => apply Z.eqb_neq in H
  | H : (_ && _) = true |- _ => apply andb_true_iff in H; destruct H
  | H : (_ || _) = false |- _ => apply orb_false_iff in H; destruct H
  | H : negb _ = true |- _ => apply negb_true_iff in H
  | H : negb _ = false |- _ => apply negb_false_iff in H
  end.

Lemma first_spec (s0 sz lo hi : Z) :
  utf8.first s0 = Some (sz, lo, hi) ->
  0xC2 <= s0 /\ 0x80 <= lo /\ hi <= 0xBF /\
  ((sz = 2 /\ s0 <= 0xDF) \/
   (sz = 3 /\ 0xE0 <= s0 <= 0xEF /\ (s0 = 0xE0 -> lo = 0xA0)) \/
   (sz = 4 /\ 0xF0 <= s0 <= 0xF4 /\ (s0 = 0xF0 -> lo = 0x90))).
Proof.
  unfold utf8.first.
  repeat match goal with
  | |- context [if ?b then _ else _] => destruct b eqn:?
  end; intros [= <- <- <-]; zbool; lia.
Qed.

Lemma rune2_high (s0 b1 : Z) :
  0xC2 <= s0 <= 0xDF ->
  0x80 <= Z.lor (Z.shiftl (Z.land s0 0x1F) 6) (Z.land b1 0x3F).
Proof.
  intros H. change 0x1F with (Z.ones 5). change 0x3F with (Z.ones 6).
  etransitivity; [|apply lor_lower_l].
  - rewrite masked_shift by lia. change (2 ^ 5) with 32. change (2 ^ 6) with 64.
    Z.div_mod_to_equations. lia.
  - apply Z.shiftl_nonneg, masked_nonneg. lia.
  - apply masked_nonneg. lia.
Qed.

Lemma rune3_high (s0 b1 b2 : Z) :
  0xE0 <= s0 <= 0xEF -> (s0 = 0xE0 -> 0xA0 <= b1) -> 0x80 <= b1 <= 0xBF ->
  0x80 <= Z.lor (Z.lor (Z.shiftl (Z.land s0 0x0F) 12)
                       (Z.shiftl (Z.land b1 0x3F) 6))
                (Z.land b2 0x3F).
Proof.
  intros H H0 H1. change 0x0F with (Z.ones 4). change 0x3F with (Z.ones 6).
  assert (N1 : 0 <= Z.shiftl (Z.land s0 (Z.ones 4)) 12)
    by (apply Z.shiftl_nonneg, masked_nonneg; lia).
  assert (N2 : 0 <= Z.shiftl (Z.land b1 (Z.ones 6)) 6)
    by (apply Z.shiftl_nonneg, masked_nonneg; lia).
  assert (N3 : 0 <= Z.land b2 (Z.ones 6)) by (apply masked_nonneg; lia).
  pose proof (lor_lower_l _ _ (proj2 (Z.lor_nonneg _ _) (conj N1 N2)) N3).
  pose proof (lor_lower_l _ _ N1 N2). pose proof (lor_lower_r _ _ N1 N2).
  rewrite !masked_shift in * by lia.
  change (2 ^ 4) with 16 in *. change (2 ^ 6) with 64 in *.
  change (2 ^ 12) with 4096 in *. Z.div_mod_to_equations. lia.
Qed.

Lemma rune4_high (s0 b1 b2 b3 : Z) :
  0xF0 <= s0 <= 0xF4 -> (s0 = 0xF0 -> 0x90 <= b1) -> 0x80 <= b1 <= 0xBF ->
  0x80 <= Z.lor (Z.lor (Z.lor (Z.shiftl (Z.land s0 0x07) 18)
                              (Z.shiftl (Z.land b1 0x3F) 12))
                       (Z.shiftl (Z.land b2 0x3F) 6))
                (Z.land b3 0x3F).
Proof.
  intros H H0 H1. change 0x07 with (Z.ones 3). change 0x3F with (Z.ones 6).
  assert (N1 : 0 <= Z.shiftl (Z.land s0 (Z.ones 3)) 18)
    by (apply Z.shiftl_nonneg, masked_nonneg; lia).
  assert (N2 : 0 <= Z.shiftl (Z.land b1 (Z.ones 6)) 12)
    by (apply Z.shiftl_nonneg, masked_nonneg; lia).
  assert (N3 : 0 <= Z.shiftl (Z.land b2 (Z.ones 6)) 6)
    by (apply Z.shiftl_nonneg, masked_nonneg; lia).
  assert (N4 : 0 <= Z.land b3 (Z.ones 6)) by (apply masked_nonneg; lia).
  assert (N12 := proj2 (Z.lor_nonneg _ _) (conj N1 N2)).
  assert (N123 := proj2 (Z.lor_nonneg _ _) (conj N12 N3)).
  pose proof (lor_lower_l _ _ N123 N4). pose proof (lor_lower_l _ _ N12 N3).
  pose proof (lor_lower_l _ _ N1 N2). pose proof (lor_lower_r _ _ N1 N2).
  rewrite !masked_shift in * by lia.
  change (2 ^ 3) with 8 in *. change (2 ^ 6) with 64 in *.
  change (2 ^ 12) with 4096 in *. change (2 ^ 18) with 262144 in *.
  Z.div_mod_to_equations. lia.
Qed.

(** What [DecodeRuneInString] returns on a string that is not empty: an
    ASCII byte as itself, [RuneError] of width one, or a rune above ASCII
    whose [w] bytes are all above ASCII. *)
Lemma decode_cases (c : ascii) (s : list ascii) (r w : Z) :
  utf8.DecodeRuneInString (c :: s) = (r, w) ->
  (w = 1 /\ r = b2z c /\ r < 0x80) \/
  (w = 1 /\ r = utf8.RuneError /\ high c) \/
  (2 <= w /\ 0x80 <= r /\ high c /\
   (Z.to_nat (w - 1) <= List.length s)%nat /\
   Forall high (firstn (Z.to_nat (w - 1)) s)).
Proof.
  unfold utf8.DecodeRuneInString, utf8.RuneSelf, utf8.cont, high.
  pose proof (b2z_range c) as Hc.
  destruct (b2z c <? 128) eqn:E0; zbool.
  { intros [= <- <-]. left. lia. }
  destruct (utf8.first (b2z c)) as [[[sz lo] hi]|] eqn:F;
    [|intros [= <- <-]; right; left; lia].
  apply first_spec in F. destruct F as (F1 & F2 & F3 & F4).
  destruct s as [|c1 s]; [intros [= <- <-]; right; left; lia|].
  destruct (_ || _) eqn:E1; [intros [= <- <-]; right; left; lia|].
  destruct (sz <=? 2) eqn:S2; zbool.
  { intros [= <- <-]. right. right. repeat split; try lia.
    - apply rune2_high. lia.
    - cbn. lia.
    - cbn. constructor; [unfold high; lia | constructor]. }
  destruct s as [|c2 s]; [intros [= <- <-]; right; left; lia|].
  destruct (negb _) eqn:E2; [intros [= <- <-]; right; left; lia|].
  destruct (sz <=? 3) eqn:S3; zbool.
  { intros [= <- <-]. right. right. repeat split; try lia.
    - apply rune3_high; lia.
    - cbn. lia.
    - cbn. repeat constructor; unfold high; lia. }
  destruct s as [|c3 s]; [intros [= <- <-]; right; left; lia|].
  destruct (negb _) eqn:E3; [intros [= <- <-]; right; left; lia|]; zbool.
  intros [= <- <-]. right. right. repeat split; try lia.
  - apply rune4_high; lia.
  - cbn. lia.
  - cbn. repeat constructor; unfold high; lia.
Qed.

Lemma len_nonneg (s : list ascii) : 0 <= len s.
Proof. unfold len. lia. Qed.

Lemma len_cons (c : ascii) (s : list ascii) : len (c :: s) = len s + 1.
Proof. unfold len. simpl List.length. lia. Qed.

Lemma len_app (s t : list ascii) : len (s ++ t) = len s + len t.
Proof. unfold len. rewrite length_app. lia. Qed.

(** An ASCII byte is a rune of width one. *)
Lemma decode_ascii (c : ascii) (s : list ascii) :
  b2z c < 0x80 -> utf8.DecodeRuneInString (c :: s) = (b2z c, 1).
Proof.
  intros H. unfold utf8.DecodeRuneInString, utf8.RuneSelf.
  destruct (b2z c <? 128) eqn:E; [reflexivity | lia].
Qed.

Lemma range_from_ascii (i : Z) (c : ascii) (s : list ascii) :
  b2z c < 0x80 ->
  range_from 0 i (c :: s) = (i, b2z c) :: range_from 0 (i + 1) s.
Proof.
  intros H. cbn [range_from]. rewrite decode_ascii by assumption.
  reflexivity.
Qed.

(* ================================================================= *)
(** ** What the state functions return *)

Lemma token_action (res : result) : token_result res -> action_result res.
Proof.
  destruct res as [[it nxt] l]. unfold token_result, action_result.
  intros [H [[H1 ->]|[H1 ->]]]; auto.
Qed.

Section Shapes.

Variable T : Tables.

Ltac tok := unfold token_result; cbn; auto.

Lemma lexNumber_token (l : lexer) : token_result (lexNumber T l).
Proof.
  unfold lexNumber, badNumber.
  destruct (scanNumber T l) as [ok l1]. destruct ok; cbn [negb]; [|tok].
  destruct (_ || _); [|tok].
  destruct (scanNumber T l1) as [ok2 l2].
  destruct (_ || _); tok.
Qed.

Lemma lexIdentifier_token (l : lexer) : token_result (lexIdentifier T l).
Proof.
  unfold lexIdentifier.
  destruct (scanAlphaNumeric T (data_of l)) as [[i r] w].
  destruct (negb _); [tok|].
  repeat match goal with
  | |- context [if ?b then _ else _] => destruct b
  end; tok.
Qed.

Lemma lexFieldOrVariable_token (l : lexer) (typ : itemType) :
  is_token typ = true -> token_result (lexFieldOrVariable T l typ).
Proof.
  intros Ht. unfold lexFieldOrVariable.
  destruct (atTerminator l).
  - destruct (is_typ typ itemVariable); tok.
  - destruct (scanAlphaNumeric T (data_of l)) as [[i r] w].
    destruct (negb _); tok.
Qed.

Lemma lexField_token (l : lexer) : token_result (lexField T l).
Proof. apply lexFieldOrVariable_token. reflexivity. Qed.

Lemma lexVariable_token (l : lexer) : token_result (lexVariable T l).
Proof.
  unfold lexVariable. destruct (atTerminator l); [tok|].
  apply lexFieldOrVariable_token. reflexivity.
Qed.

Lemma lexChar_token (l : lexer) : token_result (lexChar l).
Proof. unfold lexChar. destruct (lexChar_loop _ _); tok. Qed.

Lemma lexQuote_token (l : lexer) : token_result (lexQuote l).
Proof. unfold lexQuote. destruct (lexQuote_loop _ _); tok. Qed.

Lemma lexRawQuote_token (l : lexer) : token_result (lexRawQuote l).
Proof.
  unfold lexRawQuote. destruct (lexRawQuote_loop _ _ _) as [[e i] ln].
  destruct e; tok.
Qed.

Lemma lexInsideAction_body_action (space : lexer -> result) (l : lexer) :
  (forall l', action_result (space l')) ->
  action_result (lexInsideAction_body T space l).
Proof.
  intros Hs. unfold lexInsideAction_body.
  destruct (len (data_of l) =? 0).
  { destruct (0 <? parenDepth l); unfold action_result; cbn; auto. }
  destruct (match range_str (data_of l) with p :: _ => p | [] => (0, 0) end)
    as [i r].
  cbv beta iota zeta delta [emit].
  repeat lazymatch goal with
  | |- action_result (if ?b then _ else _) => destruct b
  end;
  try apply Hs;
  try (apply token_action;
       first [ apply lexNumber_token | apply lexIdentifier_token
             | apply lexField_token | apply lexQuote_token
             | apply lexRawQuote_token | apply lexVariable_token
             | apply lexChar_token ]);
  try (unfold action_result; cbn; auto; fail).
Qed.

Lemma lexInActionSpace_body_action (inside : lexer -> result) (l : lexer) :
  (forall l', action_result (inside l')) ->
  action_result (lexInActionSpace_body inside l).
Proof.
  intros Hi. unfold lexInActionSpace_body.
  repeat lazymatch goal with
  | |- action_result (if ?b then _ else _) => destruct b
  end;
  try apply Hi; unfold action_result; cbn; auto.
Qed.

Lemma lexInsideAction_action (l : lexer) : action_result (lexInsideAction T l).
Proof.
  unfold lexInsideAction. apply lexInsideAction_body_action.
  intros l'. apply lexInActionSpace_body_action.
  intros l''. unfold action_result. cbn. auto.
Qed.

Lemma lexInActionSpace_action (l : lexer) :
  action_result (lexInActionSpace T l).
Proof.
  unfold lexInActionSpace. apply lexInActionSpace_body_action.
  apply lexInsideAction_action.
Qed.

Lemma lexComment_whitespace (l : lexer) : whitespace_result (lexComment l).
Proof.
  unfold lexComment.
  match goal with |- context [emitComment ?x] => destruct (emitComment x) end;
    unfold whitespace_result; cbn; auto.
Qed.

Lemma lexWhitespace_whitespace (l : lexer) :
  whitespace_result (lexWhitespace l).
Proof.
  unfold lexWhitespace.
  destruct (lexWhitespace_loop _ _ _ _) as [[i r] ln].
  destruct (_ || _); [unfold whitespace_result; cbn; auto|].
  destruct (r =? _); [apply lexComment_whitespace|].
  unfold whitespace_result; cbn; auto.
Qed.

End Shapes.

(* ================================================================= *)
(** ** The loops of the model are the loops of the source *)

Lemma ContainsRune_nonneg (valid : string) (r : Z) :
  ContainsRune valid r = true -> 0 <= r.
Proof.
  unfold ContainsRune. intros H. apply existsb_exists in H.
  destruct H as (c & _ & H). apply Z.eqb_eq in H.
  pose proof (b2z_range c). lia.
Qed.

Lemma data_of_nonempty (l : lexer) :
  0 <= pos l < len (input l) -> exists c s, data_of l = c :: s.
Proof.
  unfold data_of, slice_from, len. intros H.
  destruct (skipn (Z.to_nat (pos l)) (input l)) as [|c s] eqn:E.
  - apply (f_equal (@List.length ascii)) in E. rewrite length_skipn in E.
    change (List.length (@nil ascii)) with 0%nat in E. lia.
  - eauto.
Qed.

(** A call of [next] that returns a rune consumes input. *)
Lemma next_progress (l l1 : lexer) (r : Z) :
  0 <= pos l -> next l = (r, l1) -> r <> eof ->
  (remaining l1 < remaining l)%nat /\ 0 <= pos l1.
Proof.
  intros P. unfold next. destruct (len (input l) <=? pos l) eqn:E.
  { intros [= <- <-]. congruence. }
  zbool. destruct (data_of_nonempty l ltac:(lia)) as (c & s & D).
  rewrite D. destruct (utf8.DecodeRuneInString (c :: s)) as [r' w] eqn:Dec.
  apply decode_cases in Dec.
  assert (1 <= w) by (destruct Dec as [?|[?|?]]; lia).
  intros [= <- <-] _. unfold remaining.
  destruct (r' =? LF); cbn; lia.
Qed.

Lemma acceptRun_loop_fuel (valid : string) (f1 f2 : nat) (l : lexer) :
  0 <= pos l -> (remaining l <= f1)%nat -> (remaining l <= f2)%nat ->
  acceptRun_loop f1 valid l = acceptRun_loop f2 valid l.
Proof.
  revert f2 l. induction f1 as [|f1 IH]; intros f2 l P H1 H2.
  - destruct f2 as [|f2]; [reflexivity|]. cbn [acceptRun_loop].
    destruct (next l) as [r l1] eqn:N.
    destruct (ContainsRune valid r) eqn:C; [|reflexivity].
    apply ContainsRune_nonneg in C.
    pose proof (next_progress l l1 r P N ltac:(unfold eof; lia)). lia.
  - cbn [acceptRun_loop]. destruct (next l) as [r l1] eqn:N.
    destruct (ContainsRune valid r) eqn:C;
      [|destruct f2; cbn [acceptRun_loop]; rewrite N, C; reflexivity].
    pose proof (ContainsRune_nonneg _ _ C) as C'.
    pose proof (next_progress l l1 r P N ltac:(unfold eof; lia)).
    destruct f2 as [|f2]; [lia|]. cbn [acceptRun_loop]. rewrite N, C.
    apply IH; lia.
Qed.

(** [acceptRun] is the loop of the source: it consumes while [next] returns
    a rune of [valid], then backs up once. *)
Lemma acceptRun_unfold (valid : string) (l : lexer) :
  0 <= pos l ->
  acceptRun valid l =
  let '(r, l1) := next l in
  if ContainsRune valid r then acceptRun valid l1 else backup l1.
Proof.
  intros P. unfold acceptRun at 1.
  destruct (remaining l) as [|f] eqn:R; cbn [acceptRun_loop];
    destruct (next l) as [r l1] eqn:N;
    destruct (ContainsRune valid r) eqn:C; try reflexivity;
    apply ContainsRune_nonneg in C;
    pose proof (next_progress l l1 r P N ltac:(unfold eof; lia)); [lia|].
  unfold acceptRun. f_equal. apply acceptRun_loop_fuel; lia.
Qed.

Lemma range_from_lower (k : nat) (i : Z) (s : list ascii) (p : Z * Z) :
  In p (range_from k i s) -> i <= fst p.
Proof.
  revert k i. induction s as [|c s IH]; intros k i; cbn [range_from].
  - intros [].
  - destruct k as [|k].
    + destruct (utf8.DecodeRuneInString (c :: s)) as [r w].
      intros [<-|H]; [cbn; lia|]. apply IH in H. lia.
    + intros H. apply IH in H. lia.
Qed.

Lemma range_from_nil (k : nat) (i : Z) (s : list ascii) :
  range_from k i s = [] -> (List.length s <= k)%nat.
Proof.
  revert k i. induction s as [|c s IH]; intros k i; cbn [range_from].
  - cbn. lia.
  - destruct k as [|k].
    + destruct (utf8.DecodeRuneInString (c :: s)) as [r w]. discriminate.
    + intros H. apply IH in H. cbn. lia.
Qed.

Lemma lexWhitespace_loop_last (rs : list (Z * Z)) (i0 r0 ln : Z) :
  let '(i, r, _) := lexWhitespace_loop rs i0 r0 ln in
  (i = i0 /\ r = r0 /\ rs = []) \/ In (i, r) rs.
Proof.
  revert i0 r0 ln. induction rs as [|[i' r'] rs IH]; intros i0 r0 ln;
    cbn [lexWhitespace_loop]; [auto|].
  destruct (isSpaceTabCR r').
  - specialize (IH i' r' ln).
    destruct (lexWhitespace_loop rs i' r' ln) as [[i r] ln'].
    right. destruct IH as [(-> & -> & _)|IH]; cbn; auto.
  - destruct (r' =? LF).
    + specialize (IH i' r' (ln + 1)).
      destruct (lexWhitespace_loop rs i' r' (ln + 1)) as [[i r] ln'].
      right. destruct IH as [(-> & -> & _)|IH]; cbn; auto.
    + right. cbn. auto.
Qed.

Lemma IndexByte_lower (s : list ascii) (c : Z) : -1 <= IndexByte s c.
Proof.
  induction s as [|b s IH]; cbn [IndexByte]; [lia|].
  destruct (b2z b =? c); [lia|]. destruct (IndexByte s c <? 0); lia.
Qed.

(** [lexWhitespace] returns an empty item only after it has consumed a
    comment. *)
Lemma lexWhitespace_progress (l : lexer) :
  Item.notEmpty (fst (fst (lexWhitespace l))) = false ->
  (remaining (snd (lexWhitespace l)) < remaining l)%nat.
Proof.
  unfold lexWhitespace.
  pose proof (lexWhitespace_loop_last (range_str (data_of l)) 0 eof (line l))
    as L.
  destruct (lexWhitespace_loop _ _ _ _) as [[i r] ln].
  destruct (_ || _) eqn:E1; [cbn; discriminate|].
  destruct (r =? rune "#") eqn:E2; [|cbn; discriminate].
  zbool. destruct L as [(_ & -> & _)|L]; [discriminate|].
  pose proof (range_from_lower _ _ _ _ L) as Hi. cbn in Hi.
  assert (D : data_of l <> []).
  { intros D. rewrite D in L. destruct L. }
  assert (P : (Z.to_nat (pos l) < List.length (input l))%nat).
  { unfold data_of, slice_from in D.
    destruct (Nat.lt_ge_cases (Z.to_nat (pos l)) (List.length (input l)))
      as [?|G]; [assumption|].
    apply skipn_all2 in G. contradiction. }
  unfold lexComment.
  destruct (r =? eof), (negb (i =? 0)) eqn:E4; zbool;
  cbn -[IndexByte data_of];
  match goal with |- context [IndexByte ?d ?c] =>
    pose proof (IndexByte_lower d c); destruct (IndexByte d c <? 0) eqn:E3
  end; zbool; cbn -[IndexByte data_of];
  destruct (emitComment l); cbn -[IndexByte data_of];
  try discriminate; intros _;
  unfold remaining; cbn -[IndexByte data_of]; unfold len; lia.
Qed.

Section Unfold.

Variable T : Tables.

Lemma run_state_progress (st : stateFn) (l : lexer) :
  Item.notEmpty (fst (fst (run_state T st l))) = false ->
  (remaining (snd (run_state T st l)) < remaining l)%nat.
Proof.
  destruct st; cbn [run_state].
  - apply lexWhitespace_progress.
  - pose proof (lexInsideAction_action T l) as H.
    destruct (lexInsideAction T l) as [[it nxt] l']. cbn.
    destruct H as [H _]. congruence.
  - pose proof (lexInActionSpace_action T l) as H.
    destruct (lexInActionSpace T l) as [[it nxt] l']. cbn.
    destruct H as [H _]. congruence.
Qed.

Lemma remaining_set_nextState (l : lexer) (n : option stateFn) :
  remaining (set_nextState l n) = remaining l.
Proof. reflexivity. Qed.

Lemma nextItem_loop_fuel (f1 f2 : nat) (l : lexer) :
  (remaining l <= f1)%nat -> (remaining l <= f2)%nat ->
  nextItem_loop T f1 l = nextItem_loop T f2 l.
Proof.
  revert f2 l. induction f1 as [|f1 IH]; intros f2 l H1 H2;
    destruct f2 as [|f2]; try reflexivity; cbn [nextItem_loop];
    destruct (nextState l) as [st|]; try reflexivity;
    pose proof (run_state_progress st l) as P;
    destruct (run_state T st l) as [[ret nxt] l1]; cbn [fst snd] in P;
    destruct nxt as [st'|]; try reflexivity;
    destruct (Item.notEmpty ret); try reflexivity;
    specialize (P eq_refl); try lia.
  apply IH; rewrite remaining_set_nextState; lia.
Qed.

(** [nextItem] is the loop of the source: it runs the state function, and
    goes round again when the item is empty and the next state is not
    [nil]. *)
Lemma nextItem_unfold (l : lexer) :
  nextItem T l =
  match nextState l with
  | None => emit itemEOF l
  | Some st =>
      let '(ret, nxt, l') := run_state T st l in
      let l' := set_nextState l' nxt in
      match nxt with
      | None => (ret, l')
      | Some _ => if Item.notEmpty ret then (ret, l') else nextItem T l'
      end
  end.
Proof.
  unfold nextItem at 1.
  destruct (remaining l) as [|f] eqn:R; cbn [nextItem_loop];
    destruct (nextState l) as [st|]; try reflexivity;
    pose proof (run_state_progress st l) as P;
    destruct (run_state T st l) as [[ret nxt] l1]; cbn [fst snd] in P;
    destruct nxt as [st'|]; try reflexivity;
    destruct (Item.notEmpty ret); try reflexivity;
    specialize (P eq_refl); [lia|].
  unfold nextItem. apply nextItem_loop_fuel;
    rewrite ?remaining_set_nextState; lia.
Qed.

End Unfold.

Lemma lexInActionSpace_loop_lower (lo : Z) (rs : list (Z * Z)) (s : spaceScan) :
  (forall p, In p rs -> lo <= fst p) -> lo <= sc_i s ->
  lo <= sc_i (lexInActionSpace_loop rs s).
Proof.
  revert s. induction rs as [|[i r] rs IH]; intros s H Hs;
    cbn [lexInActionSpace_loop]; [assumption|].
  assert (Hi : lo <= i) by (apply (H (i, r)); left; reflexivity).
  assert (H' : forall p, In p rs -> lo <= fst p)
    by (intros p Hp; apply H; right; assumption).
  destruct (isSpaceTabCR r); [apply IH; assumption|].
  destruct (r =? LF).
  - destruct (sc_hasInlineBackslash s); [apply IH; assumption|cbn; lia].
  - destruct (r =? BACKSLASH); [apply IH; assumption|cbn; lia].
Qed.

Lemma range_str_cons (c : ascii) (s : list ascii) :
  range_str (c :: s) =
  (0, fst (utf8.DecodeRuneInString (c :: s)))
    :: range_from (Z.to_nat (snd (utf8.DecodeRuneInString (c :: s))) - 1) 1 s.
Proof.
  unfold range_str. cbn [range_from].
  destruct (utf8.DecodeRuneInString (c :: s)). reflexivity.
Qed.

Lemma data_of_single (l : lexer) (c : ascii) :
  0 <= pos l -> data_of l = [c] -> len (input l) = pos l + 1.
Proof.
  unfold data_of, slice_from, len. intros P D.
  apply (f_equal (@List.length ascii)) in D. rewrite length_skipn in D.
  cbn in D. lia.
Qed.

(** On a space, tab, CR or LF, [lexInActionSpace] returns without calling
    [lexInsideAction]. *)
Lemma lexInActionSpace_no_callback (k1 k2 : lexer -> result) (l : lexer)
      (i r : Z) (rs : list (Z * Z)) :
  0 <= pos l ->
  range_str (data_of l) = (i, r) :: rs ->
  (r =? SP) || (r =? LF) || (r =? TAB) || (r =? CR) = true ->
  lexInActionSpace_body k1 l = lexInActionSpace_body k2 l.
Proof.
  intros P R W.
  destruct (data_of l) as [|c s] eqn:D; [discriminate|].
  rewrite range_str_cons in R.
  destruct (utf8.DecodeRuneInString (c :: s)) as [r0 w] eqn:Dec.
  cbn [fst snd] in R. injection R as <- <- <-.
  pose proof (decode_cases _ _ _ _ Dec) as DC.
  assert (w = 1) as ->.
  { unfold SP, LF, TAB, CR in W. destruct DC as [?|[?|?]]; lia. }
  change (Z.to_nat 1 - 1)%nat with 0%nat in *.
  unfold lexInActionSpace_body. rewrite D, range_str_cons, Dec.
  cbn [fst snd]. change (Z.to_nat 1 - 1)%nat with 0%nat.
  cbn [lexInActionSpace_loop sc_hasInlineBackslash sc_line sc_emitRightDelim].
  destruct (isSpaceTabCR r0) eqn:W1.
  - destruct (range_from 0 1 s) as [|p rs] eqn:R.
    + apply range_from_nil in R. destruct s; [|cbn in R; lia].
      pose proof (data_of_single l c P D) as L.
      cbn [lexInActionSpace_loop sc_i sc_r sc_line sc_emitRightDelim].
      rewrite W1. cbn [pos set_pos set_width set_line input orb].
      replace (len (input l) <=? pos l + 0 + 1) with true
        by (symmetry; apply Z.leb_le; lia).
      reflexivity.
    + assert (E : (sc_i (lexInActionSpace_loop (p :: rs)
                           (mkSpaceScan 0 r0 (line l) false false)) =? 0)
                  = false).
      { apply Z.eqb_neq.
        assert (1 <= sc_i (lexInActionSpace_loop (p :: rs)
                          (mkSpaceScan 0 r0 (line l) false false))); [|lia].
        destruct p as [i r]. cbn [lexInActionSpace_loop].
        assert (Hi : 1 <= i).
        { apply (range_from_lower 0 1 s (i, r)). rewrite R. left. reflexivity. }
        assert (H' : forall p, In p rs -> 1 <= fst p).
        { intros p Hp. apply (range_from_lower 0 1 s p). rewrite R.
          right. assumption. }
        repeat match goal with
        | |- context [if ?b then _ else _] => destruct b
        end; try (apply lexInActionSpace_loop_lower; cbn; assumption);
        cbn; lia. }
      cbv zeta. rewrite E. reflexivity.
  - assert (r0 = LF) as ->.
    { unfold isSpaceTabCR in W1. zbool.
      repeat match goal with
      | H : _ || _ = true |- _ => apply orb_true_iff in H; destruct H
      end; zbool; congruence. }
    reflexivity.
Qed.

Section UnfoldInside.

Variable T : Tables.

(** The two definitions satisfy the mutual recursion of the source. *)
Lemma lexInActionSpace_unfold (l : lexer) :
  lexInActionSpace T l = lexInActionSpace_body (lexInsideAction T) l.
Proof. reflexivity. Qed.

Lemma lexInsideAction_unfold (l : lexer) :
  0 <= pos l ->
  lexInsideAction T l = lexInsideAction_body T (lexInActionSpace T) l.
Proof.
  intros P. unfold lexInsideAction, lexInsideAction_body.
  destruct (len (data_of l) =? 0); [reflexivity|].
  destruct (range_str (data_of l)) as [|[i r] rs] eqn:R.
  - cbn. reflexivity.
  - destruct ((rune "0" <=? r) && (r <=? rune "9")); [reflexivity|].
    destruct (isAlphaNumeric T r); [reflexivity|].
    destruct ((r =? SP) || (r =? LF) || (r =? TAB) || (r =? CR)) eqn:W;
      [|reflexivity].
    apply (lexInActionSpace_no_callback _ _ l i r rs); assumption.
Qed.

End UnfoldInside.

(* ================================================================= *)
(** ** One call of [nextItem] *)

Section NextItem.

Variable T : Tables.

Lemma nextItem_terminated (l : lexer) :
  nextState l = None -> nextItem T l = emit itemEOF l.
Proof. intros H. rewrite nextItem_unfold, H. reflexivity. Qed.

Lemma action_step (st : stateFn) (res : result) :
  st <> StWhitespace -> action_result res ->
  let '(ret, nxt, l') := res in
  step_ok (Some st) ret nxt /\ Item.notEmpty ret = true.
Proof.
  destruct res as [[ret nxt] l']. intros Hst [H1 H2].
  split; [|assumption]. split; [assumption|].
  destruct st; [congruence| |]; destruct nxt as [[]|]; auto.
Qed.

Lemma nextItem_step_fuel (n : nat) (l : lexer) :
  (remaining l <= n)%nat ->
  step_ok (nextState l) (fst (nextItem T l)) (nextState (snd (nextItem T l))).
Proof.
  revert l. induction n as [|n IH]; intros l Hn;
    rewrite nextItem_unfold;
    (destruct (nextState l) as [st|] eqn:S; [|cbn; unfold step_ok; auto]);
    destruct st; cbn [run_state].
  all: try (pose proof (action_step StInsideAction _ ltac:(discriminate)
                          (lexInsideAction_action T l)) as Sh;
            destruct (lexInsideAction T l) as [[ret nxt] l1];
            destruct Sh as [Sh1 Sh2]; rewrite Sh2;
            destruct nxt; exact Sh1).
  all: try (pose proof (action_step StInActionSpace _ ltac:(discriminate)
                          (lexInActionSpace_action T l)) as Sh;
            destruct (lexInActionSpace T l) as [[ret nxt] l1];
            destruct Sh as [Sh1 Sh2]; rewrite Sh2;
            destruct nxt; exact Sh1).
  all: pose proof (lexWhitespace_whitespace l) as Sh;
       pose proof (lexWhitespace_progress l) as P;
       destruct (lexWhitespace l) as [[ret nxt] l1]; cbn [fst snd] in P;
       destruct nxt as [[]|]; cbn in Sh; try contradiction;
       try (destruct Sh as [Sh1 Sh2]; rewrite ?Sh2; cbn; unfold step_ok; cbn;
            intuition auto; fail).
  all: destruct Sh as [[Sh1 Sh2]|Sh];
       [ rewrite Sh2; cbn; unfold step_ok; cbn; intuition auto | ].
  all: subst ret; cbn [Item.notEmpty Item.zero] in *; specialize (P eq_refl).
  - lia.
  - apply (IH (set_nextState l1 (Some StWhitespace))).
    rewrite remaining_set_nextState. lia.
Qed.

(** Every item [nextItem] returns is meaningful, and its type fixes the
    state the lexer is left in. *)
Lemma nextItem_step (l : lexer) :
  step_ok (nextState l) (fst (nextItem T l)) (nextState (snd (nextItem T l))).
Proof. apply (nextItem_step_fuel (remaining l)). lia. Qed.

(** The state machine ends with the item that reports an error or the end
    of the input. *)
Lemma nextItem_last (l : lexer) :
  Item.typ (fst (nextItem T l)) = itemError \/
  Item.typ (fst (nextItem T l)) = itemEOF ->
  nextState (snd (nextItem T l)) = None.
Proof.
  pose proof (nextItem_step l) as [_ H].
  destruct (nextState l) as [[]|]; intros E.
  - destruct H as [[_ H]|[[H _]|[H _]]]; [assumption|..];
      rewrite H in E; destruct E; discriminate.
  - destruct H as [[_ H]|[[H _]|[H _]]]; [assumption|..];
      destruct E as [E|E]; rewrite E in H; discriminate.
  - destruct H as [[_ H]|[[H _]|[H _]]]; [assumption|..];
      destruct E as [E|E]; rewrite E in H; discriminate.
  - apply H.
Qed.

Lemma items_S (n : nat) (l : lexer) :
  items T (S n) l = fst (nextItem T l) :: items T n (snd (nextItem T l)).
Proof. cbn [items]. destruct (nextItem T l). reflexivity. Qed.

(** Once the next state is [nil] it stays [nil], and the items are
    [itemEOF]. *)
Lemma ended_stays (n : nat) (l : lexer) :
  nextState l = None -> nextState (after T n l) = None.
Proof.
  revert l. induction n as [|n IH]; intros l H; [exact H|].
  cbn [after]. rewrite (nextItem_terminated l H). cbn [emit fst snd].
  apply IH. exact H.
Qed.

Lemma ended_items (n : nat) (l : lexer) :
  nextState l = None ->
  Forall (fun it => Item.typ it = itemEOF) (items T n l).
Proof.
  revert l. induction n as [|n IH]; intros l H; [constructor|].
  rewrite items_S. rewrite (nextItem_terminated l H). cbn [emit fst snd].
  constructor; [reflexivity|]. apply IH. exact H.
Qed.

(** C10. Once the state machine has ended, with the next state [nil], as it
    is after the item that reports an error or the end of the input (see
    [nextItem_last]), every call of [nextItem] returns an item of type
    [itemEOF] and leaves the next state [nil]. *)
Theorem nextItem_after_end (l : lexer) (n : nat) :
  nextState l = None ->
  Forall (fun it => Item.typ it = itemEOF) (items T n l) /\
  nextState (after T n l) = None.
Proof.
  revert l. induction n as [|n IH]; intros l H.
  - split; [constructor | assumption].
  - rewrite items_S. cbn [after].
    rewrite (nextItem_terminated l H). cbn [emit fst snd].
    split; [constructor; [reflexivity|] |]; apply IH; exact H.
Qed.

End NextItem.

(** The lexer of the empty input has ended after its first item; the three
    items that follow are [itemEOF]. *)
Lemma nextItem_after_end_witness :
  nextState (after latin1Tables 1 (lex "t" [] true)) = None /\
  Forall (fun it => Item.typ it = itemEOF)
         (items latin1Tables 3 (after latin1Tables 1 (lex "t" [] true))).
Proof.
  split; [reflexivity|].
  apply (nextItem_after_end latin1Tables
           (after latin1Tables 1 (lex "t" [] true)) 3).
  reflexivity.
Defined.

(* ================================================================= *)
(** ** Positions never go below zero *)

Lemma preserves_ret {A : Type} (P : lexer -> Prop) (a : A) :
  preserves P (ret a).
Proof. intros l H. exact H. Qed.

Lemma preserves_bind {A B : Type} (P : lexer -> Prop) (m : M A)
      (f : A -> M B) :
  preserves P m -> (forall a, preserves P (f a)) -> preserves P (bind m f).
Proof.
  intros Hm Hf l H. unfold bind. specialize (Hm l H).
  destruct (m l) as [a l']. apply Hf. exact Hm.
Qed.

Lemma preserves_call (P : lexer -> Prop) (f : lexer -> lexer) :
  (forall l, P l -> P (f l)) -> preserves P (call f).
Proof. intros Hf l H. apply Hf. exact H. Qed.

Lemma preserves_get {A : Type} (P : lexer -> Prop) (f : lexer -> A) :
  preserves P (get f).
Proof. intros l H. exact H. Qed.

Lemma decode_width_nonneg (s : list ascii) :
  0 <= snd (utf8.DecodeRuneInString s).
Proof.
  destruct s as [|c s]; [cbn; lia|].
  destruct (utf8.DecodeRuneInString (c :: s)) as [r w] eqn:D.
  apply decode_cases in D. cbn. destruct D as [?|[?|?]]; lia.
Qed.

Lemma next_pos (l : lexer) :
  0 <= pos l ->
  0 <= width (snd (next l)) <= pos (snd (next l)).
Proof.
  intros P. unfold next. destruct (len (input l) <=? pos l); [cbn; lia|].
  pose proof (decode_width_nonneg (data_of l)).
  destruct (utf8.DecodeRuneInString (data_of l)) as [r w].
  cbn [snd] in *. destruct (r =? LF); cbn; lia.
Qed.

Lemma next_preserves : preserves pos_nonneg next.
Proof. intros l H. pose proof (next_pos l H). unfold pos_nonneg. lia. Qed.

Lemma backup_pos (l : lexer) : pos (backup l) = pos l - width l.
Proof. unfold backup. destruct (_ && _); reflexivity. Qed.

Lemma accept_preserves (valid : string) : preserves pos_nonneg (accept valid).
Proof.
  intros l P. unfold accept, pos_nonneg in *. pose proof (next_pos l P).
  destruct (next l) as [r l1]. cbn [snd] in *.
  destruct (ContainsRune valid r); cbn [snd]; rewrite ?backup_pos; lia.
Qed.

Lemma acceptRun_loop_pos (fuel : nat) (valid : string) (l : lexer) :
  0 <= pos l ->
  0 <= width (acceptRun_loop fuel valid l) <= pos (acceptRun_loop fuel valid l).
Proof.
  revert l. induction fuel as [|fuel IH]; intros l P; cbn [acceptRun_loop];
    pose proof (next_pos l P); destruct (next l) as [r l1]; cbn [snd] in *;
    destruct (ContainsRune valid r); try assumption.
  apply IH. lia.
Qed.

Lemma acceptRun_pos (valid : string) (l : lexer) :
  pos_nonneg l -> pos_nonneg (acceptRun valid l).
Proof.
  unfold pos_nonneg. intros P. unfold acceptRun. rewrite backup_pos.
  pose proof (acceptRun_loop_pos (remaining l) valid l P). lia.
Qed.

Section Positions.

Variable T : Tables.

Ltac preserve :=
  repeat first
    [ apply preserves_ret
    | apply preserves_get
    | apply accept_preserves
    | apply next_preserves
    | apply preserves_call; apply acceptRun_pos
    | apply preserves_bind; [|intros ?]
    | match goal with
      | |- preserves _ (if ?b then _ else _) => destruct b
      end ].

Lemma scanNumber_preserves : preserves pos_nonneg (scanNumber T).
Proof. unfold scanNumber. preserve. Qed.

Lemma lexNumber_pos (l : lexer) : pos_nonneg l -> result_pos (lexNumber T l).
Proof.
  intros P. unfold lexNumber, badNumber.
  pose proof (scanNumber_preserves l P) as P1.
  destruct (scanNumber T l) as [ok l1]. cbn [snd] in P1.
  destruct (negb ok); [exact P1|].
  destruct (_ || _); [|exact P1].
  pose proof (scanNumber_preserves l1 P1) as P2.
  destruct (scanNumber T l1) as [ok2 l2]. cbn [snd] in P2.
  destruct (_ || _); exact P2.
Qed.

Lemma range_str_lower (s : list ascii) (p : Z * Z) :
  In p (range_str s) -> 0 <= fst p.
Proof. apply range_from_lower. Qed.

Lemma alnum_loop_lower (rs : list (Z * Z)) (i0 r0 : Z) :
  (forall p, In p rs -> 0 <= fst p) -> 0 <= i0 ->
  0 <= fst (alnum_loop T rs i0 r0).
Proof.
  revert i0 r0. induction rs as [|[i' r'] rs IH]; intros i0 r0 H H0;
    cbn [alnum_loop]; [assumption|].
  assert (0 <= i') by (apply (H (i', r')); left; reflexivity).
  destruct (negb _); [assumption|].
  apply IH; [|assumption]. intros p Hp. apply H. right. assumption.
Qed.

Lemma scanAlphaNumeric_lower (data : list ascii) :
  0 <= fst (fst (scanAlphaNumeric T data)).
Proof.
  unfold scanAlphaNumeric.
  pose proof (alnum_loop_lower (range_str data) 0 0
                (range_str_lower data) ltac:(lia)) as H.
  destruct (alnum_loop T (range_str data) 0 0) as [i r]. cbn [fst] in H.
  destruct (isAlphaNumeric T r); cbn [fst]; [apply len_nonneg|assumption].
Qed.

Lemma lexIdentifier_pos (l : lexer) :
  pos_nonneg l -> result_pos (lexIdentifier T l).
Proof.
  unfold result_pos, pos_nonneg. intros P. unfold lexIdentifier.
  pose proof (scanAlphaNumeric_lower (data_of l)) as H.
  destruct (scanAlphaNumeric T (data_of l)) as [[i r] w]. cbn [fst] in H.
  destruct (negb _); cbn; lia.
Qed.

Lemma lexFieldOrVariable_pos (l : lexer) (typ : itemType) :
  pos_nonneg l -> result_pos (lexFieldOrVariable T l typ).
Proof.
  unfold result_pos, pos_nonneg. intros P. unfold lexFieldOrVariable.
  destruct (atTerminator l).
  - destruct (is_typ typ itemVariable); cbn; lia.
  - pose proof (scanAlphaNumeric_lower (data_of l)) as H.
    destruct (scanAlphaNumeric T (data_of l)) as [[i r] w]. cbn [fst] in H.
    destruct (negb _); cbn; lia.
Qed.

Lemma lexVariable_pos (l : lexer) :
  pos_nonneg l -> result_pos (lexVariable T l).
Proof.
  intros P. unfold lexVariable. destruct (atTerminator l); [exact P|].
  apply lexFieldOrVariable_pos. exact P.
Qed.

End Positions.

Lemma lexChar_loop_lower (data : list ascii) (rs : list (Z * Z)) (i : Z) :
  (forall p, In p rs -> 0 <= fst p) ->
  lexChar_loop data rs = ScanEnd i -> 0 <= i.
Proof.
  induction rs as [|[i' r'] rs IH]; intros H; cbn [lexChar_loop];
    [discriminate|].
  assert (0 <= i') by (apply (H (i', r')); left; reflexivity).
  assert (H' : forall p, In p rs -> 0 <= fst p)
    by (intros p Hp; apply H; right; assumption).
  repeat match goal with
  | |- context [if ?b then _ else _] => destruct b
  end; try discriminate; try (apply IH; assumption).
  intros [= <-]. assumption.
Qed.

Lemma lexQuote_loop_lower (data : list ascii) (rs : list (Z * Z)) (i : Z) :
  (forall p, In p rs -> 0 <= fst p) ->
  lexQuote_loop data rs = ScanEnd i -> 0 <= i.
Proof.
  induction rs as [|[i' r'] rs IH]; intros H; cbn [lexQuote_loop];
    [discriminate|].
  assert (0 <= i') by (apply (H (i', r')); left; reflexivity).
  assert (H' : forall p, In p rs -> 0 <= fst p)
    by (intros p Hp; apply H; right; assumption).
  repeat match goal with
  | |- context [if ?b then _ else _] => destruct b
  end; try discriminate; try (apply IH; assumption).
  intros [= <-]. assumption.
Qed.

Lemma lexRawQuote_loop_lower (rs : list (Z * Z)) (i0 ln : Z) :
  (forall p, In p rs -> 0 <= fst p) -> 0 <= i0 ->
  0 <= snd (fst (lexRawQuote_loop rs i0 ln)).
Proof.
  revert i0 ln. induction rs as [|[i' r'] rs IH]; intros i0 ln H H0;
    cbn [lexRawQuote_loop]; [assumption|].
  assert (0 <= i') by (apply (H (i', r')); left; reflexivity).
  assert (H' : forall p, In p rs -> 0 <= fst p)
    by (intros p Hp; apply H; right; assumption).
  destruct (r' =? LF); [apply IH; assumption|].
  destruct (r' =? BQUOTE); [assumption|apply IH; assumption].
Qed.

Lemma lexWhitespace_loop_lower (rs : list (Z * Z)) (i0 r0 ln : Z) :
  (forall p, In p rs -> 0 <= fst p) -> 0 <= i0 ->
  0 <= fst (fst (lexWhitespace_loop rs i0 r0 ln)).
Proof.
  revert i0 r0 ln. induction rs as [|[i' r'] rs IH]; intros i0 r0 ln H H0;
    cbn [lexWhitespace_loop]; [assumption|].
  assert (0 <= i') by (apply (H (i', r')); left; reflexivity).
  assert (H' : forall p, In p rs -> 0 <= fst p)
    by (intros p Hp; apply H; right; assumption).
  destruct (isSpaceTabCR r'); [apply IH; assumption|].
  destruct (r' =? LF); [apply IH; assumption|assumption].
Qed.

Lemma lexChar_pos (l : lexer) : pos_nonneg l -> result_pos (lexChar l).
Proof.
  unfold result_pos, pos_nonneg. intros P. unfold lexChar.
  destruct (lexChar_loop _ _) as [|i|] eqn:E; try exact P.
  apply lexChar_loop_lower in E; [|apply range_str_lower]. cbn. lia.
Qed.

Lemma lexQuote_pos (l : lexer) : pos_nonneg l -> result_pos (lexQuote l).
Proof.
  unfold result_pos, pos_nonneg. intros P. unfold lexQuote.
  destruct (lexQuote_loop _ _) as [|i|] eqn:E; try exact P.
  apply lexQuote_loop_lower in E; [|apply range_str_lower]. cbn. lia.
Qed.

Lemma lexRawQuote_pos (l : lexer) : pos_nonneg l -> result_pos (lexRawQuote l).
Proof.
  unfold result_pos, pos_nonneg. intros P. unfold lexRawQuote.
  pose proof (lexRawQuote_loop_lower (range_str (data_of l)) 0 (line l)
                (range_str_lower _) ltac:(lia)) as H.
  destruct (lexRawQuote_loop _ _ _) as [[e i] ln]. cbn [fst snd] in H.
  destruct (negb e); cbn; lia.
Qed.

Lemma lexComment_pos (l : lexer) : pos_nonneg l -> result_pos (lexComment l).
Proof.
  unfold result_pos, pos_nonneg. intros P. unfold lexComment.
  pose proof (IndexByte_lower (data_of l) LF).
  pose proof (len_nonneg (input l)).
  destruct (IndexByte (data_of l) LF <? 0) eqn:E;
    destruct (emitComment l) eqn:C; cbn; rewrite ?C; cbn; lia.
Qed.

Lemma lexWhitespace_pos (l : lexer) :
  pos_nonneg l -> result_pos (lexWhitespace l).
Proof.
  intros P. unfold lexWhitespace.
  pose proof (lexWhitespace_loop_lower (range_str (data_of l)) 0 eof (line l)
                (range_str_lower _) ltac:(lia)) as H.
  destruct (lexWhitespace_loop _ _ _ _) as [[i r] ln]. cbn [fst snd] in H.
  assert (Q : forall l', pos l' = (if r =? eof then pos l
                                   else if negb (i =? 0) then pos l + i
                                   else pos l) ->
                         pos_nonneg l').
  { unfold pos_nonneg in *. intros l' ->.
    destruct (r =? eof); [lia|]. destruct (negb _); lia. }
  destruct (_ || _).
  - apply Q. destruct (r =? eof); [|destruct (negb _)]; reflexivity.
  - destruct (r =? rune "#").
    + apply lexComment_pos. apply Q.
      destruct (r =? eof); [|destruct (negb _)]; reflexivity.
    + apply Q. destruct (r =? eof); [|destruct (negb _)]; reflexivity.
Qed.

Lemma lexInActionSpace_body_pos (inside : lexer -> result) (l : lexer) :
  (forall l', pos_nonneg l' -> result_pos (inside l')) ->
  pos_nonneg l -> result_pos (lexInActionSpace_body inside l).
Proof.
  unfold result_pos, pos_nonneg. intros Hi P. unfold lexInActionSpace_body.
  pose proof (lexInActionSpace_loop_lower 0 (range_str (data_of l))
                (mkSpaceScan 0 eof (line l) false false)
                (range_str_lower _) ltac:(cbn; lia)) as H.
  cbv zeta.
  repeat lazymatch goal with
  | |- 0 <= pos (snd (if ?b then _ else _)) => destruct b
  end; try (apply Hi); cbn; lia.
Qed.

Section PositionsOfActions.

Variable T : Tables.

Lemma lexInsideAction_body_pos (space : lexer -> result) (l : lexer) :
  (forall l', pos_nonneg l' -> result_pos (space l')) ->
  pos_nonneg l -> result_pos (lexInsideAction_body T space l).
Proof.
  intros Hs P. unfold lexInsideAction_body.
  destruct (len (data_of l) =? 0).
  { destruct (0 <? parenDepth l); exact P. }
  destruct (match range_str (data_of l) with p :: _ => p | [] => (0, 0) end)
    as [i r].
  assert (P1 : pos_nonneg (set_pos (set_width l 1) (pos (set_width l 1) + 1)))
    by (unfold pos_nonneg in *; cbn; lia).
  cbv beta iota zeta delta [emit].
  repeat lazymatch goal with
  | |- result_pos (if ?b then _ else _) => destruct b
  end;
  first [ apply Hs; assumption
        | apply lexNumber_pos; assumption
        | apply lexIdentifier_pos; assumption
        | apply lexFieldOrVariable_pos; assumption
        | apply lexQuote_pos; assumption
        | apply lexRawQuote_pos; assumption
        | apply lexVariable_pos; assumption
        | apply lexChar_pos; assumption
        | unfold result_pos, pos_nonneg in *; cbn; lia ].
Qed.

Lemma lexInsideAction_pos (l : lexer) :
  pos_nonneg l -> result_pos (lexInsideAction T l).
Proof.
  unfold lexInsideAction. apply lexInsideAction_body_pos.
  intros l' P'. apply lexInActionSpace_body_pos; [|exact P'].
  intros l'' P''. exact P''.
Qed.

Lemma lexInActionSpace_pos (l : lexer) :
  pos_nonneg l -> result_pos (lexInActionSpace T l).
Proof.
  unfold lexInActionSpace. apply lexInActionSpace_body_pos.
  apply lexInsideAction_pos.
Qed.

Lemma run_state_pos (st : stateFn) (l : lexer) :
  pos_nonneg l -> result_pos (run_state T st l).
Proof.
  destruct st; cbn [run_state];
    [ apply lexWhitespace_pos | apply lexInsideAction_pos
    | apply lexInActionSpace_pos ].
Qed.

(** Induction on the loop of [nextItem]: a property of the lexer before,
    the item and the lexer after holds when it holds where the loop
    returns, and is carried over each empty item. *)
Lemma nextItem_ind (P : lexer -> item -> lexer -> Prop) :
  (forall l, nextState l = None ->
             P l (fst (emit itemEOF l)) (snd (emit itemEOF l))) ->
  (forall l st ret nxt l1,
      nextState l = Some st -> run_state T st l = (ret, nxt, l1) ->
      nxt = None \/ Item.notEmpty ret = true ->
      P l ret (set_nextState l1 nxt)) ->
  (forall l l1 it l',
      nextState l = Some StWhitespace ->
      lexWhitespace l = (Item.zero, Some StWhitespace, l1) ->
      P (set_nextState l1 (Some StWhitespace)) it l' -> P l it l') ->
  forall l, P l (fst (nextItem T l)) (snd (nextItem T l)).
Proof.
  intros Hend Hret Hloop l.
  remember (remaining l) as n eqn:Hn.
  assert (Hle : (remaining l <= n)%nat) by lia. clear Hn.
  revert l Hle. induction n as [|n IH]; intros l Hle;
    rewrite nextItem_unfold;
    (destruct (nextState l) as [st|] eqn:S; [|apply Hend; assumption]);
    pose proof (run_state_progress T st l) as Pr;
    pose proof (Hret l st) as Hret';
    destruct (run_state T st l) as [[ret nxt] l1] eqn:R; cbn [fst snd] in Pr;
    specialize (Hret' ret nxt l1 S eq_refl);
    (destruct nxt as [st'|]; [|apply Hret'; left; reflexivity]);
    (destruct (Item.notEmpty ret) eqn:E; [apply Hret'; right; reflexivity|]);
    specialize (Pr eq_refl); [lia|].
  assert (st = StWhitespace /\ ret = Item.zero /\ st' = StWhitespace)
    as (-> & -> & ->).
  { destruct st; cbn [run_state] in R.
    - pose proof (lexWhitespace_whitespace l) as W. rewrite R in W. cbn in W.
      destruct st'; try contradiction.
      + destruct W as [[_ W]|W]; [congruence|auto].
      + destruct W. congruence.
    - pose proof (lexInsideAction_action T l) as W. rewrite R in W.
      destruct W. congruence.
    - pose proof (lexInActionSpace_action T l) as W. rewrite R in W.
      destruct W. congruence. }
  apply (Hloop l l1); [assumption|exact R|].
  apply IH. rewrite remaining_set_nextState. lia.
Qed.

Lemma nextItem_pos (l : lexer) :
  pos_nonneg l -> pos_nonneg (snd (nextItem T l)).
Proof.
  apply (nextItem_ind (fun l _ l' => pos_nonneg l -> pos_nonneg l')).
  - intros l0 _ P. exact P.
  - intros l0 st ret nxt l1 _ R _ P.
    pose proof (run_state_pos st l0 P) as Q. rewrite R in Q. exact Q.
  - intros l0 l1 it l' _ R IH P. apply IH.
    pose proof (lexWhitespace_pos l0 P) as Q. rewrite R in Q. exact Q.
Qed.

(** Every lexer reached from [lex] has a position that is not negative. *)
Lemma after_pos (n : nat) (l : lexer) :
  pos_nonneg l -> pos_nonneg (after T n l).
Proof.
  revert l. induction n as [|n IH]; intros l P; cbn [after]; [exact P|].
  apply IH, nextItem_pos, P.
Qed.

End PositionsOfActions.

(* ================================================================= *)
(** ** The delimiters of actions *)

Section Delimiters.

Variable T : Tables.

Lemma alternates_after_end (b : bool) (n : nat) (l : lexer) :
  nextState l = None ->
  alternates b (map Item.typ (items T n l)) = true.
Proof.
  intros H. pose proof (ended_items T n l H) as F.
  induction F as [|it its Ht _ IH]; [reflexivity|].
  cbn [map alternates]. rewrite Ht. exact IH.
Qed.

Lemma alternates_from (n : nat) (l : lexer) :
  alternates
    (match nextState l with
     | Some StInsideAction | Some StInActionSpace => false
     | _ => true
     end)
    (map Item.typ (items T n l)) = true.
Proof.
  revert l. induction n as [|n IH]; intros l; [reflexivity|].
  rewrite items_S. cbn [map alternates].
  pose proof (nextItem_step T l) as [_ H].
  specialize (IH (snd (nextItem T l))).
  pose proof (fun b => alternates_after_end b n (snd (nextItem T l))) as E.
  destruct (nextItem T l) as [it l']. cbn [fst snd] in *.
  destruct (nextState l) as [[]|].
  - destruct H as [[-> H]|[[-> H]|[-> H]]]; rewrite H in *; cbn; auto.
  - destruct H as [[[->| ->] H]|[[-> H]|[Ht [H|H]]]]; rewrite H in *; cbn;
      auto; destruct (Item.typ it); try discriminate; cbn; auto.
  - destruct H as [[[->| ->] H]|[[-> H]|[Ht [H|H]]]]; rewrite H in *; cbn;
      auto; destruct (Item.typ it); try discriminate; cbn; auto.
  - destruct H as [-> H]. cbn. auto.
Qed.

(** In the items of every input, left and right delimiters alternate,
    starting with a left one. *)
Lemma delims_alternate (name : string) (input : list ascii) (ec : bool)
      (n : nat) :
  alternates true (map Item.typ (items T n (lex name input ec))) = true.
Proof. apply (alternates_from n (lex name input ec)). Qed.

End Delimiters.

(* ================================================================= *)
(** ** Names end at a terminator *)

Lemma name_ok_other (it : item) (nxt : option stateFn) (l : lexer) :
  is_name (Item.typ it) = false -> name_ok (it, nxt, l).
Proof. cbn. intros H H'. congruence. Qed.

Lemma name_ok_emit (t : itemType) (nxt : option stateFn) (l : lexer) :
  atTerminator l = true ->
  name_ok (let '(ret, l') := emit t l in (ret, nxt, l')).
Proof. intros H _. split; [exact H|reflexivity]. Qed.

Section Names.

Variable T : Tables.

Lemma lexNumber_typ (l : lexer) :
  Item.typ (fst (fst (lexNumber T l))) = itemError \/
  Item.typ (fst (fst (lexNumber T l))) = itemNumber \/
  Item.typ (fst (fst (lexNumber T l))) = itemComplex.
Proof.
  unfold lexNumber, badNumber.
  destruct (scanNumber T l) as [ok l1]. destruct (negb ok); [cbn; auto|].
  destruct (_ || _); [|cbn; auto].
  destruct (scanNumber T l1) as [ok2 l2].
  destruct (_ || _); cbn; auto.
Qed.

Lemma lexNumber_name (l : lexer) : name_ok (lexNumber T l).
Proof.
  pose proof (lexNumber_typ l) as H.
  destruct (lexNumber T l) as [[it nxt] l']. cbn [fst] in H.
  apply name_ok_other. destruct H as [->|[->| ->]]; reflexivity.
Qed.

Lemma lexChar_name (l : lexer) : name_ok (lexChar l).
Proof.
  unfold lexChar. destruct (lexChar_loop _ _); apply name_ok_other;
    reflexivity.
Qed.

Lemma lexQuote_name (l : lexer) : name_ok (lexQuote l).
Proof.
  unfold lexQuote. destruct (lexQuote_loop _ _); apply name_ok_other;
    reflexivity.
Qed.

Lemma lexRawQuote_name (l : lexer) : name_ok (lexRawQuote l).
Proof.
  unfold lexRawQuote. destruct (lexRawQuote_loop _ _ _) as [[e i] ln].
  destruct (negb e); apply name_ok_other; reflexivity.
Qed.

Lemma lexIdentifier_name (l : lexer) : name_ok (lexIdentifier T l).
Proof.
  unfold lexIdentifier.
  destruct (scanAlphaNumeric T (data_of l)) as [[i r] w].
  destruct (atTerminator _) eqn:E; cbn [negb].
  - apply name_ok_emit. exact E.
  - apply name_ok_other. reflexivity.
Qed.

Lemma lexFieldOrVariable_name (l : lexer) (typ : itemType) :
  name_ok (lexFieldOrVariable T l typ).
Proof.
  unfold lexFieldOrVariable. destruct (atTerminator l) eqn:E.
  - destruct (is_typ typ itemVariable); apply name_ok_emit; exact E.
  - destruct (scanAlphaNumeric T (data_of l)) as [[i r] w].
    match goal with
    | |- context [negb (atTerminator ?x)] => destruct (atTerminator x) eqn:E'
    end; cbn [negb].
    + apply name_ok_emit. exact E'.
    + apply name_ok_other. reflexivity.
Qed.

Lemma lexVariable_name (l : lexer) : name_ok (lexVariable T l).
Proof.
  unfold lexVariable. destruct (atTerminator l) eqn:E.
  - apply name_ok_emit. exact E.
  - apply lexFieldOrVariable_name.
Qed.

Lemma first_rune_index (data : list ascii) :
  fst (match range_str data with p :: _ => p | [] => (0, 0) end) = 0.
Proof.
  destruct data as [|c s]; [reflexivity|]. rewrite range_str_cons.
  reflexivity.
Qed.

Lemma len_data_of (l : lexer) :
  0 <= pos l -> len (data_of l) = Z.max 0 (len (input l) - pos l).
Proof.
  unfold data_of, slice_from, len. intros P. rewrite length_skipn. lia.
Qed.

Lemma lexInsideAction_body_name (space : lexer -> result) (l : lexer) :
  (forall l', name_ok (space l')) ->
  pos_nonneg l -> name_ok (lexInsideAction_body T space l).
Proof.
  intros Hs P. unfold lexInsideAction_body.
  destruct (len (data_of l) =? 0) eqn:L0.
  { destruct (0 <? parenDepth l); apply name_ok_other; reflexivity. }
  pose proof (first_rune_index (data_of l)) as Hi.
  destruct (match range_str (data_of l) with p :: _ => p | [] => (0, 0) end)
    as [i r].
  cbn [fst] in Hi. subst i.
  cbv beta iota zeta delta [emit].
  repeat lazymatch goal with
  | |- name_ok (if ?b then _ else _) => destruct b eqn:?
  end;
  first [ apply Hs
        | apply lexNumber_name
        | apply lexIdentifier_name
        | apply lexFieldOrVariable_name
        | apply lexQuote_name
        | apply lexRawQuote_name
        | apply lexVariable_name
        | apply lexChar_name
        | apply name_ok_other; reflexivity
        | idtac ].
  (* the dot at the end of the input *)
  intros _. split; [|reflexivity].
  unfold atTerminator. cbn [input pos set_pos set_width set_start set_startLine].
  unfold pos_nonneg in P. rewrite (len_data_of l P) in *.
  replace (len (input l) <=? pos l + 1) with true; [reflexivity|].
  symmetry. apply Z.leb_le. lia.
Qed.

Lemma lexInActionSpace_body_name (inside : lexer -> result) (l : lexer) :
  (forall l', name_ok (inside l')) ->
  name_ok (lexInActionSpace_body inside l).
Proof.
  intros Hi. unfold lexInActionSpace_body. cbv zeta.
  repeat lazymatch goal with
  | |- name_ok (if ?b then _ else _) => destruct b
  end; first [ apply Hi | apply name_ok_other; reflexivity ].
Qed.

End Names.

Section NamesOfItems.

Variable T : Tables.

Lemma lexInsideAction_name (l : lexer) :
  pos_nonneg l -> name_ok (lexInsideAction T l).
Proof.
  unfold lexInsideAction. apply lexInsideAction_body_name.
  intros l'. apply lexInActionSpace_body_name.
  intros l''. apply name_ok_other. reflexivity.
Qed.

Lemma lexInActionSpace_name (l : lexer) :
  pos_nonneg l -> name_ok (lexInActionSpace T l).
Proof.
  intros P. unfold lexInActionSpace, lexInActionSpace_body. cbv zeta.
  pose proof (lexInActionSpace_loop_lower 0 (range_str (data_of l))
                (mkSpaceScan 0 eof (line l) false false)
                (range_str_lower _) ltac:(cbn; lia)) as H.
  repeat lazymatch goal with
  | |- name_ok (if ?b then _ else _) => destruct b
  end;
  first [ apply lexInsideAction_name; unfold pos_nonneg in *; cbn; lia
        | apply name_ok_other; reflexivity ].
Qed.

Lemma lexWhitespace_name (l : lexer) : name_ok (lexWhitespace l).
Proof.
  pose proof (lexWhitespace_whitespace l) as H.
  destruct (lexWhitespace l) as [[it nxt] l']. cbn in H.
  apply name_ok_other.
  destruct nxt as [[]|]; try contradiction;
    repeat match goal with
    | H : _ /\ _ |- _ => destruct H
    | H : _ \/ _ |- _ => destruct H
    end; subst; try reflexivity;
    match goal with H : Item.typ it = _ |- _ => rewrite H end; reflexivity.
Qed.

Lemma run_state_name (st : stateFn) (l : lexer) :
  pos_nonneg l -> name_ok (run_state T st l).
Proof.
  destruct st; cbn [run_state]; intros P;
    [ apply lexWhitespace_name | apply lexInsideAction_name, P
    | apply lexInActionSpace_name, P ].
Qed.

(** The dichotomy of the two scanners of names: at the end of the scan the
    lexer is at a terminator and the name is emitted, or it is not and the
    error is ["bad character"]. *)
Lemma lexIdentifier_ends (l : lexer) :
  let '(it, nxt, l') := lexIdentifier T l in
  if atTerminator l'
  then is_name (Item.typ it) = true /\ nxt = Some StInsideAction
  else nxt = None /\
       exists r, it = errorf l' "bad character %#U" [ArgRune r].
Proof.
  unfold lexIdentifier.
  destruct (scanAlphaNumeric T (data_of l)) as [[i r] w].
  match goal with
  | |- context [negb (atTerminator ?x)] => destruct (atTerminator x) eqn:E
  end; cbn [negb].
  - cbv beta iota zeta delta [emit].
    change (atTerminator (set_startLine (set_start ?x ?a) ?b))
      with (atTerminator x).
    rewrite E. split; [|reflexivity].
    repeat match goal with
    | |- context [if ?b then _ else _] => destruct b
    end; reflexivity.
  - rewrite E. split; [reflexivity|]. exists r. reflexivity.
Qed.

Lemma lexFieldOrVariable_ends (l : lexer) (typ : itemType) :
  typ = itemField \/ typ = itemVariable ->
  let '(it, nxt, l') := lexFieldOrVariable T l typ in
  if atTerminator l'
  then is_name (Item.typ it) = true /\ nxt = Some StInsideAction
  else nxt = None /\
       exists r, it = errorf l' "bad character %#U" [ArgRune r].
Proof.
  intros Ht. unfold lexFieldOrVariable. destruct (atTerminator l) eqn:E0.
  - destruct (is_typ typ itemVariable); cbv beta iota zeta delta [emit];
      change (atTerminator (set_startLine (set_start ?x ?a) ?b))
        with (atTerminator x);
      rewrite E0; split; reflexivity.
  - destruct (scanAlphaNumeric T (data_of l)) as [[i r] w].
    match goal with
    | |- context [negb (atTerminator ?x)] => destruct (atTerminator x) eqn:E
    end; cbn [negb].
    + cbv beta iota zeta delta [emit].
      change (atTerminator (set_startLine (set_start ?x ?a) ?b))
        with (atTerminator x).
      rewrite E. split; [|reflexivity].
      destruct Ht as [-> | ->]; reflexivity.
    + rewrite E. split; [reflexivity|]. exists r. reflexivity.
Qed.

(** C5. Every identifier, keyword, field or variable that [nextItem]
    returns ends where the lexer stands at a terminator (one of
    [. , | : ( ) space tab CR LF ;]) or at the end of the input; the
    functions that scan them report ["bad character"] and end the state
    machine otherwise.  The input [$x+2] gives that error, and [$x +2]
    gives a variable, a space and a signed number. *)
Theorem names_end_at_terminator :
  (forall l : lexer,
      pos_nonneg l ->
      is_name (Item.typ (fst (nextItem T l))) = true ->
      atTerminator (snd (nextItem T l)) = true /\
      spans (fst (nextItem T l)) (snd (nextItem T l))) /\
  (forall l : lexer,
      let '(it, nxt, l') := lexIdentifier T l in
      if atTerminator l'
      then is_name (Item.typ it) = true /\ nxt = Some StInsideAction
      else nxt = None /\
           exists r, it = errorf l' "bad character %#U" [ArgRune r]) /\
  (forall (l : lexer) (typ : itemType),
      typ = itemField \/ typ = itemVariable ->
      let '(it, nxt, l') := lexFieldOrVariable T l typ in
      if atTerminator l'
      then is_name (Item.typ it) = true /\ nxt = Some StInsideAction
      else nxt = None /\
           exists r, it = errorf l' "bad character %#U" [ArgRune r]) /\
  lex_tv T (lit "$x+2") =
    [ (itemLeftDelim, tx "");
      (itemError, Sprintf "bad character %#U" [ArgRune (rune "+")]) ] /\
  lex_tv T (lit "$x +2") =
    [ (itemLeftDelim, tx ""); (itemVariable, tx "$x"); (itemSpace, tx " ");
      (itemNumber, tx "+2"); (itemRightDelim, tx ""); (itemEOF, tx "") ].
Proof.
  split; [|split; [|split; [|split]]].
  - intros l.
    apply (nextItem_ind T
             (fun l it l' =>
                pos_nonneg l -> is_name (Item.typ it) = true ->
                atTerminator l' = true /\ spans it l')).
    + intros l0 _ _ [=].
    + intros l0 st ret nxt l1 _ R _ P N.
      pose proof (run_state_name st l0 P) as H. rewrite R in H.
      exact (H N).
    + intros l0 l1 it l' _ R IH P. apply IH.
      pose proof (lexWhitespace_pos l0 P) as Q. rewrite R in Q. exact Q.
  - apply lexIdentifier_ends.
  - apply lexFieldOrVariable_ends.
  - vm_compute. reflexivity.
  - vm_compute. reflexivity.
Qed.

End NamesOfItems.

(** In [a.b c], the identifier [a] ends at the [.] that follows it. *)
Lemma names_end_at_terminator_witness :
  let l := after latin1Tables 1 (lex "t" (lit "a.b c") true) in
  pos_nonneg l /\
  is_name (Item.typ (fst (nextItem latin1Tables l))) = true /\
  atTerminator (snd (nextItem latin1Tables l)) = true /\
  spans (fst (nextItem latin1Tables l)) (snd (nextItem latin1Tables l)).
Proof.
  cbv zeta. split; [vm_compute; discriminate|].
  split; [vm_compute; reflexivity|].
  apply (proj1 (names_end_at_terminator latin1Tables)).
  - vm_compute. discriminate.
  - vm_compute. reflexivity.
Defined.

(* ================================================================= *)
(** ** Numbers *)

Lemma ensures_bind {A B : Type} (m : M A) (f : A -> M B)
      (Q : B -> lexer -> Prop) :
  (forall a, ensures (f a) Q) -> ensures (bind m f) Q.
Proof.
  intros H l. unfold bind. destruct (m l) as [a l']. apply H.
Qed.

Section Numbers.

Variable T : Tables.

(** When [scanNumber] succeeds, the rune that follows is not
    alphanumeric. *)
Lemma scanNumber_ok :
  ensures (scanNumber T)
          (fun ok l' => ok = true -> isAlphaNumeric T (peek l') = false).
Proof.
  unfold scanNumber. do 9 (apply ensures_bind; intros ?).
  intros l. unfold bind, get. cbn [fst snd].
  destruct (isAlphaNumeric T (peek l)) eqn:E.
  - destruct (next l). cbn. discriminate.
  - cbn. intros _. exact E.
Qed.

(** [lexNumber] emits a number or a complex number only where the rune
    that follows the literal is not alphanumeric (a letter, a digit or
    [_]); otherwise it reports ["bad number syntax"] and ends the state
    machine. *)
Lemma lexNumber_outcome (l : lexer) :
  let '(it, nxt, l') := lexNumber T l in
  ((Item.typ it = itemNumber \/ Item.typ it = itemComplex) /\
   nxt = Some StInsideAction /\
   isAlphaNumeric T (peek l') = false /\ spans it l') \/
  (Item.typ it = itemError /\ nxt = None /\
   exists s, Item.val it = Sprintf "bad number syntax: %q" [ArgString s]).
Proof.
  unfold lexNumber, badNumber.
  pose proof (scanNumber_ok l) as H1.
  destruct (scanNumber T l) as [ok l1]. cbn [fst snd] in H1.
  destruct ok; cbn [negb]; [|right; cbn; eauto].
  specialize (H1 eq_refl).
  destruct (_ || _).
  - pose proof (scanNumber_ok l1) as H2.
    destruct (scanNumber T l1) as [ok2 l2]. cbn [fst snd] in H2.
    destruct ok2; cbn [negb orb]; [|right; cbn; eauto].
    destruct (negb _); [right; cbn; eauto|].
    left. cbn. repeat split; auto.
  - left. cbn. repeat split; auto.
Qed.

End Numbers.

(** C6 on [1@]: the number [1] is followed by [@], which is no terminator;
    the number is emitted, and [@] after it. *)
Lemma number_before_at_sign :
  lex_tv latin1Tables (lit "1@") =
    [ (itemLeftDelim, tx ""); (itemNumber, tx "1"); (itemChar, tx "@");
      (itemEOF, tx "") ] /\
  atTerminator (after latin1Tables 2 (lex "t" (lit "1@") true)) = false.
Proof. split; vm_compute; reflexivity. Qed.

(* ================================================================= *)
(** ** Runes and bytes in step *)

(** The loop over the runes of [body ++ c :: rest], for an ASCII byte [c],
    comes to [c] at its index, whatever bytes [body] holds: no rune runs
    over an ASCII byte.  The ASCII runes seen before are bytes of [body]. *)
Lemma range_from_sync (body : list ascii) :
  forall (k : nat) (i : Z) (c : ascii) (rest : list ascii),
    b2z c < 0x80 -> skip_ok k (body ++ c :: rest) ->
    exists R1,
      range_from k i (body ++ c :: rest) =
        R1 ++ (i + len body, b2z c) :: range_from 0 (i + len body + 1) rest /\
      Forall (fun p => snd p < 0x80 -> In (snd p) (map b2z body)) R1.
Proof.
  induction body as [|b body IH]; intros k i c rest Hc [Hk Hh].
  - destruct k as [|k].
    + exists []. split; [|constructor]. cbn [app].
      rewrite range_from_ascii by assumption.
      change (len []) with 0. rewrite Z.add_0_r. reflexivity.
    + cbn in Hh. inversion Hh as [|? ? Hc' _]. unfold high in Hc'. lia.
  - rewrite len_cons. cbn [app] in *.
    replace (i + (len body + 1)) with (i + 1 + len body) by lia.
    destruct k as [|k].
    + cbn [range_from].
      destruct (utf8.DecodeRuneInString (b :: body ++ c :: rest))
        as [r w] eqn:D.
      apply decode_cases in D.
      assert (S : skip_ok (Z.to_nat w - 1) (body ++ c :: rest)).
      { destruct D as [(-> & _)|[(-> & _)|(W & _ & _ & L & F)]].
        - split; [cbn; lia|constructor].
        - split; [cbn; lia|constructor].
        - replace (Z.to_nat w - 1)%nat with (Z.to_nat (w - 1)) by lia.
          split; assumption. }
      destruct (IH (Z.to_nat w - 1)%nat (i + 1) c rest Hc S) as (R1 & E & F).
      exists ((i, r) :: R1). split.
      * cbn [app]. rewrite E. reflexivity.
      * constructor.
        -- cbn [snd]. intros Hr. left.
           destruct D as [(_ & -> & _)|[(_ & -> & _)|(_ & R & _)]];
             [reflexivity|unfold utf8.RuneError in Hr; lia|lia].
        -- eapply Forall_impl; [|exact F]. intros p Hp Hr. right. auto.
    + cbn [range_from].
      assert (S : skip_ok k (body ++ c :: rest)).
      { cbn in Hk, Hh. split; [lia|]. inversion Hh. assumption. }
      destruct (IH k (i + 1) c rest Hc S) as (R1 & E & F).
      exists R1. split.
      * rewrite E. reflexivity.
      * eapply Forall_impl; [|exact F]. intros p Hp Hr. right. auto.
Qed.

(** An ASCII rune of the loop is a byte of the string. *)
Lemma range_from_ascii_runes (s : list ascii) :
  forall (k : nat) (i : Z) (p : Z * Z),
    In p (range_from k i s) -> snd p < 0x80 -> In (snd p) (map b2z s).
Proof.
  induction s as [|b s IH]; intros k i p; cbn [range_from]; [intros []|].
  destruct k as [|k].
  - destruct (utf8.DecodeRuneInString (b :: s)) as [r w] eqn:D.
    apply decode_cases in D. intros [<-|H] Hr.
    + left. cbn [snd] in *.
      destruct D as [(_ & -> & _)|[(_ & -> & _)|(_ & R & _)]];
        [reflexivity|unfold utf8.RuneError in Hr; lia|lia].
    + right. eapply IH; eassumption.
  - intros H Hr. right. eapply IH; eassumption.
Qed.

Lemma to_nat_len (s : list ascii) : Z.to_nat (len s) = List.length s.
Proof. unfold len. lia. Qed.

(** [l.input[l.pos : l.pos+k]] is a prefix of the data at [l.pos], and
    moving [l.pos] forward drops a prefix of it. *)
Lemma slice_data (l : lexer) (k : Z) :
  slice (input l) (pos l) (pos l + k) = firstn (Z.to_nat k) (data_of l).
Proof.
  unfold slice, data_of, slice_from. f_equal. lia.
Qed.

Lemma data_of_advance (l l' : lexer) (k : Z) :
  0 <= pos l -> 0 <= k -> input l' = input l -> pos l' = pos l + k ->
  data_of l' = skipn (Z.to_nat k) (data_of l).
Proof.
  intros P K I E. unfold data_of, slice_from. rewrite I, E, skipn_skipn.
  f_equal. lia.
Qed.

Lemma firstn_len_app (a b : list ascii) : firstn (Z.to_nat (len a)) (a ++ b) = a.
Proof.
  rewrite to_nat_len, firstn_app, Nat.sub_diag, firstn_all. cbn.
  apply app_nil_r.
Qed.


Lemma data_of_tail (l l' : lexer) (c : ascii) (s : list ascii) :
  0 <= pos l -> input l' = input l -> pos l' = pos l + 1 ->
  data_of l = c :: s -> data_of l' = s.
Proof.
  intros P I E D. rewrite (data_of_advance l l' 1 P ltac:(lia) I E), D.
  reflexivity.
Qed.

Lemma b2z_inj (a b : ascii) : b2z a = b2z b -> a = b.
Proof.
  unfold b2z. intros H. apply N2Z.inj in H.
  rewrite <- (ascii_N_embedding a), <- (ascii_N_embedding b). f_equal. exact H.
Qed.

Lemma not_in_bytes (c : ascii) (s : list ascii) :
  ~ In c s -> ~ In (b2z c) (map b2z s).
Proof.
  intros H H'. apply in_map_iff in H'. destruct H' as (x & E & I).
  apply b2z_inj in E. subst x. contradiction.
Qed.

(** Deciding the [if]s at the head of the left-hand side whose conditions
    compute. *)
Ltac eval_if :=
  repeat lazymatch goal with
  | |- (if ?b then _ else _) = _ =>
      let v := eval vm_compute in b in
      lazymatch v with
      | true => change b with true; cbv iota
      | false => change b with false; cbv iota
      end
  end.

(* ================================================================= *)
(** ** Raw strings *)

Lemma lexRawQuote_loop_found (R1 R2 : list (Z * Z)) (j i0 ln : Z) :
  Forall (fun p => snd p <> BQUOTE) R1 ->
  exists ln', lexRawQuote_loop (R1 ++ (j, BQUOTE) :: R2) i0 ln = (true, j, ln').
Proof.
  revert i0 ln. induction R1 as [|[i r] R1 IH]; intros i0 ln F;
    cbn [app lexRawQuote_loop].
  - change (BQUOTE =? LF) with false. rewrite Z.eqb_refl. eauto.
  - inversion F as [|? ? Hr F']. subst. cbn [snd] in Hr.
    destruct (r =? LF); [apply IH; assumption|].
    destruct (r =? BQUOTE) eqn:E; [lia|]. apply IH. assumption.
Qed.

Lemma lexRawQuote_loop_none (rs : list (Z * Z)) (i0 ln : Z) :
  Forall (fun p => snd p <> BQUOTE) rs ->
  fst (fst (lexRawQuote_loop rs i0 ln)) = false.
Proof.
  revert i0 ln. induction rs as [|[i r] rs IH]; intros i0 ln F;
    cbn [lexRawQuote_loop]; [reflexivity|].
  inversion F as [|? ? Hr F']. subst. cbn [snd] in Hr.
  destruct (r =? LF); [apply IH; assumption|].
  destruct (r =? BQUOTE) eqn:E; [lia|]. apply IH. assumption.
Qed.

Section RawStrings.

Variable T : Tables.

(** On a backquote [lexInsideAction] consumes it and calls
    [lexRawQuote]. *)
Lemma lexInsideAction_bquote (l : lexer) (s : list ascii) :
  data_of l = bquote :: s ->
  lexInsideAction T l = lexRawQuote (set_pos (set_width l 1) (pos l + 1)).
Proof.
  intros D. unfold lexInsideAction, lexInsideAction_body.
  rewrite D, range_str_cons, decode_ascii by (vm_compute; reflexivity).
  replace (len (bquote :: s) =? 0) with false
    by (rewrite len_cons; pose proof (len_nonneg s); lia).
  cbn [fst snd]. eval_if. reflexivity.
Qed.

(** C8. A backquote opens a raw string.  When another backquote follows,
    [lexInsideAction] emits one [itemRawString] whose value is the bytes
    from the first backquote to the next one, whatever bytes lie between
    them (LF and bslash included), with the line of the opening
    backquote; when none follows before the end of the input, it reports
    ["unterminated raw quoted string"] and ends the state machine. *)
Theorem raw_string (l : lexer) (body rest : list ascii) :
  0 <= pos l -> start l = pos l -> ~ In bquote body ->
  (data_of l = bquote :: body ++ bquote :: rest ->
   let '(it, nxt, l') := lexInsideAction T l in
   it = Item.mk itemRawString (pos l) (Text (bquote :: body ++ [bquote]))
                (startLine l) true /\
   nxt = Some StInsideAction /\
   pos l' = pos l + len body + 2 /\ start l' = pos l') /\
  (data_of l = bquote :: body ->
   let '(it, nxt, l') := lexInsideAction T l in
   it = Item.mk itemError (pos l)
                (Sprintf "unterminated raw quoted string" []) (startLine l)
                true /\
   nxt = None).
Proof.
  intros P S N. apply not_in_bytes in N. split; intros D;
    rewrite (lexInsideAction_bquote l _ D); unfold lexRawQuote;
    set (l1 := set_pos (set_width l 1) (pos l + 1));
    rewrite (data_of_tail l l1 _ _ P eq_refl eq_refl D).
  - destruct (range_from_sync body 0 0 bquote rest ltac:(vm_compute; reflexivity)
                ltac:(split; [cbn; lia|constructor]))
      as (R1 & E & F).
    unfold range_str. rewrite E.
    destruct (lexRawQuote_loop_found R1
                (range_from 0 (0 + len body + 1) rest) (0 + len body) 0
                (line l1)) as (ln' & L).
    { eapply Forall_impl; [|exact F]. intros p Hp Hr. apply N.
      change (b2z bquote) with BQUOTE. rewrite <- Hr. apply Hp. rewrite Hr.
      vm_compute. reflexivity. }
    change (b2z bquote) with BQUOTE. rewrite L. cbn [negb].
    cbn -[slice len]. rewrite S.
    replace (pos l + 1 + (len body + 1)) with (pos l + (len body + 2))
      by lia.
    rewrite slice_data, D.
    replace (Z.to_nat (len body + 2)) with (Datatypes.S (Z.to_nat (len body + 1)))
      by (pose proof (len_nonneg body); lia).
    cbn [firstn].
    replace (len body + 1) with (len (body ++ [bquote]))
      by (rewrite len_app; reflexivity).
    replace (body ++ bquote :: rest) with ((body ++ [bquote]) ++ rest)
      by (rewrite <- app_assoc; reflexivity).
    rewrite firstn_len_app.
    repeat split; try reflexivity; lia.
  - pose proof (lexRawQuote_loop_none (range_str body) 0 (line l1)) as L.
    destruct (lexRawQuote_loop (range_str body) 0 (line l1)) as [[e i] ln].
    cbn [fst] in L. rewrite L.
    + subst l1. unfold errorf. cbn. rewrite S. split; reflexivity.
    + apply Forall_forall. intros p Hp Hr. apply N.
      change (b2z bquote) with BQUOTE. rewrite <- Hr.
      apply (range_from_ascii_runes body 0 0 p Hp). rewrite Hr.
      vm_compute. reflexivity.
Qed.

End RawStrings.

(** The raw string of [`a\] LF [b`], after the left delimiter: one item
    that holds the bslash and the LF. *)
Lemma raw_string_witness :
  let l := after latin1Tables 1
             (lex "t" (bquote :: lit "a" ++ [bslash; nl] ++ lit "b`") true) in
  fst (fst (lexInsideAction latin1Tables l)) =
    Item.mk itemRawString 0
            (Text (bquote :: (lit "a" ++ [bslash; nl] ++ lit "b") ++ [bquote]))
            1 true.
Proof.
  cbv zeta.
  assert (P : 0 <= pos (after latin1Tables 1
                (lex "t" (bquote :: lit "a" ++ [bslash; nl] ++ lit "b`") true)))
    by (vm_compute; discriminate).
  assert (N : ~ In bquote (lit "a" ++ [bslash; nl] ++ lit "b"))
    by (cbn; intuition discriminate).
  pose proof (proj1 (raw_string latin1Tables _
                       (lit "a" ++ [bslash; nl] ++ lit "b") []
                       P eq_refl N) eq_refl) as H.
  destruct (lexInsideAction _ _) as [[it nxt] l']. cbn [fst].
  destruct H as (-> & _). reflexivity.
Defined.

(* ================================================================= *)
(** ** The end of an action at a newline *)

Lemma blank_ascii (c : ascii) : is_blank c -> b2z c < 0x80.
Proof. unfold is_blank, isSpaceTabCR, SP, TAB, CR. lia. Qed.

Lemma slice_empty (s : list ascii) (i : Z) : slice s i i = [].
Proof. unfold slice. rewrite Z.sub_diag. reflexivity. Qed.

(** The loop of [lexInActionSpace] over blanks and then a newline, with no
    backslash seen: it stops after the newline and asks for the right
    delimiter. *)
Lemma lexInActionSpace_loop_newline (ws rest : list ascii) :
  forall (i : Z) (s : spaceScan),
    Forall is_blank ws -> sc_hasInlineBackslash s = false ->
    lexInActionSpace_loop (range_from 0 i (ws ++ nl :: rest)) s =
    mkSpaceScan (i + (len ws + 1)) LF (sc_line s + 1) false true.
Proof.
  induction ws as [|c ws IH]; intros i s F B; cbn [app].
  - rewrite range_from_ascii by (vm_compute; reflexivity).
    cbn [lexInActionSpace_loop]. change (b2z nl) with LF.
    change (isSpaceTabCR LF) with false. rewrite Z.eqb_refl, B.
    reflexivity.
  - inversion F as [|? ? Hc F']. subst.
    rewrite range_from_ascii by (apply blank_ascii; assumption).
    cbn [lexInActionSpace_loop]. unfold is_blank in Hc. rewrite Hc.
    rewrite IH by assumption. cbn [sc_line]. rewrite len_cons.
    f_equal. lia.
Qed.

(** The same over blanks and then [c], a byte that ends the loop without
    more: it stops at [c]. *)
Lemma lexInActionSpace_loop_stop (ws rest : list ascii) (c : ascii) :
  b2z c < 0x80 -> isSpaceTabCR (b2z c) = false ->
  b2z c <> LF -> b2z c <> BACKSLASH ->
  forall (i : Z) (s : spaceScan),
    Forall is_blank ws ->
    lexInActionSpace_loop (range_from 0 i (ws ++ c :: rest)) s =
    mkSpaceScan (i + len ws) (b2z c) (sc_line s) (sc_hasInlineBackslash s)
                (sc_emitRightDelim s).
Proof.
  intros A W L B. induction ws as [|c' ws IH]; intros i s F; cbn [app].
  - rewrite range_from_ascii by assumption. cbn [lexInActionSpace_loop].
    rewrite W. destruct (b2z c =? LF) eqn:E1; [lia|].
    destruct (b2z c =? BACKSLASH) eqn:E2; [lia|].
    change (len []) with 0. rewrite Z.add_0_r. reflexivity.
  - inversion F as [|? ? Hc F']. subst.
    rewrite range_from_ascii by (apply blank_ascii; assumption).
    cbn [lexInActionSpace_loop]. unfold is_blank in Hc. rewrite Hc.
    rewrite IH by assumption.
    cbn [sc_line sc_hasInlineBackslash sc_emitRightDelim]. rewrite len_cons.
    f_equal. lia.
Qed.

Lemma lexInActionSpace_body_newline (k : lexer -> result) (l : lexer)
      (ws rest : list ascii) :
  Forall is_blank ws -> data_of l = ws ++ nl :: rest ->
  lexInActionSpace_body k l =
  (Item.mk itemRightDelim (pos l + (len ws + 1)) (Text []) (line l + 1) true,
   Some StWhitespace,
   right_delim_at l (pos l + (len ws + 1)) (line l + 1)).
Proof.
  intros F D. unfold lexInActionSpace_body. rewrite D. unfold range_str.
  rewrite lexInActionSpace_loop_newline by (assumption || reflexivity).
  cbv beta zeta. cbn [sc_i sc_r sc_line sc_emitRightDelim]. eval_if.
  cbn [orb]. unfold emit. cbn -[slice len]. rewrite slice_empty.
  reflexivity.
Qed.

Section Newlines.

Variable T : Tables.

(** On a space, tab, CR or LF [lexInsideAction] calls [lexInActionSpace],
    which returns without calling back (the recursion of the two functions
    is cut there, see [lexInsideAction_unfold]). *)
Lemma lexInsideAction_space (l : lexer) (c : ascii) (s : list ascii) :
  data_of l = c :: s ->
  b2z c = SP \/ b2z c = LF \/ b2z c = TAB \/ b2z c = CR ->
  lexInsideAction T l =
  lexInActionSpace_body
    (fun l => (errorf l "lexInsideAction re-entered" [], None, l)) l.
Proof.
  intros D H. unfold lexInsideAction, lexInsideAction_body.
  rewrite D, range_str_cons, decode_ascii
    by (unfold SP, LF, TAB, CR in H; lia).
  replace (len (c :: s) =? 0) with false
    by (rewrite len_cons; pose proof (len_nonneg s); lia).
  cbn [fst snd]. rewrite <- D.
  destruct H as [-> |[-> |[-> | ->]]]; eval_if; reflexivity.
Qed.

(** X7.  Inside an action, a newline that follows only spaces, tabs and CRs
    ends the action: the item is the right delimiter, the next state is
    [lexWhitespace] and the newline is consumed.  [lexInActionSpace] does
    not read the paren depth there, and leaves it as it was. *)
Theorem newline_ends_action (l : lexer) (ws rest : list ascii) :
  Forall is_blank ws -> data_of l = ws ++ nl :: rest ->
  nextState l = Some StInsideAction \/ nextState l = Some StInActionSpace ->
  nextItem T l =
  (Item.mk itemRightDelim (pos l + (len ws + 1)) (Text []) (line l + 1) true,
   set_nextState (right_delim_at l (pos l + (len ws + 1)) (line l + 1))
                 (Some StWhitespace)) /\
  parenDepth (snd (nextItem T l)) = parenDepth l.
Proof.
  intros F D S.
  assert (E : forall st, nextState l = Some st ->
                run_state T st l =
                lexInActionSpace_body
                  (match st with
                   | StInsideAction =>
                       fun l => (errorf l "lexInsideAction re-entered" [],
                                 None, l)
                   | _ => lexInsideAction T
                   end) l).
  { intros st Hst. destruct S as [S|S]; rewrite S in Hst;
      injection Hst as <-; cbn [run_state]; [|reflexivity].
    destruct ws as [|c ws]; cbn [app] in D.
    - apply (lexInsideAction_space l nl rest D). right. left. reflexivity.
    - apply (lexInsideAction_space l c _ D).
      inversion F as [|? ? Hc _]. unfold is_blank, isSpaceTabCR in Hc. lia. }
  assert (N : nextItem T l =
    (Item.mk itemRightDelim (pos l + (len ws + 1)) (Text []) (line l + 1) true,
     set_nextState (right_delim_at l (pos l + (len ws + 1)) (line l + 1))
                   (Some StWhitespace))).
  { rewrite nextItem_unfold.
    destruct S as [S|S]; rewrite S; rewrite (E _ S);
      rewrite (lexInActionSpace_body_newline _ l ws rest F D); reflexivity. }
  rewrite N. split; reflexivity.
Qed.

End Newlines.

(** In [(1] LF [2)], after the left delimiter, [(] and [1], the lexer is
    inside an action with paren depth 1 and at the newline: the next item
    is the right delimiter. *)
Lemma newline_ends_action_witness :
  let l := after latin1Tables 3 (lex "t" (lit "(1" ++ nl :: lit "2)") true) in
  parenDepth l = 1 /\
  fst (nextItem latin1Tables l) = Item.mk itemRightDelim 3 (Text []) 2 true.
Proof.
  cbv zeta. split; [reflexivity|].
  pose proof (proj1 (newline_ends_action latin1Tables
                (after latin1Tables 3
                   (lex "t" (lit "(1" ++ nl :: lit "2)") true))
                [] (lit "2)") (Forall_nil _) eq_refl
                (or_introl eq_refl))) as H.
  rewrite H. reflexivity.
Defined.


(* ================================================================= *)
(** ** Comments *)









Section Comments.

Variable T : Tables.





End Comments.


(* ================================================================= *)
(** ** The table of [lex_test.go] *)

(** The entries of [lexTests], compared as [TestLex] compares them: by the
    type and the value of the items.  The value of an error item is the
    format and the arguments of its [fmt.Sprintf]. *)

Section LexTests.

Variable T : Tables.

Example test_empty : lex_tv T (lit "") = [tEOF].
Proof. reflexivity. Qed.

Example test_spaces : lex_tv T [" "%char; tab; nl] = [tEOF].
Proof. vm_compute. reflexivity. Qed.

Example test_identifiers :
  lex_tv T (lit "now is the time") =
    [ tLeft; (itemIdentifier, tx "now"); tSpace; (itemIdentifier, tx "is");
      tSpace; (itemIdentifier, tx "the"); tSpace; (itemIdentifier, tx "time");
      tRight; tEOF ].
Proof. vm_compute. reflexivity. Qed.

Example test_semicolon_separated_actions :
  lex_tv T (lit "`x`;foo;;;") =
    [ tLeft; (itemRawString, tx "`x`"); tRight;
      tLeft; (itemIdentifier, tx "foo"); tRight;
      tLeft; tRight; tLeft; tRight; tEOF ].
Proof. vm_compute. reflexivity. Qed.

Example test_identifier_with_comment :
  lex_tv T (lit "hello # this is a comment") =
    [ tLeft; (itemIdentifier, tx "hello"); tRight;
      (itemComment, tx " this is a comment"); tEOF ].
Proof. vm_compute. reflexivity. Qed.

Example test_punctuation :
  lex_tv T (lit ",@% ") =
    [ tLeft; (itemChar, tx ","); (itemChar, tx "@"); (itemChar, tx "%");
      tRight; tEOF ].
Proof. vm_compute. reflexivity. Qed.

Example test_parens :
  lex_tv T (lit "((3))") =
    [ tLeft; tLpar; tLpar; (itemNumber, tx "3"); tRpar; tRpar; tRight; tEOF ].
Proof. vm_compute. reflexivity. Qed.

Example test_for :
  lex_tv T (lit "for") = [ tLeft; (itemIdentifier, tx "for"); tRight; tEOF ].
Proof. vm_compute. reflexivity. Qed.

Example test_block :
  lex_tv T (lit "block " ++ dquote :: lit "foo" ++ dquote :: lit " .") =
    [ tLeft; (itemBlock, tx "block"); tSpace;
      (itemString, Text (dquote :: lit "foo" ++ [dquote])); tSpace;
      (itemDot, tx "."); tRight; tEOF ].
Proof. vm_compute. reflexivity. Qed.

Example test_quote :
  lex_tv T quoted = [ tLeft; (itemString, Text quoted); tRight; tEOF ].
Proof. vm_compute. reflexivity. Qed.

Example test_raw_quote :
  lex_tv T raw = [ tLeft; (itemRawString, Text raw); tRight; tEOF ].
Proof. vm_compute. reflexivity. Qed.

Example test_raw_quote_with_newline :
  lex_tv T rawNL = [ tLeft; (itemRawString, Text rawNL); tRight; tEOF ].
Proof. vm_compute. reflexivity. Qed.

Example test_numbers :
  lex_tv T (lit "1 02 0x14 0X14 -7.2i 1e3 1E3 +1.2e-4 4.2i 1+2i 1_2 0x1.e_fp4 0X1.E_FP4") =
    [ tLeft; (itemNumber, tx "1"); tSpace; (itemNumber, tx "02"); tSpace;
      (itemNumber, tx "0x14"); tSpace; (itemNumber, tx "0X14"); tSpace;
      (itemNumber, tx "-7.2i"); tSpace; (itemNumber, tx "1e3"); tSpace;
      (itemNumber, tx "1E3"); tSpace; (itemNumber, tx "+1.2e-4"); tSpace;
      (itemNumber, tx "4.2i"); tSpace; (itemComplex, tx "1+2i"); tSpace;
      (itemNumber, tx "1_2"); tSpace; (itemNumber, tx "0x1.e_fp4"); tSpace;
      (itemNumber, tx "0X1.E_FP4"); tRight; tEOF ].
Proof. vm_compute. reflexivity. Qed.

Example test_bools :
  lex_tv T (lit "true false") =
    [ tLeft; (itemBool, tx "true"); tSpace; (itemBool, tx "false"); tRight;
      tEOF ].
Proof. vm_compute. reflexivity. Qed.

Example test_dot : lex_tv T (lit ".") = [ tLeft; (itemDot, tx "."); tRight; tEOF ].
Proof. vm_compute. reflexivity. Qed.

Example test_nil :
  lex_tv T (lit "nil") = [ tLeft; (itemNil, tx "nil"); tRight; tEOF ].
Proof. vm_compute. reflexivity. Qed.

Example test_dots :
  lex_tv T (lit ".x . .2 .x.y.z") =
    [ tLeft; (itemField, tx ".x"); tSpace; (itemDot, tx "."); tSpace;
      (itemNumber, tx ".2"); tSpace; (itemField, tx ".x");
      (itemField, tx ".y"); (itemField, tx ".z"); tRight; tEOF ].
Proof. vm_compute. reflexivity. Qed.

Example test_keywords :
  lex_tv T (lit "range if else end with") =
    [ tLeft; (itemRange, tx "range"); tSpace; (itemIf, tx "if"); tSpace;
      (itemElse, tx "else"); tSpace; (itemEnd, tx "end"); tSpace;
      (itemWith, tx "with"); tRight; tEOF ].
Proof. vm_compute. reflexivity. Qed.

Example test_variables :
  lex_tv T (lit "$c := printf $ $hello $23 $ $var.Field .Method") =
    [ tLeft; (itemVariable, tx "$c"); tSpace; (itemDeclare, tx ":="); tSpace;
      (itemIdentifier, tx "printf"); tSpace; (itemVariable, tx "$"); tSpace;
      (itemVariable, tx "$hello"); tSpace; (itemVariable, tx "$23"); tSpace;
      (itemVariable, tx "$"); tSpace; (itemVariable, tx "$var");
      (itemField, tx ".Field"); tSpace; (itemField, tx ".Method"); tRight;
      tEOF ].
Proof. vm_compute. reflexivity. Qed.

Example test_variable_invocation :
  lex_tv T (lit "$x 23") =
    [ tLeft; (itemVariable, tx "$x"); tSpace; (itemNumber, tx "23"); tRight;
      tEOF ].
Proof. vm_compute. reflexivity. Qed.

Example test_declaration :
  lex_tv T (lit "$v := 3") =
    [ tLeft; (itemVariable, tx "$v"); tSpace; (itemDeclare, tx ":="); tSpace;
      (itemNumber, tx "3"); tRight; tEOF ].
Proof. vm_compute. reflexivity. Qed.

Example test_field_of_parenthesized_expression :
  lex_tv T (lit "(.X).Y") =
    [ tLeft; tLpar; (itemField, tx ".X"); tRpar; (itemField, tx ".Y"); tRight;
      tEOF ].
Proof. vm_compute. reflexivity. Qed.

Example test_badchar :
  lex_tv T ["001"%char] =
    [ tLeft; tError "unrecognized character in action: %#U" [ArgRune 1] ].
Proof. vm_compute. reflexivity. Qed.

Example test_unclosed_quote :
  lex_tv T [dquote; nl; dquote] =
    [ tLeft; tError "unterminated quoted string" [] ].
Proof. vm_compute. reflexivity. Qed.

Example test_unclosed_raw_quote :
  lex_tv T (lit "`xx") = [ tLeft; tError "unterminated raw quoted string" [] ].
Proof. vm_compute. reflexivity. Qed.

Example test_unclosed_char_constant :
  lex_tv T (lit "'" ++ [nl]) =
    [ tLeft; tError "unterminated character constant" [] ].
Proof. vm_compute. reflexivity. Qed.

Example test_bad_number :
  lex_tv T (lit "3k") =
    [ tLeft; tError "bad number syntax: %q" [ArgString (lit "3k")] ].
Proof. vm_compute. reflexivity. Qed.

Example test_unclosed_paren :
  lex_tv T (lit "(3") =
    [ tLeft; tLpar; (itemNumber, tx "3"); tError "unclosed left paren" [] ].
Proof. vm_compute. reflexivity. Qed.

Example test_extra_right_paren :
  lex_tv T (lit "3)") =
    [ tLeft; (itemNumber, tx "3");
      tError "unexpected right paren %#U" [ArgRune 41] ].
Proof. vm_compute. reflexivity. Qed.

Example test_long_pipeline_deadlock :
  lex_tv T (lit "|||||") =
    [ tLeft; tPipe; tPipe; tPipe; tPipe; tPipe; tRight; tEOF ].
Proof. vm_compute. reflexivity. Qed.

End LexTests.

(* ================================================================= *)
(** ** Actions that are not closed, parentheses that are not closed *)

(** C1. On the input [,] the action opened by the left delimiter is never
    closed, although no error is reported: [lexInsideAction] emits the comma
    as an [itemChar] and schedules [lexInActionSpace], whose [case eof]
    emits [itemEOF] and ends the lexer.  (At the end of the input
    [lexInsideAction] itself emits the right delimiter first and leaves the
    [itemEOF] to [lexWhitespace].) *)
Theorem comma_action_not_closed (T : Tables) :
  lex_tv T (lit ",") =
    [ (itemLeftDelim, tx ""); (itemChar, tx ","); (itemEOF, tx "") ].
Proof. vm_compute. reflexivity. Qed.

(** C3. On the input [(3 ], a left parenthesis that is never closed and a
    space before the end of the input, no error is reported:
    [lexInActionSpace] meets the end of the input after the space and emits
    the right delimiter without a look at [parenDepth], which is still 1
    when [itemEOF] is emitted. *)
Theorem unclosed_paren_before_space (T : Tables) :
  lex_tv T (lit "(3 ") =
    [ (itemLeftDelim, tx ""); (itemLeftParen, tx "("); (itemNumber, tx "3");
      (itemRightDelim, tx ""); (itemEOF, tx "") ] /\
  parenDepth (after T 5 (lex "t" (lit "(3 ") true)) = 1.
Proof. split; vm_compute; reflexivity. Qed.

(* ================================================================= *)
(** ** The line of an item *)

(** C7. The input [a \] followed by one line feed (at byte 3): the line
    feed continues the action and is counted by [lexInActionSpace] twice,
    once when the loop passes it after the backslash and once more when
    [lexInsideAction] hands it back; the right delimiter and [itemEOF], at
    byte 4 and so on line 2, carry line 3.  And on a space followed by one
    line feed, [lexWhitespace] leaves the position on the line feed (byte 1,
    on line 1) and emits [itemEOF] there with line 2. *)
Theorem continued_line_counted_twice (T : Tables) :
  count_lf (lit "a " ++ [bslash; nl]) = 1 /\
  map tpl (items T 5 (lex "t" (lit "a " ++ [bslash; nl]) true)) =
    [ (itemLeftDelim, 0, 1); (itemIdentifier, 0, 1); (itemSpace, 1, 1);
      (itemRightDelim, 4, 3); (itemEOF, 4, 3) ] /\
  map tpl (items T 1 (lex "t" (lit " " ++ [nl]) true)) = [ (itemEOF, 1, 2) ].
Proof. repeat split; vm_compute; reflexivity. Qed.

(* ================================================================= *)
(** ** The lazy value *)

Section LazyValueFacts.

Import Lazy.

Variable V : Type.
Variable create : nat -> V.

Lemma cnt_app (f : pc V -> bool) (a b : list (pc V)) :
  cnt f (a ++ b) = cnt f a + cnt f b.
Proof. unfold cnt. rewrite filter_app, length_app. lia. Qed.

Lemma cnt_cons (f : pc V -> bool) (p : pc V) (a : list (pc V)) :
  cnt f (p :: a) = (if f p then 1 else 0) + cnt f a.
Proof. unfold cnt. cbn [filter]. destruct (f p); cbn [List.length]; lia. Qed.

Lemma cnt_nonneg (f : pc V -> bool) (a : list (pc V)) : 0 <= cnt f a.
Proof. unfold cnt. lia. Qed.

Lemma cnt_le_length (f : pc V -> bool) (a : list (pc V)) :
  cnt f a <= Z.of_nat (List.length a).
Proof. unfold cnt. pose proof (filter_length_le f a). lia. Qed.

Lemma cnt_zero (f : pc V -> bool) (a : list (pc V)) :
  cnt f a = 0 -> Forall (fun p => f p = false) a.
Proof.
  induction a as [|p a IH]; [constructor|]. rewrite cnt_cons.
  pose proof (cnt_nonneg f a) as N. destruct (f p) eqn:E; [lia|].
  intros H. constructor; [assumption|]. apply IH. lia.
Qed.

Lemma cnt_writer_counted (a : list (pc V)) : cnt is_writer a <= cnt counted a.
Proof.
  induction a as [|p a IH]; [reflexivity|]. rewrite !cnt_cons.
  destruct p; cbn [is_writer counted]; lia.
Qed.

Lemma wrap32_small (x : Z) : - 2 ^ 31 <= x < 2 ^ 31 -> wrap32 x = x.
Proof.
  intros H. unfold wrap32. rewrite Z.mod_small; lia.
Qed.

Lemma update_split (ps : list (pc V)) (i : nat) (p : pc V) :
  nth_error ps i = Some p ->
  exists a b, ps = a ++ p :: b /\ forall q, update i q ps = a ++ q :: b.
Proof.
  revert i. induction ps as [|x ps IH]; intros [|i]; cbn; try discriminate.
  - intros [= ->]. exists [], ps. split; reflexivity.
  - intros H. destruct (IH i H) as (a & b & -> & U).
    exists (x :: a), b. split; [reflexivity|]. intros q. cbn. rewrite U.
    reflexivity.
Qed.

Lemma inv_init_world (zero : V) (n : nat) :
  Z.of_nat n < 2 ^ 31 -> inv create (init create zero n).
Proof.
  intros B. unfold init.
  assert (C : forall f, (f pcEnter = false) ->
                        cnt f (repeat (@pcEnter V) n) = 0).
  { intros f Hf. induction n as [|m IH]; [reflexivity|].
    cbn [repeat]. rewrite cnt_cons, Hf. apply IH. lia. }
  constructor; cbn [lv callers called completed Create writing initialized
                    value].
  - reflexivity.
  - rewrite repeat_length. exact B.
  - rewrite C; reflexivity.
  - left. reflexivity.
  - rewrite C; [lia|reflexivity].
  - auto.
  - apply Forall_forall. intros p Hp. apply repeat_spec in Hp. subst p.
    exact I.
  - discriminate.
Qed.

(** What the others keep when one caller steps: the shared value changes
    only in ways their place allows. *)
Lemma local_others (v v' : LazyValue V) (nc nr nc' nr' : nat)
      (ps : list (pc V)) :
  Forall (local create v nc nr) ps ->
  (forall q, In q ps -> local create v nc nr q -> local create v' nc' nr' q) ->
  Forall (local create v' nc' nr') ps.
Proof.
  intros F H. apply Forall_forall. intros q Hq. apply H; [assumption|].
  revert q Hq. apply Forall_forall. exact F.
Qed.

Lemma Forall_mid (A : Type) (P : A -> Prop) (a b : list A) (q : A) :
  Forall P a -> P q -> Forall P b -> Forall P (a ++ q :: b).
Proof.
  intros Ha Hq Hb. apply Forall_app. split; [assumption|].
  constructor; assumption.
Qed.

Lemma inv_step (w : world V) (i : nat) : inv create w -> inv create (step w i).
Proof.
  intros [IC IB IW II IWr IBf IL IA]. unfold step.
  destruct (nth_error (callers w) i) as [p|] eqn:N;
    [|constructor; assumption].
  destruct (update_split _ _ _ N) as (a & b & E & U).
  destruct w as [v nc nr ps]. cbn [lv called completed callers] in *.
  subst ps. rewrite length_app in IB. cbn [List.length] in IB.
  rewrite !cnt_app, !cnt_cons in *.
  rewrite Forall_app in IL. destruct IL as [La Lpb].
  apply Forall_cons_iff in Lpb. destruct Lpb as [Lp Lb].
  pose proof (cnt_nonneg counted a). pose proof (cnt_nonneg counted b).
  pose proof (cnt_nonneg is_writer a). pose proof (cnt_nonneg is_writer b).
  pose proof (cnt_le_length counted a). pose proof (cnt_le_length counted b).
  pose proof (cnt_writer_counted a). pose proof (cnt_writer_counted b).
  assert (Others : forall v' nc' nr',
    (forall q, In q (a ++ b) ->
               local create v nc nr q -> local create v' nc' nr' q) ->
    Forall (local create v' nc' nr') a /\ Forall (local create v' nc' nr') b).
  { intros v' nc' nr' H'. split; eapply local_others; try eassumption;
      intros q Hq; apply H'; apply in_or_app; auto. }
  assert (NoWriter : is_writer p = true ->
    forall q, In q (a ++ b) -> is_writer q = false).
  { intros Hp q Hq. rewrite Hp in IWr.
    assert (Za : cnt is_writer a = 0) by lia.
    assert (Zb : cnt is_writer b = 0) by lia.
    apply cnt_zero in Za, Zb. rewrite Forall_forall in Za, Zb.
    apply in_app_or in Hq. destruct Hq; auto. }
  destruct p; cbn [caller_step counted is_writer local] in *.
  - (* pcEnter *)
    rewrite U. destruct (Others (set_writing v (wrap32 (writing v + 1))) nc nr)
      as [La' Lb']; [intros q _; destruct q; exact (fun x => x)|].
    constructor; cbn [lv called completed callers Create writing initialized
                      value set_writing];
      rewrite ?length_app, ?cnt_app, ?cnt_cons; cbn [List.length counted is_writer];
      try assumption; try lia.
    + rewrite IW, wrap32_small; lia.
    + apply Forall_mid; [assumption|exact I|assumption].
  - (* pcCAS *)
    destruct (initialized v =? 0) eqn:E0.
    + apply Z.eqb_eq in E0. destruct (IBf E0) as [-> ->].
      rewrite U. destruct (Others (set_initialized v 1) 0%nat 0%nat)
        as [La' Lb'].
      { intros q _ Hq. destruct q; cbn [local] in *; try exact I; lia. }
      assert (Za : cnt is_writer a = 0).
      { apply Z.le_antisymm; [|assumption].
        assert (F : Forall (fun q => is_writer q = false) a).
        { eapply Forall_impl; [|exact La]. intros q Hq.
          destruct q; cbn [local] in *; try reflexivity; lia. }
        clear - F. induction F as [|q a Hq _ IH]; [reflexivity|].
        rewrite cnt_cons, Hq. exact IH. }
      assert (Zb : cnt is_writer b = 0).
      { apply Z.le_antisymm; [|assumption].
        assert (F : Forall (fun q => is_writer q = false) b).
        { eapply Forall_impl; [|exact Lb]. intros q Hq.
          destruct q; cbn [local] in *; try reflexivity; lia. }
        clear - F. induction F as [|q b Hq _ IH]; [reflexivity|].
        rewrite cnt_cons, Hq. exact IH. }
      constructor; cbn [lv called completed callers Create writing initialized
                        value set_initialized];
        rewrite ?length_app, ?cnt_app, ?cnt_cons;
        cbn [List.length counted is_writer];
        try assumption; try lia.
      apply Forall_mid; [assumption|cbn; auto|assumption].
    + apply Z.eqb_neq in E0. assert (E1 : initialized v = 1) by lia.
      rewrite U.
      constructor; cbn [lv called completed callers Create writing initialized
                        value];
        rewrite ?length_app, ?cnt_app, ?cnt_cons;
        cbn [List.length counted is_writer];
        try assumption; try lia.
      * apply Forall_mid; [assumption|exact E1|assumption].
  - (* pcCallCreate *)
    destruct Lp as (E1 & -> & ->). rewrite U.
    destruct (Others v 1%nat 0%nat) as [La' Lb'].
    { intros q Hq L. pose proof (NoWriter eq_refl q Hq) as W.
      destruct q; cbn [local is_writer] in *; try discriminate; auto; lia. }
    constructor; cbn [lv called completed callers Create writing initialized
                      value];
      rewrite ?length_app, ?cnt_app, ?cnt_cons;
      cbn [List.length counted is_writer];
      try assumption; try lia.
    apply Forall_mid; [assumption|cbn; auto|assumption].
  - (* pcInCreate *)
    destruct Lp as (E1 & -> & -> & ->). rewrite U.
    destruct (Others v 1%nat 1%nat) as [La' Lb'].
    { intros q Hq L. pose proof (NoWriter eq_refl q Hq) as W.
      destruct q; cbn [local is_writer] in *; try discriminate; auto; lia. }
    constructor; cbn [lv called completed callers Create writing initialized
                      value];
      rewrite ?length_app, ?cnt_app, ?cnt_cons;
      cbn [List.length counted is_writer];
      try assumption; try lia.
    apply Forall_mid; [assumption|cbn; rewrite IC; auto|assumption].
  - (* pcStore *)
    destruct Lp as (E1 & -> & -> & ->). rewrite U.
    destruct (Others (set_value v (create 0%nat)) 1%nat 1%nat) as [La' Lb'].
    { intros q Hq L.
      destruct q; cbn [local initialized value set_value] in *; intuition. }
    constructor; cbn [lv called completed callers Create writing initialized
                      value set_value];
      rewrite ?length_app, ?cnt_app, ?cnt_cons;
      cbn [List.length counted is_writer];
      try assumption; try lia.
    all: try (apply Forall_mid; [assumption|cbn; auto|assumption]).
    all: auto.
  - (* pcWriterDec *)
    destruct Lp as (E1 & Ev & -> & ->). rewrite U.
    destruct (Others (set_writing v (wrap32 (writing v - 1))) 1%nat 1%nat)
      as [La' Lb']; [intros q _; destruct q; exact (fun x => x)|].
    constructor; cbn [lv called completed callers Create writing initialized
                      value set_writing];
      rewrite ?length_app, ?cnt_app, ?cnt_cons;
      cbn [List.length counted is_writer];
      try assumption; try lia.
    all: try (rewrite IW, wrap32_small; lia).
    all: try (apply Forall_mid; [assumption|cbn; auto|assumption]).
    all: auto.
  - (* pcReaderDec *)
    rewrite U.
    destruct (Others (set_writing v (wrap32 (writing v - 1))) nc nr)
      as [La' Lb']; [intros q _; destruct q; exact (fun x => x)|].
    constructor; cbn [lv called completed callers Create writing initialized
                      value set_writing];
      rewrite ?length_app, ?cnt_app, ?cnt_cons;
      cbn [List.length counted is_writer];
      try assumption; try lia.
    + rewrite IW, wrap32_small; lia.
    + apply Forall_mid; [assumption|exact Lp|assumption].
  - (* pcSpin *)
    destruct (writing v =? 0) eqn:E0; rewrite U.
    + apply Z.eqb_eq in E0.
      destruct (IA Lp ltac:(lia)) as (Ev & -> & ->).
      constructor; cbn [lv called completed callers Create writing
                        initialized value];
        rewrite ?length_app, ?cnt_app, ?cnt_cons;
        cbn [List.length counted is_writer];
        try assumption; try lia.
      apply Forall_mid; [assumption|cbn; auto|assumption].
    + constructor; cbn [lv called completed callers Create writing
                        initialized value];
        rewrite ?length_app, ?cnt_app, ?cnt_cons;
        cbn [List.length counted is_writer];
        try assumption; try lia.
      apply Forall_mid; [assumption|exact Lp|assumption].
  - (* pcReturn *)
    destruct Lp as (E1 & Ev & -> & ->). rewrite U.
    constructor; cbn [lv called completed callers Create writing
                      initialized value];
      rewrite ?length_app, ?cnt_app, ?cnt_cons;
      cbn [List.length counted is_writer];
      try assumption; try lia.
    apply Forall_mid; [assumption|cbn; auto|assumption].
  - (* pcDone *)
    rewrite U.
    constructor; cbn [lv called completed callers Create writing
                      initialized value];
      rewrite ?length_app, ?cnt_app, ?cnt_cons;
      cbn [List.length counted is_writer];
      try assumption; try lia.
    apply Forall_mid; assumption.
Qed.

Lemma inv_run (schedule : list nat) (w : world V) :
  inv create w -> inv create (run schedule w).
Proof.
  unfold run. revert w.
  induction schedule as [|i schedule IH]; intros w H; [exact H|].
  cbn [fold_left]. apply IH, inv_step, H.
Qed.

Lemma cnt_pos (f : pc V -> bool) (a : list (pc V)) :
  0 < cnt f a -> exists p, In p a /\ f p = true.
Proof.
  induction a as [|p a IH]; [unfold cnt; cbn; lia|]. rewrite cnt_cons.
  destruct (f p) eqn:E.
  - intros _. exists p. split; [left; reflexivity|exact E].
  - intros H. destruct IH as (q & Hq & Fq); [lia|].
    exists q. split; [right; exact Hq|exact Fq].
Qed.

Lemma inv_called (w : world V) : inv create w -> (called w <= 1)%nat.
Proof.
  intros [IC IB IW II IWr IBf IL IA].
  destruct II as [E0|E1]; [destruct (IBf E0) as [-> _]; lia|].
  pose proof (cnt_nonneg is_writer (callers w)) as N.
  assert (C : cnt is_writer (callers w) = 0 \/ 0 < cnt is_writer (callers w))
    by lia.
  destruct C as [C|C]; [destruct (IA E1 C) as (_ & -> & _); lia|].
  destruct (cnt_pos _ _ C) as (p & Hp & Fp).
  rewrite Forall_forall in IL. specialize (IL p Hp).
  destruct p; cbn [is_writer local] in *; try discriminate; lia.
Qed.

Lemma inv_done (w : world V) (i : nat) (x : V) :
  inv create w -> nth_error (callers w) i = Some (pcDone x) ->
  x = create 0%nat /\ called w = 1%nat /\ completed w = 1%nat.
Proof.
  intros [IC IB IW II IWr IBf IL IA] N. apply nth_error_In in N.
  rewrite Forall_forall in IL. specialize (IL _ N). cbn [local] in IL. tauto.
Qed.

End LazyValueFacts.

(** C9. Any number [n] (below 2^31, so that the [int32] counter [writing]
    does not wrap around) of callers of [GetLazyValue] on one fresh
    [LazyValue], interleaved by any schedule: [Create] is called at most once;
    and a caller that has returned, returned what that one call (call number
    0) of [Create] returned, after that call had completed. *)
Theorem lazy_value_once (V : Type) (create : nat -> V) (zero : V) (n : nat)
        (schedule : list nat) :
  Z.of_nat n < 2 ^ 31 ->
  let w := Lazy.run schedule (Lazy.init create zero n) in
  (Lazy.called w <= 1)%nat /\
  forall (i : nat) (x : V),
    nth_error (Lazy.callers w) i = Some (Lazy.pcDone x) ->
    x = create 0%nat /\ Lazy.called w = 1%nat /\ Lazy.completed w = 1%nat.
Proof.
  intros B w.
  assert (I : inv create w) by (apply inv_run, inv_init_world, B).
  split; [exact (inv_called V create w I)|].
  intros i x. exact (inv_done V create w i x I).
Qed.

Lemma lazy_value_once_witness :
  let w := Lazy.run three_callers (Lazy.init (fun k => Z.of_nat k + 7) 0 3) in
  Lazy.callers w = [Lazy.pcDone 7; Lazy.pcDone 7; Lazy.pcDone 7] /\
  (Lazy.called w <= 1)%nat /\
  forall (i : nat) (x : Z),
    nth_error (Lazy.callers w) i = Some (Lazy.pcDone x) ->
    x = 7 /\ Lazy.called w = 1%nat /\ Lazy.completed w = 1%nat.
Proof.
  split; [reflexivity|].
  apply (lazy_value_once Z (fun k => Z.of_nat k + 7) 0 3 three_callers).
  reflexivity.
Defined.

(* ================================================================= *)
(** ** The lexer inside its input *)

(** Each pair of the loop over a string is the rune decoded at its index. *)
Lemma range_from_decode (s : list ascii) :
  forall (k : nat) (i j r : Z),
    In (j, r) (range_from k i s) ->
    i <= j < i + len s /\
    exists c t, skipn (Z.to_nat (j - i)) s = c :: t /\
                r = fst (utf8.DecodeRuneInString (c :: t)).
Proof.
  induction s as [|c s IH]; intros k i j r; cbn [range_from]; [intros []|].
  rewrite len_cons. pose proof (len_nonneg s) as Ls.
  assert (Tail : In (j, r) (range_from (match k with
                                        | O => Z.to_nat
                                                 (snd (utf8.DecodeRuneInString
                                                         (c :: s))) - 1
                                        | S k' => k'
                                        end) (i + 1) s) ->
                 i <= j < i + (len s + 1) /\
                 exists c' t, skipn (Z.to_nat (j - i)) (c :: s) = c' :: t /\
                              r = fst (utf8.DecodeRuneInString (c' :: t))).
  { intros H. apply IH in H. destruct H as (B & c' & t & E & R).
    split; [lia|]. exists c', t. split; [|exact R].
    replace (Z.to_nat (j - i)) with (S (Z.to_nat (j - (i + 1)))) by lia.
    exact E. }
  destruct k as [|k].
  - destruct (utf8.DecodeRuneInString (c :: s)) as [r0 w] eqn:D.
    cbn [snd] in Tail.
    intros [[= <- <-]|H]; [|apply Tail; exact H].
    split; [lia|]. exists c, s. rewrite Z.sub_diag. split; [reflexivity|].
    rewrite D. reflexivity.
  - exact Tail.
Qed.

Lemma range_str_decode (s : list ascii) (j r : Z) :
  In (j, r) (range_str s) ->
  0 <= j < len s /\
  exists c t, skipn (Z.to_nat j) s = c :: t /\
              r = fst (utf8.DecodeRuneInString (c :: t)).
Proof.
  intros H. apply range_from_decode in H. rewrite Z.sub_0_r in H. exact H.
Qed.

Lemma decode_width_upper (s : list ascii) :
  snd (utf8.DecodeRuneInString s) <= len s.
Proof.
  destruct s as [|c s]; [cbn; lia|].
  destruct (utf8.DecodeRuneInString (c :: s)) as [r w] eqn:D.
  apply decode_cases in D. rewrite len_cons. pose proof (len_nonneg s).
  cbn [snd]. unfold len in *.
  destruct D as [?|[?|(A & _ & _ & E & _)]]; lia.
Qed.

Lemma data_of_len (l : lexer) :
  0 <= pos l <= len (input l) -> len (data_of l) = len (input l) - pos l.
Proof. intros H. rewrite len_data_of; lia. Qed.

(** [next] moves forward by the width it records, inside the input. *)
Lemma next_frame (l : lexer) :
  0 <= pos l <= len (input l) ->
  input (snd (next l)) = input l /\ start (snd (next l)) = start l /\
  0 <= width (snd (next l)) /\
  pos (snd (next l)) = pos l + width (snd (next l)) /\
  pos (snd (next l)) <= len (input l).
Proof.
  intros P. unfold next. destruct (len (input l) <=? pos l) eqn:E.
  { cbn [snd input start width pos set_width].
    repeat split; try reflexivity; lia. }
  zbool.
  pose proof (decode_width_nonneg (data_of l)).
  pose proof (decode_width_upper (data_of l)) as U.
  rewrite data_of_len in U by lia.
  destruct (utf8.DecodeRuneInString (data_of l)) as [r w].
  cbn [snd] in *.
  destruct (r =? LF);
    cbn [snd input start width pos set_width set_pos set_line];
    repeat split; try reflexivity; lia.
Qed.

Lemma backup_frame (l : lexer) :
  input (backup l) = input l /\ start (backup l) = start l /\
  pos (backup l) = pos l - width l.
Proof. unfold backup. destruct (_ && _); cbn; auto. Qed.

Lemma next_preserves_frame (inp : list ascii) (st lo : Z) :
  0 <= lo -> preserves (frame inp st lo) next.
Proof.
  intros L l (I & S & P). pose proof (next_frame l ltac:(rewrite I; lia)) as N.
  unfold frame. rewrite I in N. intuition lia.
Qed.

Lemma accept_preserves_frame (inp : list ascii) (st lo : Z) (valid : string) :
  0 <= lo -> preserves (frame inp st lo) (accept valid).
Proof.
  intros L l (I & S & P). pose proof (next_frame l ltac:(rewrite I; lia)) as N.
  unfold accept. destruct (next l) as [r l1]. cbn [snd] in N.
  rewrite I in N. unfold frame.
  destruct (ContainsRune valid r); cbn [snd].
  - intuition lia.
  - pose proof (backup_frame l1). intuition (try congruence; try lia).
Qed.

Lemma acceptRun_loop_frame (fuel : nat) (valid : string) (l : lexer) :
  0 <= pos l <= len (input l) ->
  let l' := acceptRun_loop fuel valid l in
  input l' = input l /\ start l' = start l /\ 0 <= width l' /\
  pos l <= pos l' - width l' /\ pos l' <= len (input l).
Proof.
  revert l. induction fuel as [|fuel IH]; intros l P; cbn [acceptRun_loop];
    pose proof (next_frame l P) as N; destruct (next l) as [r l1];
    cbn [snd] in N; destruct (ContainsRune valid r);
    try (cbv zeta; intuition lia).
  destruct N as (N1 & N2 & N3 & N4 & N5).
  specialize (IH l1 ltac:(rewrite N1; lia)). cbv zeta in *.
  rewrite N1, N2 in IH. intuition lia.
Qed.

Lemma acceptRun_preserves_frame (inp : list ascii) (st lo : Z)
      (valid : string) (l : lexer) :
  0 <= lo -> frame inp st lo l -> frame inp st lo (acceptRun valid l).
Proof.
  intros L (I & S & P). unfold acceptRun.
  pose proof (acceptRun_loop_frame (remaining l) valid l ltac:(rewrite I; lia))
    as H.
  pose proof (backup_frame (acceptRun_loop (remaining l) valid l)) as B.
  cbv zeta in H. rewrite I in H. unfold frame. intuition (try congruence; lia).
Qed.

Section Scanners.

Variable T : Tables.

Ltac framed :=
  repeat first
    [ apply preserves_ret
    | apply preserves_get
    | apply accept_preserves_frame; assumption
    | apply next_preserves_frame; assumption
    | apply preserves_call; intros ?; apply acceptRun_preserves_frame;
      assumption
    | apply preserves_bind; [|intros ?]
    | match goal with
      | |- preserves _ (if ?b then _ else _) => destruct b
      end ].

Lemma scanNumber_frame (inp : list ascii) (st lo : Z) :
  0 <= lo -> preserves (frame inp st lo) (scanNumber T).
Proof. intros L. unfold scanNumber. framed. Qed.

Lemma scanned_emit (l l1 : lexer) (t : itemType) (nxt : option stateFn) :
  input l1 = input l -> start l1 = start l ->
  start l <= pos l -> pos l <= pos l1 <= len (input l) ->
  scanned l (let '(ret, l') := emit t l1 in (ret, nxt, l')).
Proof.
  intros I S B P. unfold scanned, emit. cbn. rewrite I, S.
  repeat split; try lia; reflexivity.
Qed.

Lemma scanned_error (l l1 : lexer) (format : string) (args : list fmtArg) :
  input l1 = input l -> start l1 = start l ->
  start l <= pos l -> pos l <= pos l1 <= len (input l) ->
  scanned l (errorf l1 format args, None, l1).
Proof.
  intros I S B P. unfold scanned, errorf. cbn -[len slice].
  repeat split; try lia; try congruence. intros [H|H]; congruence.
Qed.

Lemma lexNumber_scanned (l : lexer) :
  in_bounds l -> scanned l (lexNumber T l).
Proof.
  intros [B1 B2]. unfold lexNumber, badNumber.
  assert (F : frame (input l) (start l) (pos l) l)
    by (unfold frame; intuition lia).
  pose proof (scanNumber_frame (input l) (start l) (pos l) ltac:(lia) l F)
    as F1.
  destruct (scanNumber T l) as [ok l1]. cbn [snd] in F1.
  destruct F1 as (I1 & S1 & P1).
  destruct (negb ok); [apply scanned_error; (assumption || lia)|].
  destruct (_ || _); [|apply scanned_emit; auto; lia].
  pose proof (scanNumber_frame (input l) (start l) (pos l) ltac:(lia) l1
                ltac:(unfold frame; auto)) as F2.
  destruct (scanNumber T l1) as [ok2 l2]. cbn [snd] in F2.
  destruct F2 as (I2 & S2 & P2).
  destruct (_ || _); [apply scanned_error|apply scanned_emit]; auto; lia.
Qed.

(** The loops stop at a pair of the list they run over. *)
Lemma alnum_loop_in (rs : list (Z * Z)) (i0 r0 : Z) :
  alnum_loop T rs i0 r0 = (i0, r0) \/ In (alnum_loop T rs i0 r0) rs.
Proof.
  revert i0 r0. induction rs as [|[i' r'] rs IH]; intros i0 r0;
    cbn [alnum_loop]; [auto|].
  right. destruct (negb _); [left; reflexivity|].
  destruct (IH i' r') as [->|H]; [left; reflexivity|right; exact H].
Qed.

Lemma scanAlphaNumeric_bounds (data : list ascii) :
  0 <= fst (fst (scanAlphaNumeric T data)) <= len data.
Proof.
  unfold scanAlphaNumeric. pose proof (len_nonneg data).
  pose proof (alnum_loop_in (range_str data) 0 0) as H0.
  destruct (alnum_loop T (range_str data) 0 0) as [i r].
  destruct (isAlphaNumeric T r); cbn [fst]; [lia|].
  destruct H0 as [[= -> ->]|H0]; [lia|].
  apply range_str_decode in H0. lia.
Qed.

Lemma lexIdentifier_scanned (l : lexer) :
  in_bounds l -> scanned l (lexIdentifier T l).
Proof.
  intros [B1 B2]. unfold lexIdentifier.
  pose proof (scanAlphaNumeric_bounds (data_of l)) as H.
  rewrite data_of_len in H by lia.
  destruct (scanAlphaNumeric T (data_of l)) as [[i r] w]. cbn [fst] in H.
  destruct (negb _); [apply scanned_error|apply scanned_emit];
    cbn [input start pos set_pos set_width]; try reflexivity; lia.
Qed.

Lemma lexFieldOrVariable_scanned (l : lexer) (typ : itemType) :
  in_bounds l -> scanned l (lexFieldOrVariable T l typ).
Proof.
  intros [B1 B2]. unfold lexFieldOrVariable.
  destruct (atTerminator l).
  { destruct (is_typ typ itemVariable); apply scanned_emit;
      try reflexivity; lia. }
  pose proof (scanAlphaNumeric_bounds (data_of l)) as H.
  rewrite data_of_len in H by lia.
  destruct (scanAlphaNumeric T (data_of l)) as [[i r] w]. cbn [fst] in H.
  destruct (negb _); [apply scanned_error|apply scanned_emit];
    cbn [input start pos set_pos set_width]; try reflexivity; lia.
Qed.

Lemma lexVariable_scanned (l : lexer) :
  in_bounds l -> scanned l (lexVariable T l).
Proof.
  intros B. unfold lexVariable. destruct (atTerminator l).
  - destruct B. apply scanned_emit; try reflexivity; lia.
  - apply lexFieldOrVariable_scanned. exact B.
Qed.

End Scanners.

Lemma lexChar_loop_in (data : list ascii) (rs : list (Z * Z)) (i : Z) :
  lexChar_loop data rs = ScanEnd i -> exists r, In (i, r) rs.
Proof.
  induction rs as [|[i' r'] rs IH]; cbn [lexChar_loop]; [discriminate|].
  repeat match goal with
  | |- context [if ?b then _ else _] => destruct b
  end; try discriminate;
    try (intros H; destruct (IH H) as [r Hr]; exists r; right; exact Hr).
  intros [= <-]. exists r'. left. reflexivity.
Qed.

Lemma lexQuote_loop_in (data : list ascii) (rs : list (Z * Z)) (i : Z) :
  lexQuote_loop data rs = ScanEnd i -> exists r, In (i, r) rs.
Proof.
  induction rs as [|[i' r'] rs IH]; cbn [lexQuote_loop]; [discriminate|].
  repeat match goal with
  | |- context [if ?b then _ else _] => destruct b
  end; try discriminate;
    try (intros H; destruct (IH H) as [r Hr]; exists r; right; exact Hr).
  intros [= <-]. exists r'. left. reflexivity.
Qed.

Lemma lexRawQuote_loop_in (rs : list (Z * Z)) (i0 ln i ln' : Z) :
  lexRawQuote_loop rs i0 ln = (true, i, ln') -> exists r, In (i, r) rs.
Proof.
  revert i0 ln. induction rs as [|[i' r'] rs IH]; intros i0 ln;
    cbn [lexRawQuote_loop]; [discriminate|].
  destruct (r' =? LF);
    [intros H; destruct (IH _ _ H) as [r Hr]; exists r; right; exact Hr|].
  destruct (r' =? BQUOTE);
    [|intros H; destruct (IH _ _ H) as [r Hr]; exists r; right; exact Hr].
  intros [= <- _]. exists r'. left. reflexivity.
Qed.

Lemma lexChar_scanned (l : lexer) : in_bounds l -> scanned l (lexChar l).
Proof.
  intros [B1 B2]. unfold lexChar.
  destruct (lexChar_loop _ _) as [|i|] eqn:E;
    try (apply scanned_error; try reflexivity; lia).
  apply lexChar_loop_in in E. destruct E as [r E].
  apply range_str_decode in E. rewrite data_of_len in E by lia.
  apply scanned_emit; cbn [input start pos set_pos set_width];
    try reflexivity; lia.
Qed.

Lemma lexQuote_scanned (l : lexer) : in_bounds l -> scanned l (lexQuote l).
Proof.
  intros [B1 B2]. unfold lexQuote.
  destruct (lexQuote_loop _ _) as [|i|] eqn:E;
    try (apply scanned_error; try reflexivity; lia).
  apply lexQuote_loop_in in E. destruct E as [r E].
  apply range_str_decode in E. rewrite data_of_len in E by lia.
  apply scanned_emit; cbn [input start pos set_pos set_width];
    try reflexivity; lia.
Qed.

Lemma lexRawQuote_scanned (l : lexer) :
  in_bounds l -> scanned l (lexRawQuote l).
Proof.
  intros [B1 B2]. unfold lexRawQuote.
  destruct (lexRawQuote_loop _ _ _) as [[e i] ln] eqn:E.
  destruct e; cbn [negb].
  - apply lexRawQuote_loop_in in E. destruct E as [r E].
    apply range_str_decode in E. rewrite data_of_len in E by lia.
    apply scanned_emit; cbn [input start pos set_pos set_width set_line];
      try reflexivity; lia.
  - apply scanned_error; cbn [input start pos set_line]; try reflexivity; lia.
Qed.

Lemma scanned_shift (l l1 : lexer) (res : result) :
  input l1 = input l -> start l1 = start l -> pos l <= pos l1 ->
  scanned l1 res -> scanned l res.
Proof.
  intros I S P. destruct res as [[it nxt] l'].
  unfold scanned. rewrite I, S. intuition lia.
Qed.

Lemma advances_shift (b : bool) (l l1 : lexer) (res : result) :
  pos l < pos l1 ->
  (let '(_, _, l') := res in pos l1 <= pos l') -> advances b l res.
Proof.
  intros P. destruct res as [[it nxt] l']. intros H. unfold advances.
  destruct nxt as [[]|]; intros; lia.
Qed.

Lemma scanned_pos (l : lexer) (res : result) :
  scanned l res -> let '(_, _, l') := res in pos l <= pos l'.
Proof. destruct res as [[it nxt] l']. unfold scanned. intuition lia. Qed.

Lemma IndexByte_upper (s : list ascii) (c : Z) : IndexByte s c < len s.
Proof.
  induction s as [|b s IH]; cbn [IndexByte]; [cbn; lia|].
  rewrite len_cons. pose proof (len_nonneg s).
  destruct (b2z b =? c); [lia|]. destruct (IndexByte s c <? 0); lia.
Qed.

Lemma slice_tail (inp : list ascii) (a b : Z) :
  0 <= a < b -> slice_from (slice inp a b) 1 = slice inp (a + 1) b.
Proof.
  intros H. unfold slice_from, slice.
  replace (Z.to_nat (b - a)) with (S (Z.to_nat (b - (a + 1)))) by lia.
  replace (Z.to_nat (a + 1)) with (S (Z.to_nat a)) by lia.
  change (Z.to_nat 1) with 1%nat.
  generalize (Z.to_nat (b - (a + 1))) as n. generalize (Z.to_nat a) as k.
  intros k n. revert inp. induction k as [|k IH]; intros inp.
  - destruct inp as [|c inp]; [destruct n; reflexivity|]. reflexivity.
  - destruct inp as [|c inp]; [destruct n; reflexivity|].
    cbn [skipn]. apply IH.
Qed.

(** [lexComment] on a lexer that stands before a byte (the [#]). *)
Lemma lexComment_scanned (l : lexer) :
  in_bounds l -> start l = pos l -> pos l < len (input l) ->
  scanned l (lexComment l) /\ advances true l (lexComment l).
Proof.
  intros [B1 B2] S P. unfold lexComment.
  pose proof (IndexByte_lower (data_of l) LF) as Lo.
  pose proof (IndexByte_upper (data_of l) LF) as Up.
  rewrite data_of_len in Up by lia.
  set (l1 := if IndexByte (data_of l) LF <? 0 then set_pos l (len (input l))
             else set_line
                    (set_pos (set_width l 1)
                       (pos (set_width l 1) + (IndexByte (data_of l) LF + 1)))
                    (line (set_pos (set_width l 1)
                       (pos (set_width l 1) + (IndexByte (data_of l) LF + 1)))
                     + 1)).
  assert (H1 : input l1 = input l /\ start l1 = start l /\
               emitComment l1 = emitComment l /\
               pos l < pos l1 <= len (input l)).
  { subst l1. destruct (_ <? 0) eqn:E; zbool; cbn -[len IndexByte data_of];
      repeat split; lia. }
  destruct H1 as (I1 & S1 & E1 & P1). rewrite E1.
  destruct (emitComment l).
  - unfold emit, scanned, advances. cbn -[len slice slice_from].
    rewrite I1, S1. repeat split; try lia.
    rewrite slice_tail by lia. reflexivity.
  - unfold scanned, advances. cbn -[len slice slice_from]. rewrite I1.
    repeat split; try lia; try discriminate.
Qed.

(** ** Numbers and identifiers consume input *)

Lemma data_of_same (l l1 : lexer) :
  input l1 = input l -> pos l1 = pos l -> data_of l1 = data_of l.
Proof. unfold data_of. intros -> ->. reflexivity. Qed.

Lemma byte_at_data (l : lexer) (c : ascii) (s : list ascii) :
  0 <= pos l -> data_of l = c :: s -> byte_at (input l) (pos l) = b2z c.
Proof.
  unfold data_of, slice_from, byte_at. intros P D.
  rewrite <- (firstn_skipn (Z.to_nat (pos l)) (input l)) at 1.
  rewrite D.
  assert (L : (List.length (firstn (Z.to_nat (pos l)) (input l))
               = Z.to_nat (pos l))%nat).
  { apply firstn_length_le.
    apply (f_equal (@List.length ascii)) in D. rewrite length_skipn in D.
    cbn in D. lia. }
  rewrite app_nth2 by lia. rewrite L, Nat.sub_diag. reflexivity.
Qed.

(** [next] on an ASCII byte. *)
Lemma next_ascii (l : lexer) (c : ascii) (s : list ascii) :
  data_of l = c :: s -> b2z c < 0x80 -> 0 <= pos l ->
  fst (next l) = b2z c /\ pos (snd (next l)) = pos l + 1 /\
  width (snd (next l)) = 1 /\ input (snd (next l)) = input l /\
  start (snd (next l)) = start l.
Proof.
  intros D A P. unfold next.
  assert (L : pos l < len (input l)).
  { pose proof (len_data_of l P) as H. rewrite D, len_cons in H.
    pose proof (len_nonneg s). lia. }
  replace (len (input l) <=? pos l) with false by (symmetry; apply Z.leb_gt; lia).
  rewrite D, decode_ascii by assumption.
  destruct (b2z c =? LF); cbn; auto.
Qed.

(** [accept] on an ASCII byte: it is consumed when it is in the set, and
    the lexer stays where it is when it is not. *)
Lemma accept_ascii (valid : string) (l : lexer) (c : ascii) (s : list ascii) :
  data_of l = c :: s -> b2z c < 0x80 -> 0 <= pos l ->
  let '(ok, l1) := accept valid l in
  ok = ContainsRune valid (b2z c) /\
  input l1 = input l /\ start l1 = start l /\
  pos l1 = if ok then pos l + 1 else pos l.
Proof.
  intros D A P. unfold accept.
  pose proof (next_ascii l c s D A P) as (N1 & N2 & N3 & N4 & N5).
  destruct (next l) as [r l1]. cbn [fst snd] in *. subst r.
  destruct (ContainsRune valid (b2z c)); [auto|].
  pose proof (backup_frame l1) as (B1 & B2 & B3).
  repeat split; try congruence. lia.
Qed.

Lemma acceptRun_ascii (valid : string) (l : lexer) (c : ascii)
      (s : list ascii) :
  data_of l = c :: s -> b2z c < 0x80 -> 0 <= pos l <= len (input l) ->
  let l1 := acceptRun valid l in
  input l1 = input l /\ start l1 = start l /\
  if ContainsRune valid (b2z c) then pos l + 1 <= pos l1 <= len (input l)
  else pos l1 = pos l.
Proof.
  intros D A P. cbv zeta. rewrite acceptRun_unfold by lia.
  pose proof (next_ascii l c s D A ltac:(lia)) as (N1 & N2 & N3 & N4 & N5).
  pose proof (next_frame l P) as (_ & _ & _ & _ & N6).
  destruct (next l) as [r l1]. cbn [fst snd] in *. subst r.
  destruct (ContainsRune valid (b2z c)).
  - pose proof (acceptRun_preserves_frame (input l) (start l) (pos l + 1)
                  valid l1 ltac:(lia) ltac:(unfold frame; intuition lia))
      as (F1 & F2 & F3).
    auto.
  - pose proof (backup_frame l1) as (B1 & B2 & B3).
    repeat split; try congruence. lia.
Qed.

Lemma bind_snd {A B : Type} (m : M A) (f : A -> M B) (l : lexer) :
  bind m f l = f (fst (m l)) (snd (m l)).
Proof. unfold bind. destruct (m l). reflexivity. Qed.

Section Advances.

Variable T : Tables.

Ltac framed :=
  repeat first
    [ apply preserves_ret
    | apply preserves_get
    | apply accept_preserves_frame; assumption
    | apply next_preserves_frame; assumption
    | apply preserves_call; intros ?; apply acceptRun_preserves_frame;
      assumption
    | apply preserves_bind; [|intros ?]
    | match goal with
      | |- preserves _ (if ?b then _ else _) => destruct b
      end ].

(** [scanNumber] consumes the sign, the digit or the dot it is called on. *)
Lemma scanNumber_advances (l : lexer) (c : ascii) (s : list ascii) :
  in_bounds l -> data_of l = c :: s -> b2z c < 0x80 ->
  starts_number (b2z c) = true ->
  pos l < pos (snd (scanNumber T l)).
Proof.
  intros [B1 B2] D A N.
  assert (Goal : frame (input l) (start l) (pos l + 1) (snd (scanNumber T l)));
    [|destruct Goal as (_ & _ & ?); lia].
  assert (L1 : 0 <= pos l + 1) by lia.
  unfold scanNumber. rewrite bind_snd.
  pose proof (accept_ascii "+-" l c s D A ltac:(lia)) as H1.
  destruct (accept "+-" l) as [ok1 l1]. cbn [fst snd].
  destruct H1 as (-> & I1 & S1 & P1).
  destruct (ContainsRune "+-" (b2z c)) eqn:C1.
  { match goal with |- frame _ _ _ (snd (?m l1)) =>
      assert (Pm : preserves (frame (input l) (start l) (pos l + 1)) m)
        by framed
    end.
    apply Pm. pose proof (next_frame l ltac:(lia)). unfold frame.
    pose proof (len_data_of l ltac:(lia)) as Ld. rewrite D, len_cons in Ld.
    pose proof (len_nonneg s). intuition lia. }
  assert (D1 : data_of l1 = c :: s) by (rewrite <- D; apply data_of_same; auto).
  assert (Le : pos l + 1 <= len (input l)).
  { pose proof (len_data_of l ltac:(lia)) as Ld. rewrite D, len_cons in Ld.
    pose proof (len_nonneg s). lia. }
  rewrite bind_snd.
  pose proof (accept_ascii "0" l1 c s D1 A ltac:(lia)) as H2.
  destruct (accept "0" l1) as [ok2 l2]. cbn [fst snd].
  destruct H2 as (-> & I2 & S2 & P2).
  rewrite I1 in I2. rewrite S1 in S2. rewrite P1 in P2.
  destruct (ContainsRune "0" (b2z c)) eqn:C2.
  { match goal with |- frame _ _ _ (snd (?m l2)) =>
      assert (Pm : preserves (frame (input l) (start l) (pos l + 1)) m)
        by framed
    end.
    apply Pm. unfold frame. intuition (try congruence; lia). }
  assert (D2 : data_of l2 = c :: s)
    by (rewrite <- D; apply data_of_same; congruence).
  rewrite bind_snd. unfold ret at 1. cbn [fst snd].
  rewrite bind_snd. unfold call at 1. cbn [fst snd].
  change (fst (ret "0123456789_"%string l2)) with "0123456789_"%string.
  change (snd (ret "0123456789_"%string l2)) with l2.
  change (snd (call (acceptRun "0123456789_") l2))
    with (acceptRun "0123456789_" l2).
  pose proof (acceptRun_ascii "0123456789_" l2 c s D2 A
                ltac:(rewrite I2; lia)) as H3.
  cbv zeta in H3. destruct H3 as (I3 & S3 & P3).
  rewrite I2 in I3, P3. rewrite S2 in S3. rewrite P2 in P3.
  destruct (ContainsRune "0123456789_" (b2z c)) eqn:C3.
  { match goal with |- frame _ _ _ (snd (?m ?l3)) =>
      assert (Pm : preserves (frame (input l) (start l) (pos l + 1)) m)
        by framed
    end.
    apply Pm. unfold frame. intuition (try congruence; try lia). }
  set (l3 := acceptRun "0123456789_" l2) in *.
  assert (D3 : data_of l3 = c :: s)
    by (rewrite <- D; apply data_of_same; congruence).
  rewrite bind_snd.
  pose proof (accept_ascii "." l3 c s D3 A ltac:(lia)) as H4.
  destruct (accept "." l3) as [ok4 l4]. cbn [fst snd].
  destruct H4 as (-> & I4 & S4 & P4).
  rewrite I3 in I4. rewrite S3 in S4. rewrite P3 in P4.
  assert (C4 : ContainsRune "." (b2z c) = true).
  { clear - N C1 C3. set (r := b2z c) in *. clearbody r.
    unfold starts_number, rune, ContainsRune in *.
    cbn [lit list_ascii_of_string existsb] in *.
    repeat match goal with
    | H : context [b2z ?a] |- _ =>
        let v := eval vm_compute in (b2z a) in change (b2z a) with v in H
    | |- context [b2z ?a] =>
        let v := eval vm_compute in (b2z a) in change (b2z a) with v
    end.
    lia. }
  rewrite C4 in *.
  match goal with |- frame _ _ _ (snd (?m l4)) =>
    assert (Pm : preserves (frame (input l) (start l) (pos l + 1)) m)
      by framed
  end.
  apply Pm. unfold frame. intuition (try congruence; lia).
Qed.

End Advances.

Lemma stepped_strict (b : bool) (l : lexer) (res : result) :
  scanned l res -> (let '(_, _, l') := res in pos l < pos l') ->
  stepped b l res.
Proof.
  intros S P. split; [exact S|]. destruct res as [[it nxt] l'].
  unfold advances. destruct nxt as [[]|]; intros; lia.
Qed.

Lemma stepped_after (b : bool) (l l1 : lexer) (res : result) :
  input l1 = input l -> start l1 = start l -> pos l < pos l1 ->
  scanned l1 res -> stepped b l res.
Proof.
  intros I S P H. apply stepped_strict.
  - apply (scanned_shift l l1); auto. lia.
  - apply scanned_pos in H. destruct res as [[it nxt] l']. lia.
Qed.

Lemma stepped_end (b : bool) (l l' : lexer) (it : item) :
  scanned l (it, None, l') -> stepped b l (it, None, l').
Proof. intros H. split; [exact H|exact I]. Qed.

(** The first rune of a string and its first byte. *)
Lemma first_rune (c : ascii) (s : list ascii) :
  match range_str (c :: s) with p :: _ => p | [] => (0, 0) end
  = (0, fst (utf8.DecodeRuneInString (c :: s))).
Proof. rewrite range_str_cons. reflexivity. Qed.

Lemma ascii_rune (c : ascii) (s : list ascii) :
  fst (utf8.DecodeRuneInString (c :: s)) < 0x80 ->
  fst (utf8.DecodeRuneInString (c :: s)) = b2z c /\ b2z c < 0x80.
Proof.
  destruct (utf8.DecodeRuneInString (c :: s)) as [r w] eqn:D.
  apply decode_cases in D. cbn [fst]. unfold utf8.RuneError in D.
  destruct D as [?|[?|?]]; lia.
Qed.

Lemma rune_of_ascii (c : ascii) (s : list ascii) :
  b2z c < 0x80 -> fst (utf8.DecodeRuneInString (c :: s)) = b2z c.
Proof. intros H. rewrite decode_ascii by exact H. reflexivity. Qed.

Section Stepped.

Variable T : Tables.

Lemma lexNumber_stepped (b : bool) (l : lexer) (c : ascii) (s : list ascii) :
  in_bounds l -> data_of l = c :: s ->
  starts_number (fst (utf8.DecodeRuneInString (c :: s))) = true ->
  stepped b l (lexNumber T l).
Proof.
  intros B D N.
  assert (A : fst (utf8.DecodeRuneInString (c :: s)) < 0x80).
  { unfold starts_number, rune in N.
    repeat match goal with
    | H : context [b2z ?a] |- _ =>
        let v := eval vm_compute in (b2z a) in change (b2z a) with v in H
    end. lia. }
  apply ascii_rune in A. destruct A as [E A]. rewrite E in N.
  pose proof (scanNumber_advances T l c s B D A N) as P.
  destruct B as [B1 B2].
  pose proof (scanNumber_frame T (input l) (start l) (pos l) ltac:(lia) l
                ltac:(unfold frame; intuition lia)) as (I1 & S1 & P1).
  unfold lexNumber, badNumber.
  destruct (scanNumber T l) as [ok l1]. cbn [snd] in *.
  destruct (negb ok);
    [apply stepped_end, scanned_error; auto; lia|].
  destruct (_ || _);
    [|apply stepped_strict; [apply scanned_emit; auto; lia|cbn; lia]].
  pose proof (scanNumber_frame T (input l) (start l) (pos l1) ltac:(lia) l1
                ltac:(unfold frame; intuition lia)) as (I2 & S2 & P2).
  destruct (scanNumber T l1) as [ok2 l2]. cbn [snd] in *.
  destruct (_ || _);
    [apply stepped_end, scanned_error; auto; lia|].
  apply stepped_strict; [apply scanned_emit; auto; lia|cbn; lia].
Qed.

Lemma scanAlphaNumeric_advances (c : ascii) (s : list ascii) :
  isAlphaNumeric T (fst (utf8.DecodeRuneInString (c :: s))) = true ->
  1 <= fst (fst (scanAlphaNumeric T (c :: s))).
Proof.
  intros A. unfold scanAlphaNumeric. rewrite range_str_cons.
  cbn [alnum_loop]. rewrite A. cbn [negb].
  set (r0 := fst (utf8.DecodeRuneInString (c :: s))) in *.
  set (rs := range_from _ 1 s).
  pose proof (alnum_loop_in T rs 0 r0) as H.
  pose proof (len_nonneg s). 
  destruct (alnum_loop T rs 0 r0) as [i r].
  destruct (isAlphaNumeric T r) eqn:E; cbn [fst]; [rewrite len_cons; lia|].
  destruct H as [[= -> ->]|H]; [congruence|].
  apply range_from_lower in H. exact H.
Qed.

Lemma lexIdentifier_stepped (b : bool) (l : lexer) (c : ascii)
      (s : list ascii) :
  in_bounds l -> data_of l = c :: s ->
  isAlphaNumeric T (fst (utf8.DecodeRuneInString (c :: s))) = true ->
  stepped b l (lexIdentifier T l).
Proof.
  intros B D A. apply stepped_strict; [apply lexIdentifier_scanned, B|].
  unfold lexIdentifier. rewrite D.
  pose proof (scanAlphaNumeric_advances c s A) as H.
  destruct (scanAlphaNumeric T (c :: s)) as [[i r] w]. cbn [fst] in H.
  destruct (negb _); cbn; lia.
Qed.

End Stepped.

Lemma scanned_emit_at (l l1 : lexer) (t : itemType) (nxt : option stateFn) :
  input l1 = input l -> start l <= start l1 <= pos l1 ->
  pos l <= pos l1 <= len (input l) ->
  scanned l (let '(ret, l') := emit t l1 in (ret, nxt, l')).
Proof.
  intros I S P. unfold scanned, emit. cbn -[len slice]. rewrite I.
  repeat split; try lia; reflexivity.
Qed.

Lemma scanned_within (l l1 : lexer) (res : result) :
  input l1 = input l -> start l <= start l1 -> pos l <= pos l1 ->
  scanned l1 res -> scanned l res.
Proof.
  intros I S P. destruct res as [[it nxt] l'].
  unfold scanned. rewrite I. intuition lia.
Qed.

Lemma skipn_data_of (l l1 : lexer) (i : Z) :
  input l1 = input l -> 0 <= pos l -> 0 <= i -> pos l1 = pos l + i ->
  data_of l1 = skipn (Z.to_nat i) (data_of l).
Proof.
  unfold data_of, slice_from. intros -> P I ->.
  rewrite skipn_skipn. f_equal. lia.
Qed.

Lemma lexComment_next (l : lexer) :
  snd (fst (lexComment l)) = Some StWhitespace.
Proof.
  unfold lexComment.
  match goal with |- context [emitComment ?x] => destruct (emitComment x) end;
    reflexivity.
Qed.

Lemma blank_first_rune (l : lexer) (c : ascii) (t : list ascii) :
  data_of l = c :: t ->
  blank_first l =
  isSpaceTabCR (fst (utf8.DecodeRuneInString (c :: t)))
  || (fst (utf8.DecodeRuneInString (c :: t)) =? LF).
Proof.
  intros D. unfold blank_first. rewrite D.
  pose proof (decode_cases c t _ _ (surjective_pairing _)) as Dc.
  set (r := fst (utf8.DecodeRuneInString (c :: t))) in *.
  unfold isSpaceTabCR, SP, TAB, CR, LF, utf8.RuneError, high in *.
  destruct Dc as [(_ & -> & _)|[Dc|Dc]]; [reflexivity| |]; lia.
Qed.

(** [lexWhitespace] consumes input when it returns itself, and returns
    [lexInsideAction] only before a byte that is no white space. *)
Lemma lexWhitespace_stepped (l : lexer) :
  in_bounds l ->
  scanned l (lexWhitespace l) /\
  let '(_, nxt, l') := lexWhitespace l in
  match nxt with
  | None => True
  | Some StWhitespace => pos l < pos l'
  | Some StInsideAction => blank_first l' = false
  | Some StInActionSpace => False
  end.
Proof.
  intros [B1 B2]. unfold lexWhitespace.
  pose proof (lexWhitespace_loop_last (range_str (data_of l)) 0 eof (line l))
    as L.
  destruct (lexWhitespace_loop _ _ _ _) as [[i r] ln].
  set (l2 := if r =? eof then set_width (set_line l ln) 0
             else if negb (i =? 0)
                  then set_width (set_pos (set_line l ln)
                                          (pos (set_line l ln) + i)) 1
                  else set_line l ln).
  assert (H2 : input l2 = input l /\ start l2 = start l /\
               pos l2 = pos l + i /\ 0 <= i /\
               (r = eof \/ In (i, r) (range_str (data_of l)))).
  { destruct L as [(-> & -> & _)|L].
    - subst l2. cbn. repeat split; auto; lia.
    - pose proof (range_str_lower _ _ L) as Hi. cbn [fst] in Hi.
      assert (r <> eof).
      { apply range_str_decode in L. destruct L as (_ & c & t & _ & ->).
        pose proof (decode_cases c t _ _ (surjective_pairing _)) as Dc.
        unfold eof, utf8.RuneError in *. pose proof (b2z_range c).
        destruct Dc as [?|[?|?]]; lia. }
      subst l2. replace (r =? eof) with false by (symmetry; apply Z.eqb_neq; auto).
      destruct (i =? 0) eqn:E; zbool; cbn; repeat split; auto; lia. }
  destruct H2 as (I2 & S2 & P2 & Hi & In2).
  assert (Up : r <> eof -> pos l + i < len (input l)).
  { intros Hr. destruct In2 as [?|In2]; [contradiction|].
    apply range_str_decode in In2. rewrite data_of_len in In2 by lia. lia. }
  fold l2.
  destruct (isSpaceTabCR r || (r =? LF) || (r =? eof)) eqn:E1.
  { split; [|exact I].
    apply scanned_emit_at;
      cbn [input start pos set_start set_startLine]; try lia; auto.
    destruct (Z.eq_dec r eof) as [->|Hr].
    - destruct L as [(-> & _)|L]; [lia|].
      destruct In2 as [_|In2];
        [|apply range_str_decode in In2; rewrite data_of_len in In2 by lia; lia].
      exfalso. apply range_str_decode in L.
      destruct L as (_ & c & t & _ & Hr).
      pose proof (decode_cases c t _ _ (surjective_pairing _)) as Dc.
      rewrite <- Hr in Dc. unfold eof, utf8.RuneError in *.
      pose proof (b2z_range c). destruct Dc as [?|[?|?]]; lia.
    - specialize (Up Hr). lia. }
  assert (Hr : r <> eof) by (unfold eof in *; lia).
  specialize (Up Hr). destruct In2 as [?|In2]; [contradiction|].
  destruct (r =? rune "#") eqn:E2.
  - set (l3 := set_startLine (set_start l2 (pos l2)) (line (set_start l2 (pos l2)))).
    destruct (lexComment_scanned l3) as [Sc Ad].
    { subst l3. unfold in_bounds. cbn -[len]. rewrite I2. lia. }
    { reflexivity. }
    { subst l3. cbn -[len]. rewrite I2. lia. }
    split.
    + apply (scanned_within l l3); subst l3; cbn -[len]; auto; lia.
    + pose proof (lexComment_next l3) as Nx.
      destruct (lexComment l3) as [[it nxt] l']. cbn [fst snd] in Nx.
      subst nxt. unfold advances in Ad. specialize (Ad eq_refl).
      subst l3. cbn [pos set_start set_startLine] in Ad. lia.
  - split.
    + apply scanned_emit_at;
        cbn [input start pos set_start set_startLine]; try lia; auto.
    + unfold emit. cbn [fst snd].
      match goal with |- blank_first ?x = false => set (l' := x) end.
      apply range_str_decode in In2. destruct In2 as (_ & c & t & Sk & Er).
      assert (D' : data_of l' = c :: t).
      { rewrite <- Sk. apply skipn_data_of; subst l'; cbn; auto; lia. }
      rewrite (blank_first_rune l' c t D'). rewrite <- Er.
      apply orb_false_iff in E1. destruct E1 as [E1 _]. exact E1.
Qed.

Lemma lexInActionSpace_loop_in (rs : list (Z * Z)) (s : spaceScan) :
  let s' := lexInActionSpace_loop rs s in
  (sc_i s' = sc_i s /\ sc_r s' = sc_r s) \/
  In (sc_i s', sc_r s') rs \/
  (sc_r s' = LF /\ In (sc_i s' - 1, LF) rs).
Proof.
  cbv zeta. revert s. induction rs as [|[i r] rs IH]; intros s;
    cbn [lexInActionSpace_loop]; [auto|].
  assert (Step : forall s1, sc_i s1 = i -> sc_r s1 = r ->
            let s' := lexInActionSpace_loop rs s1 in
            (sc_i s' = sc_i s /\ sc_r s' = sc_r s) \/
            In (sc_i s', sc_r s') ((i, r) :: rs) \/
            (sc_r s' = LF /\ In (sc_i s' - 1, LF) ((i, r) :: rs))).
  { intros s1 Hi Hr. cbv zeta.
    destruct (IH s1) as [[E1 E2]|[H|[H1 H2]]].
    - right. left. left. congruence.
    - right. left. right. exact H.
    - right. right. split; [exact H1|right; exact H2]. }
  destruct (isSpaceTabCR r); [apply Step; reflexivity|].
  destruct (r =? LF) eqn:E.
  - apply Z.eqb_eq in E. subst r.
    destruct (sc_hasInlineBackslash s); [apply Step; reflexivity|].
    right. right. cbn. split; [reflexivity|]. left. f_equal. lia.
  - destruct (r =? BACKSLASH); [apply Step; reflexivity|].
    right. left. left. reflexivity.
Qed.

Lemma rune_not_eof (s : list ascii) (j r : Z) :
  In (j, r) (range_str s) -> r <> eof.
Proof.
  intros H. apply range_str_decode in H. destruct H as (_ & c & t & _ & ->).
  pose proof (decode_cases c t _ _ (surjective_pairing _)) as Dc.
  unfold eof, utf8.RuneError in *. pose proof (b2z_range c).
  destruct Dc as [?|[?|?]]; lia.
Qed.

(** Where the loop of [lexInActionSpace] stops: inside the data, and before
    its last byte when it stops on a rune of the data that is no LF. *)
Lemma lexInActionSpace_loop_bounds (l : lexer) :
  0 <= pos l <= len (input l) ->
  let s := lexInActionSpace_loop (range_str (data_of l))
             (mkSpaceScan 0 eof (line l) false false) in
  0 <= sc_i s <= len (input l) - pos l /\
  (sc_r s <> eof -> sc_r s <> LF -> sc_i s < len (input l) - pos l).
Proof.
  intros P. cbv zeta.
  pose proof (lexInActionSpace_loop_in (range_str (data_of l))
                (mkSpaceScan 0 eof (line l) false false)) as H.
  cbv zeta in H. cbn [sc_i sc_r] in H.
  destruct H as [[E1 E2]|[H|[H1 H2]]].
  - rewrite E1, E2. split; [lia|congruence].
  - apply range_str_decode in H. rewrite data_of_len in H by lia. lia.
  - apply range_str_decode in H2. rewrite data_of_len in H2 by lia.
    split; [lia|congruence].
Qed.

Lemma lexInActionSpace_body_stepped (inside : lexer -> result) (l : lexer) :
  (forall l1, in_bounds l1 ->
              stepped (negb (blank_first l1)) l1 (inside l1)) ->
  in_bounds l -> stepped false l (lexInActionSpace_body inside l).
Proof.
  intros Hin [B1 B2]. unfold lexInActionSpace_body.
  pose proof (lexInActionSpace_loop_bounds l ltac:(lia)) as [F1 F2].
  cbv zeta in F1, F2.
  set (s := lexInActionSpace_loop _ _) in *.
  assert (Inside : forall l1,
             input l1 = input l -> start l1 = start l ->
             pos l <= pos l1 <= len (input l) ->
             stepped false l (inside l1)).
  { intros l1 I1 S1 P1.
    destruct (Hin l1) as [Sc Ad].
    { unfold in_bounds. rewrite I1, S1. lia. }
    split; [apply (scanned_within l l1); auto; lia|].
    apply scanned_pos in Sc.
    destruct (inside l1) as [[it nxt] l']. unfold advances in *.
    destruct nxt as [[]|]; intros; try discriminate; lia. }
  assert (Right : forall l1,
             input l1 = input l -> start l1 = start l ->
             pos l <= pos l1 <= len (input l) ->
             stepped false l
               (let '(ret, l0) :=
                  emit itemRightDelim
                    (set_startLine (set_start l1 (pos l1))
                                   (line (set_start l1 (pos l1)))) in
                (ret, Some StWhitespace, l0))).
  { intros l1 I1 S1 P1. split.
    - apply scanned_emit_at; cbn [input start pos set_start set_startLine];
        auto; lia.
    - cbn. discriminate. }
  assert (Space : forall l1,
             input l1 = input l -> start l1 = start l ->
             pos l < pos l1 <= len (input l) ->
             stepped false l
               (let '(ret, l0) := emit itemSpace l1 in
                (ret, Some StInsideAction, l0))).
  { intros l1 I1 S1 P1. apply stepped_strict.
    - apply scanned_emit_at; auto; lia.
    - cbn. lia. }
  cbv zeta.
  destruct (isSpaceTabCR (sc_r s)) eqn:E1.
  { assert (sc_i s < len (input l) - pos l).
    { apply F2; unfold isSpaceTabCR, SP, TAB, CR, eof, LF in *; lia. }
    destruct (_ || _); [apply Right; cbn; auto; lia|].
    destruct (sc_i s =? 0); [apply Inside|apply Space]; cbn; auto; lia. }
  destruct (sc_r s =? LF) eqn:E2.
  { destruct (_ || _); [apply Right; cbn; auto; lia|].
    destruct (sc_i s =? 0) eqn:E0; [apply Inside|apply Space]; cbn; auto;
      lia. }
  destruct (sc_r s =? rune ";") eqn:E3.
  { assert (sc_i s < len (input l) - pos l).
    { apply F2; unfold rune, eof, LF in *;
        change (b2z ";") with 59 in *; lia. }
    apply Right; cbn; auto; lia. }
  destruct (sc_r s =? rune "#") eqn:E4.
  { apply Right; cbn; auto; lia. }
  destruct (sc_r s =? eof) eqn:E5.
  { apply stepped_end.
    apply scanned_emit_at;
      cbn [input start pos set_start set_startLine set_width set_pos set_line];
      auto; lia. }
  destruct (sc_emitRightDelim s); [apply Right; cbn; auto; lia|].
  destruct (sc_i s =? 0) eqn:E0; [apply Inside|apply Space]; cbn; auto; lia.
Qed.

Ltac numerals :=
  unfold rune, SP, TAB, CR, LF, BACKSLASH, SQUOTE, DQUOTE, BQUOTE, eof,
    unicode.MaxASCII in *;
  repeat match goal with
  | H : context [b2z ?a] |- _ =>
      lazymatch a with
      | Ascii _ _ _ _ _ _ _ _ =>
          let v := eval vm_compute in (b2z a) in change (b2z a) with v in H
      end
  | |- context [b2z ?a] =>
      lazymatch a with
      | Ascii _ _ _ _ _ _ _ _ =>
          let v := eval vm_compute in (b2z a) in change (b2z a) with v
      end
  end.

Ltac direct :=
  unfold stepped, scanned, advances, emit, errorf;
  cbn -[len slice];
  repeat split; intros; try reflexivity; try congruence; try lia;
  try match goal with
      | H : _ \/ _ |- _ => destruct H; congruence
      end.

Ltac branch E :=
  lazymatch goal with
  | |- stepped _ _ (if ?b then _ else _) => destruct b eqn:E
  end.

Section SteppedInside.

Variable T : Tables.

Lemma lexInsideAction_body_stepped (space : lexer -> result) (l : lexer) :
  (forall l1, in_bounds l1 -> stepped false l1 (space l1)) ->
  in_bounds l ->
  stepped (negb (blank_first l)) l (lexInsideAction_body T space l).
Proof.
  intros Hs [B1 B2]. unfold lexInsideAction_body.
  pose proof (data_of_len l ltac:(lia)) as Ld.
  destruct (data_of l) as [|c s] eqn:D.
  { change (len [] =? 0) with true. cbv iota.
    assert (Bf : blank_first l = true) by (unfold blank_first; rewrite D; reflexivity).
    rewrite Bf. destruct (0 <? parenDepth l); direct. }
  rewrite len_cons in Ld. pose proof (len_nonneg s) as Ls.
  replace (len (c :: s) =? 0) with false
    by (symmetry; apply Z.eqb_neq; rewrite len_cons; lia).
  rewrite first_rune. cbv iota beta.
  pose proof (blank_first_rune l c s D) as Bf.
  set (r := fst (utf8.DecodeRuneInString (c :: s))) in *.
  set (l1 := set_pos (set_width l 1) (pos (set_width l 1) + 1)).
  assert (I1 : input l1 = input l) by reflexivity.
  assert (S1 : start l1 = start l) by reflexivity.
  assert (P1 : pos l < pos l1) by (subst l1; cbn; lia).
  assert (B1' : in_bounds l1)
    by (subst l1; unfold in_bounds; cbn -[len]; lia).
  destruct ((rune "0" <=? r) && (r <=? rune "9")) eqn:E1.
  { apply (lexNumber_stepped T _ l c s); [split; assumption|exact D|].
    fold r. unfold starts_number. rewrite E1. reflexivity. }
  destruct (isAlphaNumeric T r) eqn:E2.
  { apply (lexIdentifier_stepped T _ l c s); [split; assumption|exact D|].
    exact E2. }
  destruct ((r =? SP) || (r =? LF) || (r =? TAB) || (r =? CR)) eqn:E3.
  { replace (blank_first l) with true
      by (rewrite Bf; unfold isSpaceTabCR; numerals; lia).
    apply Hs. split; assumption. }
  destruct (r =? rune ".") eqn:E4.
  { branch E5; [direct|]. branch E6.
    - apply (stepped_after _ l l1); auto.
      apply lexFieldOrVariable_scanned. exact B1'.
    - apply (lexNumber_stepped T _ l c s); [split; assumption|exact D|].
      fold r. unfold starts_number. rewrite E4.
      rewrite !orb_true_r. reflexivity. }
  destruct (r =? rune "|"); [direct|].
  destruct (r =? rune "="); [direct|].
  destruct (r =? rune ":").
  { branch E5; [direct|].
    apply orb_false_iff in E5. destruct E5 as [E5 _].
    rewrite len_cons in E5. direct. }
  destruct (r =? DQUOTE).
  { apply (stepped_after _ l l1); auto. apply lexQuote_scanned, B1'. }
  destruct (r =? BQUOTE).
  { apply (stepped_after _ l l1); auto. apply lexRawQuote_scanned, B1'. }
  destruct (r =? rune "$").
  { apply (stepped_after _ l l1); auto. apply lexVariable_scanned, B1'. }
  destruct (r =? SQUOTE).
  { apply (stepped_after _ l l1); auto. apply lexChar_scanned, B1'. }
  destruct (r =? rune "("); [direct|].
  destruct (r =? rune ")").
  { cbv beta iota zeta delta [emit].
    match goal with |- context [if ?b then _ else _] => destruct b end;
      direct. }
  destruct ((r =? rune "+") || (r =? rune "-")) eqn:E6.
  { apply (lexNumber_stepped T _ l c s); [split; assumption|exact D|].
    fold r. unfold starts_number.
    apply orb_true_iff in E6. destruct E6 as [-> | ->];
      rewrite ?orb_true_r; reflexivity. }
  destruct (r =? rune ";"); [direct|].
  branch E7; direct.
Qed.

Lemma lexInsideAction_stepped (l : lexer) :
  in_bounds l -> stepped (negb (blank_first l)) l (lexInsideAction T l).
Proof.
  unfold lexInsideAction. apply lexInsideAction_body_stepped.
  intros l1 H1. apply lexInActionSpace_body_stepped; [|exact H1].
  intros l2 [H2 H3]. apply stepped_end. apply scanned_error; auto; lia.
Qed.

Lemma lexInActionSpace_stepped (l : lexer) :
  in_bounds l -> stepped false l (lexInActionSpace T l).
Proof.
  unfold lexInActionSpace. apply lexInActionSpace_body_stepped.
  apply lexInsideAction_stepped.
Qed.

End SteppedInside.

Lemma weight_bounds (st : stateFn) (l : lexer) : 1 <= weight st l <= 3.
Proof. destruct st; cbn; try destruct (blank_first l); lia. Qed.

Lemma in_order_from (inp : list ascii) (lo lo' : Z) (its : list item) :
  lo <= lo' -> in_order inp lo' its -> in_order inp lo its.
Proof.
  revert lo lo'. induction its as [|it its IH]; intros lo lo' H; cbn;
    [auto|].
  intros [H1 H2]. split; [lia|].
  destruct (is_typ (Item.typ it) itemError); [|exact H2].
  apply (IH lo lo'); assumption.
Qed.

Lemma is_typ_error (t : itemType) :
  is_typ t itemError = false <-> t <> itemError.
Proof.
  unfold is_typ. destruct (itemType_eq_dec t itemError); split; intros;
    congruence.
Qed.

Section Stream.

Variable T : Tables.

Lemma run_state_ends (st : stateFn) (l l1 : lexer) (ret : item) :
  run_state T st l = (ret, None, l1) -> Item.notEmpty ret = true.
Proof.
  intros R. destruct st; cbn [run_state] in R.
  - pose proof (lexWhitespace_whitespace l) as W. rewrite R in W. apply W.
  - pose proof (lexInsideAction_action T l) as W. rewrite R in W. apply W.
  - pose proof (lexInActionSpace_action T l) as W. rewrite R in W. apply W.
Qed.

Lemma run_state_scanned (st : stateFn) (l : lexer) :
  in_bounds l -> scanned l (run_state T st l).
Proof.
  intros B. destruct st; cbn [run_state].
  - exact (proj1 (lexWhitespace_stepped l B)).
  - exact (proj1 (lexInsideAction_stepped T l B)).
  - exact (proj1 (lexInActionSpace_stepped T l B)).
Qed.

(** Each state function that does not end the state machine lowers the
    bound. *)
Lemma run_state_potential (st : stateFn) (l : lexer) :
  in_bounds l ->
  let '(_, nxt, l') := run_state T st l in
  match nxt with
  | None => True
  | Some st' =>
      3 * (len (input l) - pos l') + weight st' l'
      < 3 * (len (input l) - pos l) + weight st l
  end.
Proof.
  intros B. pose proof (run_state_scanned st l B) as S.
  destruct st; cbn [run_state] in *.
  - pose proof (lexWhitespace_stepped l B) as [_ A].
    destruct (lexWhitespace l) as [[it nxt] l'].
    destruct S as (_ & P & _).
    destruct nxt as [[]|]; cbn [weight];
      [lia|rewrite A; lia|contradiction|exact I].
  - pose proof (lexInsideAction_stepped T l B) as [_ A].
    destruct (lexInsideAction T l) as [[it nxt] l'].
    destruct S as (_ & P & _). unfold advances in A.
    pose proof (fun st => weight_bounds st l').
    destruct nxt as [[]|]; cbn [weight] in *;
      [|destruct (blank_first l'), (blank_first l); lia
       |destruct (blank_first l); lia|exact I].
    destruct (blank_first l); cbn [negb] in A; [lia|].
    specialize (A eq_refl). lia.
  - pose proof (lexInActionSpace_stepped T l B) as [_ A].
    destruct (lexInActionSpace T l) as [[it nxt] l'].
    destruct S as (_ & P & _). unfold advances in A.
    destruct nxt as [[]|]; cbn [weight] in *;
      [lia|destruct (blank_first l'); lia|lia|exact I].
Qed.

(** One call of [nextItem]. *)
Lemma nextItem_scanned (l : lexer) :
  in_bounds l ->
  let it := fst (nextItem T l) in
  let l' := snd (nextItem T l) in
  in_bounds l' /\ input l' = input l /\
  start l <= Item.pos it /\ start l <= start l' /\
  (Item.typ it <> itemError ->
   Item.pos it <= pos l' /\ start l' = pos l' /\
   Item.val it = Text (slice (input l) (Item.pos it) (pos l'))) /\
  (nextState l' <> None -> potential l' < potential l).
Proof.
  cbv zeta.
  apply (nextItem_ind T
           (fun l it l' =>
              in_bounds l ->
              in_bounds l' /\ input l' = input l /\
              start l <= Item.pos it /\ start l <= start l' /\
              (Item.typ it <> itemError ->
               Item.pos it <= pos l' /\ start l' = pos l' /\
               Item.val it = Text (slice (input l) (Item.pos it) (pos l'))) /\
              (nextState l' <> None -> potential l' < potential l))).
  - intros l0 E [B1 B2]. unfold emit, in_bounds. cbn -[len slice].
    repeat split; try lia. rewrite E. congruence.
  - intros l0 st ret nxt l1 E R Hn B.
    pose proof (run_state_scanned st l0 B) as S.
    pose proof (run_state_potential st l0 B) as Pt.
    assert (Ne : Item.notEmpty ret = true).
    { destruct Hn as [-> |Hn]; [|exact Hn]. apply (run_state_ends st l0 l1), R. }
    rewrite R in S, Pt. destruct S as (I & P & S & Sp & It).
    destruct (It Ne) as [It1 It2]. destruct B as [B1 B2].
    unfold in_bounds. cbn [input start pos set_nextState nextState].
    rewrite I. repeat split; try lia; try (apply It2; assumption).
    + apply Sp. right. assumption.
    + intros Hx. unfold potential. cbn [nextState set_nextState input pos].
      rewrite E, I. destruct nxt as [st'|]; [|congruence].
      exact Pt.
  - intros l0 l1 it l' E R IH B.
    pose proof (run_state_scanned StWhitespace l0 B) as S.
    pose proof (run_state_potential StWhitespace l0 B) as Pt.
    cbn [run_state] in S, Pt. rewrite R in S, Pt.
    destruct S as (I & P & S & Sp & _).
    assert (Sp' : start l1 = pos l1) by (apply Sp; left; discriminate).
    clear Sp.
    destruct B as [B1 B2].
    destruct IH as (B' & I' & P1 & P2 & It & Po).
    { unfold in_bounds. cbn [input start pos set_nextState]. rewrite I. lia. }
    cbn [input start pos set_nextState] in *.
    rewrite I in *.
    split; [exact B'|]. split; [exact I'|].
    split; [lia|]. split; [lia|]. split; [exact It|].
    intros Hx. specialize (Po Hx).
    unfold potential in *. cbn [nextState set_nextState input pos] in *.
    rewrite E. rewrite I in Po. cbn [weight] in *. lia.
Qed.

Lemma after_S (n : nat) (l : lexer) :
  after T (S n) l = after T n (snd (nextItem T l)).
Proof. reflexivity. Qed.

Lemma after_in_bounds (n : nat) (l : lexer) :
  in_bounds l -> in_bounds (after T n l) /\ input (after T n l) = input l.
Proof.
  revert l. induction n as [|n IH]; intros l B; [auto|].
  rewrite after_S. pose proof (nextItem_scanned l B) as (B' & I' & _).
  destruct (IH _ B') as [H1 H2]. split; [exact H1|congruence].
Qed.

Lemma items_in_order_from (n : nat) (l : lexer) :
  in_bounds l -> in_order (input l) (start l) (items T n l).
Proof.
  revert l. induction n as [|n IH]; intros l B; [exact I|].
  rewrite items_S. cbn [in_order].
  pose proof (nextItem_scanned l B) as (B' & I' & P1 & P2 & It & _).
  specialize (IH _ B'). rewrite I' in IH.
  split; [exact P1|].
  destruct (is_typ _ itemError) eqn:E.
  - apply (in_order_from _ _ (start (snd (nextItem T l)))); assumption.
  - apply is_typ_error in E. destruct (It E) as (It1 & It2 & It3).
    exists (pos (snd (nextItem T l))). destruct B' as [B1' B2'].
    rewrite I' in B2'. repeat split; try lia; [exact It3|].
    rewrite <- It2. exact IH.
Qed.

Lemma potential_after (n : nat) (l : lexer) :
  in_bounds l -> nextState (after T n l) <> None ->
  potential (after T n l) + Z.of_nat n <= potential l.
Proof.
  revert l. induction n as [|n IH]; intros l B H; [cbn; lia|].
  rewrite after_S in *.
  pose proof (nextItem_scanned l B) as (B' & _ & _ & _ & _ & Po).
  specialize (IH _ B' H).
  assert (nextState (snd (nextItem T l)) <> None).
  { intros E. apply H. apply (ended_stays T n _ E). }
  specialize (Po ltac:(assumption)). lia.
Qed.

Lemma potential_positive (l : lexer) :
  in_bounds l -> nextState l <> None -> 1 <= potential l.
Proof.
  intros [B1 B2] H. unfold potential.
  destruct (nextState l) as [st|]; [|congruence].
  pose proof (weight_bounds st l). lia.
Qed.

End Stream.

(** X1. The lexer ends on every input: after [3 * len(input) + 2] calls of
    [nextItem] at most, the next state is [nil], so that an [itemEOF] or an
    [itemError] has been returned and every later call returns
    [itemEOF]. *)
Theorem lexer_terminates (T : Tables) (name : string) (inp : list ascii)
        (ec : bool) (n : nat) :
  (3 * List.length inp + 2 <= n)%nat ->
  nextState (after T n (lex name inp ec)) = None /\
  Item.typ (fst (nextItem T (after T n (lex name inp ec)))) = itemEOF.
Proof.
  intros H.
  assert (E : nextState (after T n (lex name inp ec)) = None).
  { destruct (nextState (after T n (lex name inp ec))) as [st|] eqn:E;
      [exfalso|reflexivity].
    assert (B : in_bounds (lex name inp ec))
      by (unfold in_bounds; cbn -[len]; pose proof (len_nonneg inp); lia).
    pose proof (potential_after T n _ B ltac:(congruence)) as P.
    pose proof (potential_positive _ (proj1 (after_in_bounds T n _ B))
                  ltac:(congruence)) as Q.
    unfold potential at 2 in P.
    cbn [nextState lex input pos weight] in P.
    unfold len in P. lia. }
  split; [exact E|]. rewrite (nextItem_terminated T _ E). reflexivity.
Qed.

Lemma lexer_terminates_witness :
  nextState (after latin1Tables 11 (lex "t" (lit "a;b") true)) = None /\
  Item.typ (fst (nextItem latin1Tables
                   (after latin1Tables 11 (lex "t" (lit "a;b") true))))
  = itemEOF.
Proof.
  apply (lexer_terminates latin1Tables "t" (lit "a;b") true 11).
  cbn. lia.
Defined.

(** X2. The items of every input follow each other in the input: each item
    starts at or after the end of the one before it, inside the input, and
    the value of every item that is no error is the bytes of the input from
    the position of the item to its end. *)
Theorem items_in_order (T : Tables) (name : string) (inp : list ascii)
        (ec : bool) (n : nat) :
  in_order inp 0 (items T n (lex name inp ec)).
Proof.
  apply (items_in_order_from T n (lex name inp ec)).
  unfold in_bounds. cbn -[len]. pose proof (len_nonneg inp). lia.
Qed.

(** ** The shape of the item stream *)

Section Shape.

Variable T : Tables.

Lemma all_eof_after_end (n : nat) (l : lexer) :
  nextState l = None ->
  forallb (fun t' => is_typ t' itemEOF) (map Item.typ (items T n l)) = true.
Proof.
  intros H. pose proof (ended_items T n l H) as F.
  induction F as [|it its Ht _ IH]; [reflexivity|].
  cbn [map forallb]. rewrite Ht, IH. reflexivity.
Qed.

Lemma stream_shape_from (n : nat) (l : lexer) :
  match nextState l with
  | None => forallb (fun t' => is_typ t' itemEOF) (map Item.typ (items T n l))
  | Some StWhitespace => stream_shape false (map Item.typ (items T n l))
  | Some _ => stream_shape true (map Item.typ (items T n l))
  end = true.
Proof.
  revert l. induction n as [|n IH]; intros l.
  { destruct (nextState l) as [[]|]; reflexivity. }
  destruct (nextState l) as [st|] eqn:S;
    [|apply all_eof_after_end; exact S].
  rewrite items_S. cbn [map stream_shape].
  pose proof (nextItem_step T l) as [_ H]. rewrite S in H.
  specialize (IH (snd (nextItem T l))).
  destruct (nextItem T l) as [it l']. cbn [fst snd] in *.
  destruct st.
  - destruct H as [[-> H]|[[-> H]|[-> H]]]; rewrite H in IH; exact IH.
  - destruct H as [[[->| ->] H]|[[-> H]|[Ht [H|H]]]]; rewrite H in IH;
      try exact IH; destruct (Item.typ it); try discriminate; exact IH.
  - destruct H as [[[->| ->] H]|[[-> H]|[Ht [H|H]]]]; rewrite H in IH;
      try exact IH; destruct (Item.typ it); try discriminate; exact IH.
Qed.

End Shape.

(** X3. The items of every input have the shape of a sequence of actions:
    comments and left delimiters come only between actions, tokens, right
    delimiters and errors only inside an action, each left delimiter opens
    an action and each right delimiter closes one, and after an [itemEOF] or
    an [itemError] every item is [itemEOF]. *)
Theorem items_have_stream_shape (T : Tables) (name : string)
        (inp : list ascii) (ec : bool) (n : nat) :
  stream_shape false (map Item.typ (items T n (lex name inp ec))) = true.
Proof. apply (stream_shape_from T n (lex name inp ec)). Qed.

(** ** [next], [peek] and [backup] *)

Lemma peek_next (l : lexer) : 0 <= pos l -> peek l = fst (next l).
Proof.
  intros P. unfold peek, next.
  destruct (len (input l) <=? pos l) eqn:E.
  - apply Z.leb_le in E. pose proof (len_data_of l P) as L.
    destruct (data_of l) as [|c s]; [reflexivity|].
    rewrite len_cons in L. pose proof (len_nonneg s). lia.
  - apply Z.leb_gt in E.
    destruct (data_of_nonempty l ltac:(lia)) as (c & s & D).
    rewrite D, range_str_cons.
    destruct (utf8.DecodeRuneInString (c :: s)). reflexivity.
Qed.

(** X4. [backup] undoes [next]: after a call of [next] and a call of
    [backup] the lexer stands where it stood, on the same line, and [peek]
    there is the rune that [next] returned. *)
Theorem next_backup (l : lexer) :
  0 <= pos l ->
  let l' := backup (snd (next l)) in
  pos l' = pos l /\ line l' = line l /\
  input l' = input l /\ start l' = start l /\
  peek l' = fst (next l).
Proof.
  intros P. cbv zeta.
  assert (H : pos (backup (snd (next l))) = pos l /\
              line (backup (snd (next l))) = line l /\
              input (backup (snd (next l))) = input l /\
              start (backup (snd (next l))) = start l).
  { unfold next. destruct (len (input l) <=? pos l) eqn:E.
    { unfold backup. cbn. rewrite Z.sub_0_r. auto. }
    apply Z.leb_gt in E.
    destruct (data_of_nonempty l ltac:(lia)) as (c & s & D).
    rewrite D. pose proof (byte_at_data l c s P D) as Hb.
    destruct (utf8.DecodeRuneInString (c :: s)) as [r w] eqn:Dec.
    apply decode_cases in Dec. unfold backup.
    cbn [snd].
    assert (Hr : (r =? LF) = (w =? 1) && (b2z c =? LF)).
    { unfold LF, utf8.RuneError, high in *.
      destruct Dec as [?|[?|?]]; lia. }
    destruct (r =? LF) eqn:E1;
      cbn [pos width input start line set_pos set_width set_line];
      replace (pos l + w - w) with (pos l) by lia; rewrite Hb, <- Hr;
      cbn [pos width input start line set_pos set_width set_line];
      repeat split; lia. }
  destruct H as (H1 & H2 & H3 & H4). repeat split; try assumption.
  rewrite <- (peek_next l P). unfold peek.
  rewrite (data_of_same l (backup (snd (next l))) H3 H1). reflexivity.
Qed.

Lemma next_backup_witness :
  let l := after latin1Tables 1 (lex "t" (lit "ab") true) in
  let l' := backup (snd (next l)) in
  0 <= pos l /\ fst (next l) = rune "a" /\
  pos l' = pos l /\ line l' = line l /\
  input l' = input l /\ start l' = start l /\
  peek l' = fst (next l).
Proof.
  cbv zeta. split; [vm_compute; discriminate|].
  split; [reflexivity|].
  apply (next_backup (after latin1Tables 1 (lex "t" (lit "ab") true))).
  vm_compute. discriminate.
Defined.

(** ** The end of an action at a semicolon *)

Lemma lexInActionSpace_body_semicolon (k : lexer -> result) (l : lexer)
      (ws rest : list ascii) :
  Forall is_blank ws -> data_of l = ws ++ semicolon :: rest ->
  lexInActionSpace_body k l =
  (Item.mk itemRightDelim (pos l + len ws + 1) (Text []) (line l) true,
   Some StWhitespace, right_delim_at l (pos l + len ws + 1) (line l)).
Proof.
  intros F D. unfold lexInActionSpace_body. rewrite D. unfold range_str.
  rewrite (lexInActionSpace_loop_stop ws rest semicolon)
    by (assumption || (vm_compute; congruence) || reflexivity).
  cbv beta zeta. cbn [sc_i sc_r sc_line sc_emitRightDelim]. eval_if.
  unfold emit. cbn -[slice len]. rewrite slice_empty. reflexivity.
Qed.

Section Semicolons.

Variable T : Tables.

Lemma lexInsideAction_semicolon (l : lexer) (rest : list ascii) :
  data_of l = semicolon :: rest -> startLine l = line l ->
  lexInsideAction T l =
  (Item.mk itemRightDelim (pos l + 1) (Text []) (line l) true,
   Some StWhitespace, right_delim_at l (pos l + 1) (line l)).
Proof.
  intros D S. unfold lexInsideAction, lexInsideAction_body.
  rewrite D, range_str_cons, decode_ascii by (vm_compute; reflexivity).
  replace (len (semicolon :: rest) =? 0) with false
    by (rewrite len_cons; pose proof (len_nonneg rest); lia).
  cbn [fst snd]. eval_if.
  unfold emit. cbn -[slice len]. rewrite slice_empty, S. reflexivity.
Qed.

(** X5. Inside an action, a semicolon that follows only spaces, tabs and
    CRs ends the action: the item is the right delimiter, placed after the
    semicolon, which is consumed; the next state is [lexWhitespace], and the
    line and the paren depth are left as they were. *)
Theorem semicolon_ends_action (l : lexer) (ws rest : list ascii) :
  Forall is_blank ws -> data_of l = ws ++ semicolon :: rest ->
  startLine l = line l ->
  nextState l = Some StInsideAction \/ nextState l = Some StInActionSpace ->
  nextItem T l =
  (Item.mk itemRightDelim (pos l + len ws + 1) (Text []) (line l) true,
   set_nextState (right_delim_at l (pos l + len ws + 1) (line l))
                 (Some StWhitespace)).
Proof.
  intros F D SL S. rewrite nextItem_unfold.
  destruct S as [S|S]; rewrite S; cbn [run_state].
  - destruct ws as [|c ws]; cbn [app] in D.
    + rewrite (lexInsideAction_semicolon l rest D SL).
      change (len []) with 0. rewrite Z.add_0_r. reflexivity.
    + rewrite (lexInsideAction_space T l c _ D)
        by (inversion F as [|? ? Hc _]; unfold is_blank, isSpaceTabCR in Hc;
            lia).
      rewrite (lexInActionSpace_body_semicolon _ l (c :: ws) rest F D).
      reflexivity.
  - rewrite lexInActionSpace_unfold.
    rewrite (lexInActionSpace_body_semicolon _ l ws rest F D). reflexivity.
Qed.

End Semicolons.

(** In [a ;b], after the left delimiter and [a], the lexer is inside an
    action before a space and the semicolon: the next item is the right
    delimiter at byte 3. *)
Lemma semicolon_ends_action_witness :
  let l := after latin1Tables 2 (lex "t" (lit "a ;b") true) in
  fst (nextItem latin1Tables l) = Item.mk itemRightDelim 3 (Text []) 1 true /\
  nextState (snd (nextItem latin1Tables l)) = Some StWhitespace.
Proof.
  cbv zeta.
  pose proof (semicolon_ends_action latin1Tables
                (after latin1Tables 2 (lex "t" (lit "a ;b") true))
                [" "%char] (lit "b")
                ltac:(repeat constructor) eq_refl eq_refl
                (or_introl eq_refl)) as H.
  rewrite H. split; reflexivity.
Defined.

(** ** A backslash before the newline *)

(** From its second round on, the loop of [lexInActionSpace] has
    overwritten [i] and [r]. *)
Lemma lexInActionSpace_loop_overwrites (rs : list (Z * Z)) (p : Z * Z)
      (s s' : spaceScan) :
  sc_line s = sc_line s' ->
  sc_hasInlineBackslash s = sc_hasInlineBackslash s' ->
  sc_emitRightDelim s = sc_emitRightDelim s' ->
  lexInActionSpace_loop (p :: rs) s = lexInActionSpace_loop (p :: rs) s'.
Proof.
  intros H1 H2 H3. destruct p as [i r]. cbn [lexInActionSpace_loop].
  rewrite H1, H2, H3. reflexivity.
Qed.

Lemma lexInActionSpace_loop_blanks (ws : list ascii) (c : ascii)
      (t : list ascii) :
  b2z c < 0x80 -> Forall is_blank ws ->
  forall (i : Z) (s : spaceScan),
    lexInActionSpace_loop (range_from 0 i (ws ++ c :: t)) s =
    lexInActionSpace_loop (range_from 0 (i + len ws) (c :: t)) s.
Proof.
  intros A F. induction F as [|b ws Hb F IH]; intros i s; cbn [app].
  - change (len []) with 0. rewrite Z.add_0_r. reflexivity.
  - rewrite range_from_ascii by (apply blank_ascii; assumption).
    cbn [lexInActionSpace_loop]. unfold is_blank in Hb. rewrite Hb.
    rewrite IH. rewrite len_cons.
    replace (i + (len ws + 1)) with (i + 1 + len ws) by lia.
    rewrite range_from_ascii by assumption.
    apply lexInActionSpace_loop_overwrites; reflexivity.
Qed.

(** The loop over blanks, a backslash, blanks, a newline, blanks and then a
    byte that starts a token: it stops at that byte, one line further, and
    does not ask for the right delimiter. *)
Lemma lexInActionSpace_loop_continued (ws ws' ws'' rest : list ascii)
      (c : ascii) (ln : Z) :
  Forall is_blank ws -> Forall is_blank ws' -> Forall is_blank ws'' ->
  starts_token c ->
  lexInActionSpace_loop
    (range_str (ws ++ bslash :: ws' ++ nl :: ws'' ++ c :: rest))
    (mkSpaceScan 0 eof ln false false) =
  mkSpaceScan (len (ws ++ bslash :: ws' ++ nl :: ws'')) (b2z c) (ln + 1)
              false false.
Proof.
  intros F F' F'' (A & W & L & B & _). unfold range_str.
  rewrite lexInActionSpace_loop_blanks
    by (assumption || (vm_compute; reflexivity)).
  rewrite range_from_ascii by (vm_compute; reflexivity).
  cbn [lexInActionSpace_loop]. change (b2z bslash) with BACKSLASH. eval_if.
  cbn [sc_line sc_emitRightDelim].
  rewrite lexInActionSpace_loop_blanks
    by (assumption || (vm_compute; reflexivity)).
  rewrite range_from_ascii by (vm_compute; reflexivity).
  cbn [lexInActionSpace_loop]. change (b2z nl) with LF. eval_if.
  cbn [sc_line sc_emitRightDelim sc_hasInlineBackslash].
  rewrite (lexInActionSpace_loop_stop ws'' rest c) by assumption.
  cbn [sc_line sc_emitRightDelim sc_hasInlineBackslash].
  f_equal. rewrite !len_app, !len_cons, !len_app, !len_cons. lia.
Qed.

Lemma lexInActionSpace_body_continued (k : lexer -> result) (l : lexer)
      (ws ws' ws'' rest : list ascii) (c : ascii) :
  Forall is_blank ws -> Forall is_blank ws' -> Forall is_blank ws'' ->
  starts_token c ->
  data_of l = ws ++ bslash :: ws' ++ nl :: ws'' ++ c :: rest ->
  start l = pos l ->
  let run := ws ++ bslash :: ws' ++ nl :: ws'' in
  lexInActionSpace_body k l =
  (Item.mk itemSpace (pos l) (Text run) (startLine l) true,
   Some StInsideAction,
   mkLexer (name l) (input l) (emitComment l) (pos l + len run)
           (pos l + len run) 1 (parenDepth l) (line l + 1) (line l + 1)
           (nextState l)).
Proof.
  intros F F' F'' C D S. cbv zeta. unfold lexInActionSpace_body.
  rewrite D. rewrite (lexInActionSpace_loop_continued ws ws' ws'' rest c)
    by assumption.
  destruct C as (A & W & L & B & Sc & H).
  cbv beta zeta. cbn [sc_i sc_r sc_line sc_emitRightDelim].
  rewrite W.
  replace (b2z c =? LF) with false by (symmetry; apply Z.eqb_neq; exact L).
  replace (b2z c =? rune ";") with false
    by (symmetry; apply Z.eqb_neq; exact Sc).
  replace (b2z c =? rune "#") with false
    by (symmetry; apply Z.eqb_neq; exact H).
  replace (b2z c =? eof) with false
    by (symmetry; apply Z.eqb_neq; pose proof (b2z_range c); unfold eof; lia).
  set (run := ws ++ bslash :: ws' ++ nl :: ws'').
  assert (Ln : 1 <= len run).
  { subst run. rewrite len_app, len_cons. pose proof (len_nonneg ws).
    pose proof (len_nonneg (ws' ++ nl :: ws'')). lia. }
  replace (len run =? 0) with false by (symmetry; apply Z.eqb_neq; lia).
  unfold emit. cbn -[slice len]. rewrite S, slice_data, D.
  replace (ws ++ bslash :: ws' ++ nl :: ws'' ++ c :: rest)
    with (run ++ c :: rest)
    by (subst run; rewrite <- !app_assoc; cbn [app]; rewrite <- !app_assoc;
        reflexivity).
  rewrite firstn_len_app. reflexivity.
Qed.

Section Continuation.

Variable T : Tables.

(** X6. A backslash that is the last byte of its line but for spaces, tabs
    and CRs continues the action on the next line: where the lexer is in the
    state [lexInActionSpace], or in [lexInsideAction] before at least one
    space, tab or CR, the run of blanks, the backslash, the newline and the
    blanks that start the next line are one [itemSpace]; the lexer stays
    inside the action, one line further. *)
Theorem backslash_continues_action (l : lexer) (ws ws' ws'' rest : list ascii)
        (c : ascii) :
  Forall is_blank ws -> Forall is_blank ws' -> Forall is_blank ws'' ->
  starts_token c ->
  data_of l = ws ++ bslash :: ws' ++ nl :: ws'' ++ c :: rest ->
  start l = pos l ->
  nextState l = Some StInActionSpace \/
  (nextState l = Some StInsideAction /\ ws <> []) ->
  let run := ws ++ bslash :: ws' ++ nl :: ws'' in
  let l' := snd (nextItem T l) in
  fst (nextItem T l) =
    Item.mk itemSpace (pos l) (Text run) (startLine l) true /\
  nextState l' = Some StInsideAction /\
  pos l' = pos l + len run /\ line l' = line l + 1 /\
  parenDepth l' = parenDepth l.
Proof.
  intros F F' F'' C D S St. cbv zeta. rewrite nextItem_unfold.
  destruct St as [St|[St Hw]]; rewrite St; cbn [run_state].
  - rewrite lexInActionSpace_unfold.
    rewrite (lexInActionSpace_body_continued _ l ws ws' ws'' rest c)
      by assumption.
    cbn. auto.
  - destruct ws as [|b ws]; [congruence|]. cbn [app] in D.
    rewrite (lexInsideAction_space T l b _ D)
      by (inversion F as [|? ? Hc _]; unfold is_blank, isSpaceTabCR in Hc;
          lia).
    rewrite (lexInActionSpace_body_continued _ l (b :: ws) ws' ws'' rest c)
      by assumption.
    cbn. auto.
Qed.

End Continuation.

(** In [a \] LF [b], after the left delimiter and [a], the space, the
    backslash and the newline are one [itemSpace], and [b] belongs to the
    same action. *)
Lemma backslash_continues_action_witness :
  let l := after latin1Tables 2
             (lex "t" (lit "a " ++ bslash :: nl :: lit "b") true) in
  fst (nextItem latin1Tables l) =
    Item.mk itemSpace 1 (Text [" "%char; bslash; nl]) 1 true /\
  nextState (snd (nextItem latin1Tables l)) = Some StInsideAction /\
  map Item.typ
      (items latin1Tables 5
             (lex "t" (lit "a " ++ bslash :: nl :: lit "b") true)) =
    [itemLeftDelim; itemIdentifier; itemSpace; itemIdentifier;
     itemRightDelim].
Proof.
  cbv zeta.
  assert (D : data_of (after latin1Tables 2
                         (lex "t" (lit "a " ++ bslash :: nl :: lit "b") true))
              = [" "%char] ++ bslash :: [] ++ nl :: [] ++ "b"%char :: [])
    by (vm_compute; reflexivity).
  assert (S : start (after latin1Tables 2
                       (lex "t" (lit "a " ++ bslash :: nl :: lit "b") true))
              = pos (after latin1Tables 2
                       (lex "t" (lit "a " ++ bslash :: nl :: lit "b") true)))
    by (vm_compute; reflexivity).
  assert (N : nextState (after latin1Tables 2
                       (lex "t" (lit "a " ++ bslash :: nl :: lit "b") true))
              = Some StInsideAction)
    by (vm_compute; reflexivity).
  assert (C : starts_token "b"%char)
    by (vm_compute; repeat split; congruence).
  assert (B : Forall is_blank [" "%char]) by (repeat constructor).
  assert (W : [" "%char] <> []) by discriminate.
  pose proof (backslash_continues_action latin1Tables _
                [" "%char] [] [] [] "b"%char
                B (Forall_nil _) (Forall_nil _) C D S
                (or_intror (conj N W))) as H.
  cbv zeta in H. destruct H as (H1 & H2 & _).
  split; [rewrite H1; vm_compute; reflexivity|].
  split; [exact H2|]. vm_compute. reflexivity.
Defined.

(* ================================================================= *)
(** ** The rune after a number *)

Section NumberSyntax.

Variable T : Tables.

(** [scanNumber] is [scanLiteral] and the check of the next rune. *)
Lemma scanNumber_check (l : lexer) :
  scanNumber T l =
  let l1 := snd (scanLiteral l) in
  if isAlphaNumeric T (peek l1) then (false, snd (next l1)) else (true, l1).
Proof.
  cbv zeta. unfold scanNumber, scanLiteral, bind, call, ret, get.
  repeat (match goal with
          | |- context [accept ?s ?x] =>
              let b := fresh "b" in
              destruct (accept s x) as [b ?]; destruct b
          end; cbv beta iota zeta).
  all: cbn [String.length Nat.eqb Nat.add fst snd].
  all: repeat (match goal with
          | |- context [accept ?s ?x] =>
              let b := fresh "b" in
              destruct (accept s x) as [b ?]; destruct b
          end; cbv beta iota zeta; cbn [String.length Nat.eqb Nat.add fst snd]).
  all: match goal with
       | |- context [isAlphaNumeric T ?r] => destruct (isAlphaNumeric T r)
       end.
  all: try reflexivity.
  all: match goal with
       | |- context [next ?x] => destruct (next x)
       end; reflexivity.
Qed.

(** C6, as the code has it.  [l1] is the lexer after the literal, [l2]
    the lexer after the literal that follows a [+] or a [-].  What
    [lexNumber] emits is followed by no alphanumeric rune; it asks for no
    terminator.  An alphanumeric rune (a letter, a digit or [_]) after the
    literal is ["bad number syntax"].  A [+] or a [-] after the literal
    makes a complex number of it: the second literal has to end in [i] and
    to be followed by no alphanumeric rune, or the item is
    ["bad number syntax"].  Before every other rune, and at the end of the
    input, where [peek] returns [eof], which is not alphanumeric, the item
    is the number. *)
Theorem number_ends_before_alphanumeric (l : lexer) :
  let l1 := snd (scanLiteral l) in
  let l2 := snd (scanLiteral l1) in
  let signed := (peek l1 =? rune "+") || (peek l1 =? rune "-") in
  (let '(it, nxt, l') := lexNumber T l in
   ((Item.typ it = itemNumber \/ Item.typ it = itemComplex) /\
    nxt = Some StInsideAction /\
    isAlphaNumeric T (peek l') = false /\ spans it l') \/
   (Item.typ it = itemError /\ nxt = None /\
    exists s, Item.val it = Sprintf "bad number syntax: %q" [ArgString s])) /\
  (isAlphaNumeric T (peek l1) = true ->
   lexNumber T l = badNumber (snd (next l1))) /\
  (isAlphaNumeric T (peek l1) = false -> signed = false ->
   lexNumber T l =
   (fst (emit itemNumber l1), Some StInsideAction,
    snd (emit itemNumber l1))) /\
  (isAlphaNumeric T (peek l1) = false -> signed = true ->
   lexNumber T l =
   if isAlphaNumeric T (peek l2) then badNumber (snd (next l2))
   else if byte_at (input l2) (pos l2 - 1) =? rune "i"
        then (fst (emit itemComplex l2), Some StInsideAction,
              snd (emit itemComplex l2))
        else badNumber l2) /\
  isAlphaNumeric T eof = false.
Proof.
  cbv zeta. split; [exact (lexNumber_outcome T l)|].
  unfold lexNumber. rewrite scanNumber_check. cbv zeta.
  set (l1 := snd (scanLiteral l)).
  split; [|split; [|split; [|vm_compute; reflexivity]]].
  - intros A. rewrite A. reflexivity.
  - intros A S. rewrite A. cbn [negb]. rewrite S. reflexivity.
  - intros A S. rewrite A. cbn [negb]. rewrite S.
    rewrite scanNumber_check. cbv zeta.
    destruct (isAlphaNumeric T (peek (snd (scanLiteral l1)))); cbn [negb orb];
      [reflexivity|].
    destruct (byte_at _ _ =? rune "i"); reflexivity.
Qed.

End NumberSyntax.

(** The four cases on inputs: in [1a] the letter after the literal [1] is
    bad number syntax; in [1@] the number is emitted before [@], which is
    no terminator; in [1+ ] the [+] asks for an imaginary part, and there
    is none; in [1+2i] the item is the complex number. *)
Lemma number_ends_before_alphanumeric_witness :
  fst (fst (lexNumber latin1Tables (after latin1Tables 1
                                      (lex "t" (lit "1a") true)))) =
    Item.mk itemError 0
            (Sprintf "bad number syntax: %q" [ArgString (lit "1a")]) 1 true /\
  fst (fst (lexNumber latin1Tables (after latin1Tables 1
                                      (lex "t" (lit "1@") true)))) =
    Item.mk itemNumber 0 (Text (lit "1")) 1 true /\
  fst (fst (lexNumber latin1Tables (after latin1Tables 1
                                      (lex "t" (lit "1+ ") true)))) =
    Item.mk itemError 0
            (Sprintf "bad number syntax: %q" [ArgString (lit "1+")]) 1 true /\
  fst (fst (lexNumber latin1Tables (after latin1Tables 1
                                      (lex "t" (lit "1+2i") true)))) =
    Item.mk itemComplex 0 (Text (lit "1+2i")) 1 true.
Proof.
  split; [|split; [|split]].
  - pose proof (number_ends_before_alphanumeric latin1Tables
                  (after latin1Tables 1 (lex "t" (lit "1a") true))) as H.
    cbv zeta in H. destruct H as (_ & H & _ & _ & _).
    rewrite H by (vm_compute; reflexivity). vm_compute. reflexivity.
  - pose proof (number_ends_before_alphanumeric latin1Tables
                  (after latin1Tables 1 (lex "t" (lit "1@") true))) as H.
    cbv zeta in H. destruct H as (_ & _ & H & _ & _).
    rewrite H by (vm_compute; reflexivity). vm_compute. reflexivity.
  - pose proof (number_ends_before_alphanumeric latin1Tables
                  (after latin1Tables 1 (lex "t" (lit "1+ ") true))) as H.
    cbv zeta in H. destruct H as (_ & _ & _ & H & _).
    rewrite H by (vm_compute; reflexivity). vm_compute. reflexivity.
  - pose proof (number_ends_before_alphanumeric latin1Tables
                  (after latin1Tables 1 (lex "t" (lit "1+2i") true))) as H.
    cbv zeta in H. destruct H as (_ & _ & _ & H & _).
    rewrite H by (vm_compute; reflexivity). vm_compute. reflexivity.
Defined.

(* ================================================================= *)
(** ** A [#] after a token *)





Section HashAfterToken.

Variable T : Tables.











End HashAfterToken.

